(** * search-navigate: a shallow embedding of [src/index.ts]

    The first part holds the model, a module for each piece of the source:
    - [Store]: the reactive store ([class Store], lines 17-60);
    - [Location]: [parseLocation] (lines 198-207);
    - [History]: the history queue ([createHistory], lines 85-162);
    - [Uri], [Number]: [encodeURIComponent], [decodeURIComponent] and the
      conversions between numbers and strings, which the codec calls;
    - [Codec]: the search codec ([encode], [toValue], [decode],
      [parseSearchWith], [stringifySearchWith], lines 214-313);
    - [Merge]: the structural merge ([d], [R], [T], lines 343-370);
    - [Path]: the trimming of slashes ([N], [B], [w], lines 371-379) and the
      base path of [Router.update] (lines 424-425);
    - [Router]: [Router.load] (lines 427-436).
    The second part holds the properties.

    Conventions.  A JavaScript string is modelled by the bytes of its UTF-8
    encoding (Rocq's [string]); a JavaScript number by an integer ([Z]),
    so [NaN], infinities and fractions are outside the model.  Callbacks that
    the program only invokes (store listeners, history listeners, the host
    adapter) are observers: each invocation is recorded as an event of a
    trace, and none of them calls back into the store or the history. *)

From Stdlib Require Import ZArith List String Ascii Bool Arith Lia.
From Stdlib Require Import DecimalString DecimalZ.
Import ListNotations.
Set Warnings "-register-all".
Open Scope string_scope.
Open Scope list_scope.

(** ** JavaScript string primitives used by the source *)

Module JsString.

(** [s.indexOf(c)] for a one-character needle, counted from [from]. *)
Fixpoint indexOf_from (c : ascii) (s : string) (from : Z) : Z :=
  match s with
  | EmptyString => (-1)%Z
  | String a s' => if Ascii.eqb a c then from else indexOf_from c s' (from + 1)%Z
  end.

Definition indexOf (c : ascii) (s : string) : Z := indexOf_from c s 0%Z.

(** The first [n] characters of [s], and [s] without them. *)
Fixpoint take (n : nat) (s : string) : string :=
  match n, s with
  | S n', String a s' => String a (take n' s')
  | _, _ => EmptyString
  end.

Fixpoint drop (n : nat) (s : string) : string :=
  match n, s with
  | S n', String _ s' => drop n' s'
  | _, _ => s
  end.

(** An index argument of [substring] is clamped to [0 .. s.length]. *)
Definition clamp (s : string) (i : Z) : nat :=
  Nat.min (Z.to_nat i) (String.length s).

(** [s.substring(start, end)]: both indices are clamped and swapped when
    [start > end]. *)
Definition substring (s : string) (start fin : Z) : string :=
  let a := clamp s start in
  let b := clamp s fin in
  let lo := Nat.min a b in
  let hi := Nat.max a b in
  take (hi - lo) (drop lo s).

(** [s.substring(start)]. *)
Definition substring_from (s : string) (start : Z) : string :=
  drop (clamp s start) s.

(** [s.charAt(0)], the empty string when [s] is empty. *)
Definition charAt0 (s : string) : string :=
  match s with
  | EmptyString => EmptyString
  | String a _ => String a EmptyString
  end.

(** [s.split(sep)] for a one-character separator: never the empty list. *)
Fixpoint split (sep : ascii) (s : string) : list string :=
  match s with
  | EmptyString => [EmptyString]
  | String a s' =>
      if Ascii.eqb a sep then EmptyString :: split sep s'
      else match split sep s' with
           | piece :: rest => String a piece :: rest
           | [] => [String a EmptyString]
           end
  end.

(** Whether the character [c] occurs in [s]. *)
Fixpoint occurs (c : ascii) (s : string) : bool :=
  match s with
  | EmptyString => false
  | String a s' => Ascii.eqb a c || occurs c s'
  end.

(** Whether every character of [s] satisfies [p]. *)
Fixpoint all_chars (p : ascii -> bool) (s : string) : bool :=
  match s with
  | EmptyString => true
  | String a s' => p a && all_chars p s'
  end.

End JsString.

(** ** The reactive store (lines 17-60) *)

Module Store.

(** A listener is identified by a number; the listener set iterates in
    insertion order. *)
Definition listener := nat.

Section WithState.

Variable TState : Type.

(** [a === b] on states. *)
Variable same : TState -> TState -> bool.

(** What the store does to its surroundings: it runs the [onUpdate] hook and
    it invokes listeners, each with [(next, prev)]. *)
Inductive event :=
| OnUpdate (next prev : TState)
| Notify (l : listener) (next prev : TState).

Definition TUpdater := TState -> TState.

Record StoreOptions := {
  updateFn : option (TState -> TUpdater -> TState);
  onUpdate : bool
}.

(** A queued callback [() => listeners.forEach(l => l(this.state, previous))]
    is determined by the [previous] it captured: [this.state] and
    [this.listeners] are read when it runs. *)
Record t := {
  listeners : list listener;
  state : TState;
  options : option StoreOptions;
  batching : bool;
  queue : list TState
}.

Definition with_state (s : TState) (st : t) : t :=
  {| listeners := listeners st; state := s; options := options st;
     batching := batching st; queue := queue st |}.

Definition with_batching (b : bool) (st : t) : t :=
  {| listeners := listeners st; state := state st; options := options st;
     batching := b; queue := queue st |}.

Definition with_queue (q : list TState) (st : t) : t :=
  {| listeners := listeners st; state := state st; options := options st;
     batching := batching st; queue := q |}.

(** [new Store(initialState, options)]. *)
Definition create (initialState : TState) (opts : option StoreOptions) : t :=
  {| listeners := []; state := initialState; options := opts;
     batching := false; queue := [] |}.

(** [store.listeners.add(l)]: a set, so adding twice is adding once. *)
Definition subscribe (l : listener) (st : t) : t :=
  {| listeners := if existsb (Nat.eqb l) (listeners st) then listeners st
                  else listeners st ++ [l];
     state := state st; options := options st;
     batching := batching st; queue := queue st |}.

(** Store code runs in a state monad that also collects the events. *)
Definition M (A : Type) : Type := t -> A * t * list event.

Definition ret {A} (a : A) : M A := fun st => (a, st, []).

Definition bind {A B} (m : M A) (k : A -> M B) : M B :=
  fun st =>
    let '(a, st1, tr1) := m st in
    let '(b, st2, tr2) := k a st1 in
    (b, st2, tr1 ++ tr2).

Definition seq (m k : M unit) : M unit := bind m (fun _ => k).

(** The candidate next state: [options.updateFn(previous)(updater)] when the
    option is set, [updater(previous)] otherwise. *)
Definition candidate (st : t) (updater : TUpdater) : TState :=
  match options st with
  | Some {| updateFn := Some f |} => f (state st) updater
  | _ => updater (state st)
  end.

Definition has_onUpdate (st : t) : bool :=
  match options st with
  | Some o => onUpdate o
  | None => false
  end.

(** Running one queued callback. *)
Definition run_callback (st : t) (previous : TState) : list event :=
  map (fun l => Notify l (state st) previous) (listeners st).

(** [#flush] (lines 48-52). *)
Definition flush : M unit := fun st =>
  if batching st then (tt, st, [])
  else (tt, with_queue [] st, flat_map (run_callback st) (queue st)).

(** [setState] (lines 32-46). *)
Definition setState (updater : TUpdater) : M unit := fun st =>
  let previous := state st in
  let st1 := with_state (candidate st updater) st in
  if same (state st1) previous then (tt, st1, [])
  else
    let hook := if has_onUpdate st1 then [OnUpdate (state st1) previous] else [] in
    let st2 := with_queue (queue st1 ++ [previous]) st1 in
    let '(_, st3, tr) := flush st2 in
    (tt, st3, hook ++ tr).

(** [batch] (lines 54-59). *)
Definition batch (cb : M unit) : M unit := fun st =>
  let '(_, st1, tr1) := cb (with_batching true st) in
  let '(_, st2, tr2) := flush (with_batching false st1) in
  (tt, st2, tr1 ++ tr2).

(** A callback that makes the calls [setState(u1); ...; setState(uN)]. *)
Fixpoint setStates (us : list TUpdater) : M unit :=
  match us with
  | [] => ret tt
  | u :: us' => seq (setState u) (setStates us')
  end.

Definition is_notify (e : event) : bool :=
  match e with
  | Notify _ _ _ => true
  | OnUpdate _ _ => false
  end.

(** How often the listener [l] is invoked in a trace. *)
Definition invocations (l : listener) (tr : list event) : nat :=
  List.length (filter (fun e => match e with
                           | Notify l' _ _ => Nat.eqb l l'
                           | OnUpdate _ _ => false
                           end) tr).

(** The state after the updaters [us] ran in turn from [st]. *)
Definition final_state (st : t) (us : list TUpdater) : TState :=
  fold_left (fun s u => candidate (with_state s st) u) us (state st).

(** What is delivered for one change from [prev] to [next]: the hook runs,
    then every listener, in the order of the set. *)
Definition delivery (st : t) (next prev : TState) : list event :=
  (if has_onUpdate st then [OnUpdate next prev] else [])
  ++ map (fun l => Notify l next prev) (listeners st).

(** The deliveries of the changes that the updaters [us] make in turn from
    [st], each with the state it made and the state before it. *)
Fixpoint deliveries (st : t) (us : list TUpdater) : list event :=
  match us with
  | [] => []
  | u :: us' =>
      (if same (candidate st u) (state st) then []
       else delivery st (candidate st u) (state st))
      ++ deliveries (with_state (candidate st u) st) us'
  end.

End WithState.

Arguments OnUpdate {TState} next prev.
Arguments Notify {TState} l next prev.
Arguments listeners {TState} _.
Arguments state {TState} _.
Arguments options {TState} _.
Arguments batching {TState} _.
Arguments queue {TState} _.
Arguments with_state {TState} s st.
Arguments with_batching {TState} b st.
Arguments with_queue {TState} q st.
Arguments create {TState} initialState opts.
Arguments subscribe {TState} l st.
Arguments ret {TState A} a.
Arguments bind {TState A B} m k.
Arguments seq {TState} m k.
Arguments candidate {TState} st updater.
Arguments run_callback {TState} st previous.
Arguments flush {TState}.
Arguments setState {TState} same updater.
Arguments batch {TState} cb.
Arguments setStates {TState} same us.
Arguments is_notify {TState} e.
Arguments invocations {TState} l tr.
Arguments final_state {TState} st us.
Arguments delivery {TState} st next prev.
Arguments deliveries {TState} same st us.

End Store.

(** ** Locations (lines 73-81, 198-207) *)

Module Location.

Section WithHistoryState.

(** [History["state"]], opaque to the router. *)
Variable HState : Type.

Record RouterLocation := {
  href : string;
  pathname : string;
  search : string;
  state : HState
}.

(** [parseLocation] (lines 198-207). *)
Definition parseLocation (href : string) (state : HState) : RouterLocation :=
  let searchIndex := JsString.indexOf "?" href in
  {| href := href;
     pathname := JsString.substring href 0 searchIndex;
     search := if (searchIndex >? -1)%Z
               then JsString.substring_from href searchIndex
               else "";
     state := state |}.

End WithHistoryState.

Arguments href {HState} _.
Arguments pathname {HState} _.
Arguments search {HState} _.
Arguments state {HState} _.
Arguments parseLocation {HState} href state.

End Location.

(** ** Exceptions *)

Module Js.

(** The errors the modelled code can raise: [decodeURIComponent]'s
    [URIError], the [TypeError] of reading a property of [null], and whatever
    a caller-supplied function throws. *)
Inductive error :=
| URIError
| TypeError
| Thrown (message : string).

Inductive result (A : Type) :=
| Ok (a : A)
| Throw (e : error).

Arguments Ok {A} a.
Arguments Throw {A} e.

(** A [SyntaxError], as [JSON.parse] throws. *)
Definition syntax_error {A} : result A := Throw (Thrown "SyntaxError").

Definition is_ok {A} (r : result A) : bool :=
  match r with
  | Ok _ => true
  | Throw _ => false
  end.

End Js.

(** ** The history queue (lines 85-162) *)

Module History.

Import Location.

Section WithHost.

Variable HState : Type.

(** The host environment behind the adapter ([window.history] for
    [createBrowserHistory]). *)
Variable Host : Type.

(** A call of the adapter changes the host and may throw. *)
Definition HostCall := Host -> Host * option Js.error.

(** The [opts] argument of [createHistory].  [listener(onUpdate)] attaches
    the host-level listener and returns the function that detaches it. *)
Record Opts := {
  getLocation : Host -> RouterLocation HState;
  listener : Host -> Host * (Host -> Host);
  pushState : string -> HState -> HostCall;
  replaceState : string -> HState -> HostCall;
  go : Z -> HostCall;
  back : HostCall;
  forward : HostCall;
  createHref : string -> string
}.

(** The closures that [push], [replace], [go], [back] and [forward] queue. *)
Inductive task :=
| TPush (path : string) (state : HState)
| TReplace (path : string) (state : HState)
| TGo (index : Z)
| TBack
| TForward.

Definition run_task (opts : Opts) (tk : task) : HostCall :=
  match tk with
  | TPush path state => pushState opts path state
  | TReplace path state => replaceState opts path state
  | TGo index => go opts index
  | TBack => back opts
  | TForward => forward opts
  end.

(** What can be observed: the adapter is called, a listener is invoked. *)
Inductive event :=
| Called (tk : task)
| Listener (l : nat).

(** The variables [createHistory] closes over, with the host. *)
Record t := {
  currentLocation : RouterLocation HState;
  unsub : Host -> Host;
  listeners : list nat;
  queue : list task;
  host : Host
}.

(** The outcome of a call: the history afterwards, what happened, and the
    exception when one propagates to the caller. *)
Definition outcome : Type := t * list event * option Js.error.

(** [createHistory(opts)] up to the returned object (lines 95-98). *)
Definition createHistory (opts : Opts) (h : Host) : t :=
  {| currentLocation := getLocation opts h;
     unsub := fun x => x;
     listeners := [];
     queue := [];
     host := h |}.

(** [onUpdate] (lines 113-116). *)
Definition onUpdate (opts : Opts) (hist : t) : outcome :=
  ({| currentLocation := getLocation opts (host hist);
      unsub := unsub hist;
      listeners := listeners hist;
      queue := queue hist;
      host := host hist |},
   map Listener (listeners hist),
   None).

(** The loop [while (queue.length) queue.shift()?.()] (lines 101-103): the
    queue left, the host, the calls made and the exception of the task that
    threw.  A task is taken off the queue before it runs. *)
Fixpoint drain (opts : Opts) (q : list task) (h : Host)
  : list task * Host * list event * option Js.error :=
  match q with
  | [] => ([], h, [], None)
  | tk :: q' =>
      match run_task opts tk h with
      | (h', Some e) => (q', h', [Called tk], Some e)
      | (h', None) =>
          let '(rest, h'', tr, r) := drain opts q' h' in
          (rest, h'', Called tk :: tr, r)
      end
  end.

(** [tryFlush] (lines 100-106). *)
Definition tryFlush (opts : Opts) (hist : t) : outcome :=
  let '(rest, h', tr, r) := drain opts (queue hist) (host hist) in
  let hist' := {| currentLocation := currentLocation hist;
                  unsub := unsub hist;
                  listeners := listeners hist;
                  queue := rest;
                  host := h' |} in
  match r with
  | Some e => (hist', tr, Some e)
  | None =>
      let '(hist'', tr', r') := onUpdate opts hist' in
      (hist'', tr ++ tr', r')
  end.

(** [queueTask] (lines 108-111). *)
Definition queueTask (opts : Opts) (tk : task) (hist : t) : outcome :=
  tryFlush opts
    {| currentLocation := currentLocation hist;
       unsub := unsub hist;
       listeners := listeners hist;
       queue := queue hist ++ [tk];
       host := host hist |}.

(** The mutating operations of the returned object (lines 135-159). *)
Definition push (opts : Opts) (path : string) (state : HState) : t -> outcome :=
  queueTask opts (TPush path state).

Definition replace (opts : Opts) (path : string) (state : HState) : t -> outcome :=
  queueTask opts (TReplace path state).

(** [go], [back] and [forward] of the returned object; the names without
    the underscore are the adapter's. *)
Definition go_ (opts : Opts) (index : Z) : t -> outcome :=
  queueTask opts (TGo index).

Definition back_ (opts : Opts) : t -> outcome := queueTask opts TBack.

Definition forward_ (opts : Opts) : t -> outcome := queueTask opts TForward.

(** [listen(cb)] (lines 122-127). *)
Definition listen (opts : Opts) (cb : nat) (hist : t) : t :=
  let '(h', u) :=
    match listeners hist with
    | [] => listener opts (host hist)
    | _ :: _ => (host hist, unsub hist)
    end in
  {| currentLocation := currentLocation hist;
     unsub := u;
     listeners := if existsb (Nat.eqb cb) (listeners hist) then listeners hist
                  else listeners hist ++ [cb];
     queue := queue hist;
     host := h' |}.

(** The function [listen(cb)] returns (lines 128-133). *)
Definition unlisten (cb : nat) (hist : t) : t :=
  let ls := filter (fun l => negb (Nat.eqb cb l)) (listeners hist) in
  {| currentLocation := currentLocation hist;
     unsub := unsub hist;
     listeners := ls;
     queue := queue hist;
     host := match ls with
             | [] => unsub hist (host hist)
             | _ :: _ => host hist
             end |}.

(** Two calls one after the other; the second is not made when the first
    throws. *)
Definition and_then (f g : t -> outcome) (hist : t) : outcome :=
  match f hist with
  | (hist1, tr1, Some e) => (hist1, tr1, Some e)
  | (hist1, tr1, None) =>
      let '(hist2, tr2, r) := g hist1 in
      (hist2, tr1 ++ tr2, r)
  end.

(** The histories a program can hold: [createHistory]'s result, and what
    its operations and the host's change notification make of one. *)
Inductive reachable (opts : Opts) : t -> Prop :=
| reach_create h : reachable opts (createHistory opts h)
| reach_task tk hist hist' tr r :
    reachable opts hist ->
    queueTask opts tk hist = (hist', tr, r) ->
    reachable opts hist'
| reach_listen cb hist :
    reachable opts hist -> reachable opts (listen opts cb hist)
| reach_unlisten cb hist :
    reachable opts hist -> reachable opts (unlisten cb hist)
| reach_host_event hist hist' tr r (change : Host -> Host) :
    reachable opts hist ->
    onUpdate opts
      {| currentLocation := currentLocation hist;
         unsub := unsub hist;
         listeners := listeners hist;
         queue := queue hist;
         host := change (host hist) |} = (hist', tr, r) ->
    reachable opts hist'.

(** How often the listener [l] is invoked in a trace. *)
Definition invocations (l : nat) (tr : list event) : nat :=
  List.length (filter (fun e => match e with
                           | Listener l' => Nat.eqb l l'
                           | Called _ => false
                           end) tr).

(** What the adapter makes of the host when it is called for the tasks
    [tks] in turn, up to the first call that throws. *)
Fixpoint run_tasks (opts : Opts) (tks : list task) (h : Host)
  : Host * option Js.error :=
  match tks with
  | [] => (h, None)
  | tk :: tks' =>
      match run_task opts tk h with
      | (h', Some e) => (h', Some e)
      | (h', None) => run_tasks opts tks' h'
      end
  end.

(** A program that calls the mutating operation of each of [tks], one call
    after the other. *)
Fixpoint calls (opts : Opts) (tks : list task) : t -> outcome :=
  match tks with
  | [] => fun hist => (hist, [], None)
  | tk :: tks' => and_then (queueTask opts tk) (calls opts tks')
  end.

End WithHost.

Arguments TPush {HState} path state.
Arguments TReplace {HState} path state.
Arguments TGo {HState} index.
Arguments TBack {HState}.
Arguments TForward {HState}.
Arguments Called {HState} tk.
Arguments Listener {HState} l.
Arguments currentLocation {HState Host} _.
Arguments unsub {HState Host} _.
Arguments listeners {HState Host} _.
Arguments queue {HState Host} _.
Arguments host {HState Host} _.
Arguments createHistory {HState Host} opts h.
Arguments onUpdate {HState Host} opts hist.
Arguments drain {HState Host} opts q h.
Arguments tryFlush {HState Host} opts hist.
Arguments queueTask {HState Host} opts tk hist.
Arguments push {HState Host} opts path state _.
Arguments replace {HState Host} opts path state _.
Arguments listen {HState Host} opts cb hist.
Arguments unlisten {HState Host} cb hist.
Arguments and_then {HState Host} f g hist.
Arguments reachable {HState Host} opts _.
Arguments invocations {HState} l tr.
Arguments run_task {HState Host} opts tk _.
Arguments run_tasks {HState Host} opts tks h.
Arguments calls {HState Host} opts tks _.

End History.

(** ** URI components and numbers as strings *)

Module Uri.

Import Js.

(** The characters [encodeURIComponent] leaves as they are:
    [A-Z a-z 0-9 - _ . ! ~ * ' ( )]. *)
Definition unreserved (c : ascii) : bool :=
  let n := N_of_ascii c in
  ((65 <=? n) && (n <=? 90) || (97 <=? n) && (n <=? 122)
   || (48 <=? n) && (n <=? 57)
   || (n =? 45) || (n =? 95) || (n =? 46) || (n =? 33) || (n =? 126)
   || (n =? 42) || (n =? 39) || (n =? 40) || (n =? 41))%N.

(** The upper-case hexadecimal digit of [n < 16]. *)
Definition hex_digit (n : N) : ascii :=
  ascii_of_N (if (n <? 10)%N then 48 + n else 55 + n).

(** The value of a hexadecimal digit, of either case. *)
Definition hex_value (c : ascii) : option N :=
  let n := N_of_ascii c in
  if ((48 <=? n) && (n <=? 57))%N then Some (n - 48)%N
  else if ((65 <=? n) && (n <=? 70))%N then Some (n - 55)%N
  else if ((97 <=? n) && (n <=? 102))%N then Some (n - 87)%N
  else None.

Definition escape_byte (c : ascii) : string :=
  let n := N_of_ascii c in
  String "%" (String (hex_digit (n / 16)) (String (hex_digit (n mod 16)) "")).

(** [encodeURIComponent(s)]: every byte of the UTF-8 encoding that is not an
    unreserved character is escaped. *)
Fixpoint encodeURIComponent (s : string) : string :=
  match s with
  | EmptyString => EmptyString
  | String c s' =>
      if unreserved c then String c (encodeURIComponent s')
      else (escape_byte c ++ encodeURIComponent s')%string
  end.

(** Where [decodeURIComponent] stands in an escape. *)
Inductive escape :=
| Raw
| Percent
| Hex1 (hi : N).

(** What a first byte of a UTF-8 sequence asks for: how many continuation
    bytes, and the range of the next one (which rules out overlong forms,
    surrogates and code points past U+10FFFF). *)
Definition lead (b : N) : option (nat * N * N) :=
  if ((194 <=? b) && (b <=? 223))%N then Some (1%nat, 128, 191)%N
  else if (b =? 224)%N then Some (2%nat, 160, 191)%N
  else if ((225 <=? b) && (b <=? 236))%N then Some (2%nat, 128, 191)%N
  else if (b =? 237)%N then Some (2%nat, 128, 159)%N
  else if ((238 <=? b) && (b <=? 239))%N then Some (2%nat, 128, 191)%N
  else if (b =? 240)%N then Some (3%nat, 144, 191)%N
  else if ((241 <=? b) && (b <=? 243))%N then Some (3%nat, 128, 191)%N
  else if (b =? 244)%N then Some (3%nat, 128, 143)%N
  else None.

Definition emit (c : ascii) (r : result string) : result string :=
  match r with
  | Ok s => Ok (String c s)
  | Throw e => Throw e
  end.

(** [decodeURIComponent] from a position: [esc] is the part of an escape
    read so far, [pending] the continuation bytes still owed, each of which
    must be an escape, and [lo .. hi] the range of the next one. *)
Fixpoint decode_from (s : string) (esc : escape) (pending : nat) (lo hi : N)
  : result string :=
  match s with
  | EmptyString =>
      match esc, pending with
      | Raw, O => Ok EmptyString
      | _, _ => Throw URIError
      end
  | String c s' =>
      match esc with
      | Raw =>
          if Ascii.eqb c "%" then decode_from s' Percent pending lo hi
          else match pending with
               | O => emit c (decode_from s' Raw O lo hi)
               | S _ => Throw URIError
               end
      | Percent =>
          match hex_value c with
          | Some h => decode_from s' (Hex1 h) pending lo hi
          | None => Throw URIError
          end
      | Hex1 h =>
          match hex_value c with
          | None => Throw URIError
          | Some l =>
              let b := (16 * h + l)%N in
              match pending with
              | O =>
                  if (b <? 128)%N
                  then emit (ascii_of_N b) (decode_from s' Raw O lo hi)
                  else match lead b with
                       | Some (n, lo', hi') =>
                           emit (ascii_of_N b) (decode_from s' Raw n lo' hi')
                       | None => Throw URIError
                       end
              | S p =>
                  if ((lo <=? b) && (b <=? hi))%N
                  then emit (ascii_of_N b) (decode_from s' Raw p 128 191)
                  else Throw URIError
              end
          end
      end
  end.

(** [decodeURIComponent(s)]: throws [URIError] on an escape that is cut
    short, is not hexadecimal, or does not decode to UTF-8. *)
Definition decodeURIComponent (s : string) : result string :=
  decode_from s Raw O 128 191.

(** Strings of 7-bit characters, which are their own UTF-8 encoding. *)
Definition ascii_only (s : string) : bool :=
  JsString.all_chars (fun c => (N_of_ascii c <? 128)%N) s.

(** Whether the bytes of [s] go on a well-formed UTF-8 text of which
    [pending] continuation bytes are owed, the next one in [lo .. hi]. *)
Fixpoint utf8_from (s : string) (pending : nat) (lo hi : N) : bool :=
  match s with
  | EmptyString =>
      match pending with
      | O => true
      | S _ => false
      end
  | String c s' =>
      let b := N_of_ascii c in
      match pending with
      | O =>
          if (b <? 128)%N then utf8_from s' O lo hi
          else match lead b with
               | Some (n, lo', hi') => utf8_from s' n lo' hi'
               | None => false
               end
      | S p => (lo <=? b)%N && (b <=? hi)%N && utf8_from s' p 128 191
      end
  end.

(** The strings that are the UTF-8 encoding of a text: those a JavaScript
    string without a lone surrogate stands for. *)
Definition well_formed (s : string) : bool := utf8_from s O 128 191.


End Uri.

Module Number.

(** [Number.MAX_SAFE_INTEGER]. *)
Definition max_safe_integer : Z := 9007199254740991.

(** [String(n)] for an integer (below [1e21] in size, where JavaScript
    turns to the exponent form). *)
Definition to_string (n : Z) : string :=
  NilZero.string_of_int (Z.to_int n).

(** The white space [StringToNumber] strips, as far as one byte goes. *)
Definition is_space (c : ascii) : bool :=
  let n := N_of_ascii c in
  ((9 <=? n) && (n <=? 13) || (n =? 32))%N.

Definition is_digit (c : ascii) : bool :=
  ((48 <=? N_of_ascii c) && (N_of_ascii c <=? 57))%N.

Fixpoint trim_start (s : string) : string :=
  match s with
  | EmptyString => EmptyString
  | String c s' => if is_space c then trim_start s' else s
  end.

Fixpoint trim_end (s : string) : string :=
  match s with
  | EmptyString => EmptyString
  | String c s' =>
      match trim_end s' with
      | EmptyString => if is_space c then EmptyString else String c EmptyString
      | r => String c r
      end
  end.

Definition trim (s : string) : string := trim_end (trim_start s).

(** A run of one or more decimal digits. *)
Definition digits (s : string) : option Z :=
  option_map Z.of_uint (NilZero.uint_of_string s).

(** [+str] when [+str * 0 === 0] (the number is finite), [None] otherwise.
    Numbers are integers here: the empty string is [0], and a number is an
    optional sign and decimal digits.  A literal with a fraction, an exponent
    or a radix prefix denotes a number that the model does not have, and
    reads as not numeric; an integer past [max_safe_integer], which
    JavaScript rounds, is exact here. *)
Definition of_string (s : string) : option Z :=
  match trim s with
  | EmptyString => Some 0%Z
  | String c rest =>
      if Ascii.eqb c "-" then option_map Z.opp (digits rest)
      else if Ascii.eqb c "+" then digits rest
      else digits (String c rest)
  end.

(** Whether [s] starts with a white space character outside the 7-bit range,
    which [StringToNumber] strips as well: U+00A0 (bytes C2 A0), U+1680
    (E1 9A 80), U+2000 to U+200A, U+2028, U+2029 and U+202F (E2 80 80 to 8A,
    A8, A9, AF), U+205F (E2 81 9F), U+3000 (E3 80 80) and U+FEFF (EF BB BF).
    [of_string] strips none of them, so it follows [+str] only on the texts
    that start with none. *)
Definition starts_with_wide_space (s : string) : bool :=
  match s with
  | String a (String b rest) =>
      let a := N_of_ascii a in
      let b := N_of_ascii b in
      ((a =? 194) && (b =? 160)
       || match rest with
          | String c _ =>
              let c := N_of_ascii c in
              (a =? 225) && (b =? 154) && (c =? 128)
              || (a =? 226) && (b =? 128)
                 && ((128 <=? c) && (c <=? 138)
                     || (c =? 168) || (c =? 169) || (c =? 175))
              || (a =? 226) && (b =? 129) && (c =? 159)
              || (a =? 227) && (b =? 128) && (c =? 128)
              || (a =? 239) && (b =? 187) && (c =? 191)
          | EmptyString => false
          end)%N
  | _ => false
  end.

End Number.

(** ** The search codec (lines 214-313) *)

Module Codec.

Import Js.

(** The values of a search object.  Identity plays no part in the codec;
    the fields of an object are in the order [for ... in] visits them. *)
Inductive value :=
| VUndefined
| VNull
| VBool (b : bool)
| VNum (n : Z)
| VStr (s : string)
| VArr (elems : list value)
| VObj (fields : list (string * value)).

Definition SearchObject := list (string * value).

(** [String(v)], as [encodeURIComponent] applies it to its argument.  An
    array is joined with commas, [null] and [undefined] entries as empty
    strings. *)
Fixpoint to_string (v : value) : string :=
  match v with
  | VUndefined => "undefined"
  | VNull => "null"
  | VBool true => "true"
  | VBool false => "false"
  | VNum n => Number.to_string n
  | VStr s => s
  | VArr elems =>
      (fix join (l : list value) : string :=
         let entry x := match x with
                        | VUndefined => ""
                        | VNull => ""
                        | _ => to_string x
                        end in
         match l with
         | [] => ""
         | [x] => entry x
         | x :: l' => (entry x ++ "," ++ join l')%string
         end) elems
  | VObj _ => "[object Object]"
  end.

(** [str && (str += "&")] followed by
    [str += encodeURIComponent(k) + "=" + encodeURIComponent(v)]. *)
Definition add_pair (str k : string) (v : value) : string :=
  ((if String.eqb str "" then "" else str ++ "&")
   ++ Uri.encodeURIComponent k ++ "=" ++ Uri.encodeURIComponent (to_string v))%string.

(** The inner loop of [encode] (lines 223-226). *)
Fixpoint encode_array (k : string) (tmp : list value) (str : string) : string :=
  match tmp with
  | [] => str
  | x :: tmp' => encode_array k tmp' (add_pair str k x)
  end.

(** The loop of [encode] over the keys of [obj] (lines 220-232). *)
Fixpoint encode_loop (obj : SearchObject) (str : string) : string :=
  match obj with
  | [] => str
  | (k, tmp) :: obj' =>
      match tmp with
      | VUndefined => encode_loop obj' str
      | VArr elems => encode_loop obj' (encode_array k elems str)
      | _ => encode_loop obj' (add_pair str k tmp)
      end
  end.

(** [encode(obj, pfx)] (lines 214-235). *)
Definition encode (obj : SearchObject) (pfx : option string) : string :=
  (match pfx with
   | Some p => p
   | None => ""
   end ++ encode_loop obj "")%string.

(** [toValue(mix)] (lines 237-244); [mix] is [None] for [undefined]. *)
Definition toValue (mix : option string) : result value :=
  match mix with
  | None => Ok (VStr "")
  | Some EmptyString => Ok (VStr "")
  | Some m =>
      match Uri.decodeURIComponent m with
      | Throw e => Throw e
      | Ok str =>
          if String.eqb str "false" then Ok (VBool false)
          else if String.eqb str "true" then Ok (VBool true)
          else if String.eqb (JsString.charAt0 str) "0" then Ok (VStr str)
          else match Number.of_string str with
               | Some n => Ok (VNum n)
               | None => Ok (VStr str)
               end
      end
  end.

Fixpoint lookup (k : string) (out : SearchObject) : option value :=
  match out with
  | [] => None
  | (k', v) :: out' => if String.eqb k k' then Some v else lookup k out'
  end.

(** [out[k] = v]: in place when the key is there, at the end otherwise. *)
Fixpoint assign (k : string) (v : value) (out : SearchObject) : SearchObject :=
  match out with
  | [] => [(k, v)]
  | (k', v') :: out' =>
      if String.eqb k k' then (k', v) :: out' else (k', v') :: assign k v out'
  end.

(** [[].concat(old, v)] for a [v] that is not an array. *)
Definition concat (old v : value) : value :=
  match old with
  | VArr elems => VArr (elems ++ [v])
  | _ => VArr [old; v]
  end.

(** [tmp.shift()] after [k = tmp.shift()]: the second piece, if any. *)
Definition second (pieces : list string) : option string :=
  match pieces with
  | _ :: v :: _ => Some v
  | _ => None
  end.

(** The loop of [decode] (lines 252-261): it ends at the first piece that is
    empty, and at the end of [arr]. *)
Fixpoint decode_loop (arr : list string) (out : SearchObject) : result SearchObject :=
  match arr with
  | [] => Ok out
  | EmptyString :: _ => Ok out
  | tmp :: arr' =>
      let pieces := JsString.split "=" tmp in
      let k := hd EmptyString pieces in
      match toValue (second pieces) with
      | Throw e => Throw e
      | Ok v =>
          match lookup k out with
          | Some old =>
              if match old with VUndefined => true | _ => false end
              then decode_loop arr' (assign k v out)
              else decode_loop arr' (assign k (concat old v) out)
          | None => decode_loop arr' (assign k v out)
          end
      end
  end.

(** [decode(str)] (lines 246-264).  [out[k]] is read on the own properties
    of [out]: a key that names a property of [Object.prototype] would read as
    defined before it is assigned, and what [decode] returns for such a key is
    outside the model (whether it throws is not). *)
Definition decode (str : string) : result SearchObject :=
  decode_loop (JsString.split "&" str) [].

(** The loop of [parseSearchWith] (lines 275-284): a string is replaced by
    what the parser makes of it, and kept when the parser throws. *)
Fixpoint parse_values (parser : string -> result value) (query : SearchObject)
  : SearchObject :=
  match query with
  | [] => []
  | (key, VStr s) :: query' =>
      match parser s with
      | Ok v => (key, v) :: parse_values parser query'
      | Throw _ => (key, VStr s) :: parse_values parser query'
      end
  | (key, v) :: query' => (key, v) :: parse_values parser query'
  end.

Definition strip_question_mark (searchStr : string) : string :=
  if String.eqb (JsString.substring searchStr 0 1) "?"
  then JsString.substring_from searchStr 1
  else searchStr.

(** [parseSearchWith(parser)] (lines 266-288). *)
Definition parseSearchWith (parser : string -> result value) (searchStr : string)
  : result SearchObject :=
  match decode (strip_question_mark searchStr) with
  | Throw e => Throw e
  | Ok query => Ok (parse_values parser query)
  end.

(** The loop of [stringifySearchWith] (lines 295-306): [undefined] entries
    are deleted, arrays and objects are replaced by what [stringify] makes of
    them, and kept when it throws. *)
Fixpoint stringify_values (stringify : value -> result string) (search : SearchObject)
  : SearchObject :=
  match search with
  | [] => []
  | (key, VUndefined) :: search' => stringify_values stringify search'
  | (key, (VArr _ | VObj _) as val) :: search' =>
      match stringify val with
      | Ok s => (key, VStr s) :: stringify_values stringify search'
      | Throw _ => (key, val) :: stringify_values stringify search'
      end
  | (key, val) :: search' => (key, val) :: stringify_values stringify search'
  end.

(** [stringifySearchWith(stringify)] (lines 290-313). *)
Definition stringifySearchWith (stringify : value -> result string)
    (search : SearchObject) : string :=
  let searchStr := encode (stringify_values stringify search) None in
  if String.eqb searchStr "" then "" else ("?" ++ searchStr)%string.

(** One pair [k=v] of the query string, and the pairs [encode] writes for a
    search object, in order. *)
Definition pair (k : string) (v : value) : string :=
  (Uri.encodeURIComponent k ++ "=" ++ Uri.encodeURIComponent (to_string v))%string.

Definition pairs_of (o : SearchObject) : list string :=
  flat_map (fun kv => match snd kv with
                      | VUndefined => []
                      | VArr elems => map (pair (fst kv)) elems
                      | v => [pair (fst kv) v]
                      end) o.

(** [str && (str += "&")] followed by [str += piece]. *)
Definition add_piece (str piece : string) : string :=
  ((if String.eqb str "" then "" else str ++ "&") ++ piece)%string.

(** The pieces [decode] works through: those before the first empty one. *)
Fixpoint pieces_read (arr : list string) : list string :=
  match arr with
  | [] => []
  | EmptyString :: _ => []
  | tmp :: arr' => tmp :: pieces_read arr'
  end.

(** Whether [decodeURIComponent] accepts the argument of [toValue], when
    it is called on it. *)
Definition value_escaped (mix : option string) : bool :=
  match mix with
  | None => true
  | Some EmptyString => true
  | Some m => is_ok (Uri.decodeURIComponent m)
  end.

(** Whether the value of every piece that [decode] reads is a well-formed
    percent-encoding. *)
Definition well_escaped (str : string) : bool :=
  forallb (fun tmp => value_escaped (second (JsString.split "=" tmp)))
          (pieces_read (JsString.split "&" str)).

(** The heuristics of [toValue] on a decoded text, in the words of the
    query-string format: an empty text reads as [""]; the literals ["false"]
    and ["true"] as booleans; a text whose first character is ["0"] stays a
    string; any other text reads as a number when it is one, and stays a
    string when not. *)
Definition coerce (str : string) : value :=
  if String.eqb str "" then VStr ""
  else if String.eqb str "false" then VBool false
  else if String.eqb str "true" then VBool true
  else if String.eqb (JsString.charAt0 str) "0" then VStr str
  else match Number.of_string str with
       | Some n => VNum n
       | None => VStr str
       end.

(** What comes back for a value written under a key of its own: what the
    heuristics make of its text. *)
Definition read_back (v : value) : value := coerce (to_string v).

(** What comes back for an object: an [undefined] entry and an empty array
    leave nothing, an array of one entry leaves that entry, and a longer
    array an array. *)
Definition read_back_object (o : SearchObject) : SearchObject :=
  flat_map (fun kv => match snd kv with
                      | VUndefined => []
                      | VArr [] => []
                      | VArr [x] => [(fst kv, read_back x)]
                      | VArr xs => [(fst kv, VArr (map read_back xs))]
                      | v => [(fst kv, read_back v)]
                      end) o.

Fixpoint distinct (ks : list string) : bool :=
  match ks with
  | [] => true
  | k :: ks' => negb (existsb (String.eqb k) ks') && distinct ks'
  end.

(** The names every object inherits from [Object.prototype]. *)
Definition inherited_name (k : string) : bool :=
  existsb (String.eqb k)
    ["constructor"; "hasOwnProperty"; "isPrototypeOf"; "propertyIsEnumerable";
     "toLocaleString"; "toString"; "valueOf"; "__proto__";
     "__defineGetter__"; "__defineSetter__"; "__lookupGetter__";
     "__lookupSetter__"].

(** The keys that come back as they went in: made of unreserved characters,
    which [encodeURIComponent] leaves alone ([decode] does not decode keys),
    and not the name of an inherited property. *)
Definition stable_key (k : string) : bool :=
  JsString.all_chars Uri.unreserved k && negb (inherited_name k).

(** The scalars that come back from the query string as they went in:
    booleans; integers other than [0] within the safe range; and strings of
    well-formed text in any script, other than ["true"] and ["false"], that
    are empty or start with ["0"] or with a character that starts no number:
    one other than white space (within the 7-bit range or outside it), a
    sign, a dot and a digit. *)
Definition starts_no_number (s : string) : bool :=
  match s with
  | EmptyString => true
  | String c _ =>
      Ascii.eqb c "0"
      || negb (Number.is_space c || Ascii.eqb c "-" || Ascii.eqb c "+"
               || Ascii.eqb c "." || Number.is_digit c)
  end.

Definition stable_string (s : string) : bool :=
  Uri.well_formed s && negb (String.eqb s "true") && negb (String.eqb s "false")
  && starts_no_number s && negb (Number.starts_with_wide_space s).

Definition stable_scalar (v : value) : bool :=
  match v with
  | VBool _ => true
  | VNum n => negb (n =? 0)%Z && (Z.abs n <=? Number.max_safe_integer)%Z
  | VStr s => stable_string s
  | _ => false
  end.

(** The values that come back as they went in: such scalars, and arrays of
    two or more of them. *)
Definition stable_value (v : value) : bool :=
  match v with
  | VArr elems => (2 <=? List.length elems)%nat && forallb stable_scalar elems
  | _ => stable_scalar v
  end.

(** The search objects that come back from [decode(encode(o))] as they went
    in: distinct stable keys, and stable values. *)
Definition stable_object (o : SearchObject) : bool :=
  distinct (map fst o)
  && forallb (fun kv => stable_key (fst kv)) o
  && forallb (fun kv => stable_value (snd kv)) o.

(** Values whose text is well-formed, and the search objects whose keys are
    distinct and stable and whose values (entries, for an array) are of
    well-formed text. *)
Definition utf8_text (v : value) : bool := Uri.well_formed (to_string v).

Definition text_encodable (o : SearchObject) : bool :=
  distinct (map fst o)
  && forallb (fun kv => stable_key (fst kv)) o
  && forallb (fun kv => match snd kv with
                        | VArr xs => forallb utf8_text xs
                        | v => utf8_text v
                        end) o.

(** The texts that the integers of the model read as JavaScript reads them:
    the decimal text of an integer other than [0] within the safe range, and
    the texts that are empty or start with ["0"] or with a character that
    starts no number: one other than white space (within the 7-bit range
    or outside it: U+00A0, U+1680, U+2000 and the like, U+3000, U+FEFF), a
    sign, a dot and a digit. *)
Definition plain_integer (t : string) : bool :=
  match Number.of_string t with
  | Some n =>
      negb (n =? 0)%Z && (Z.abs n <=? Number.max_safe_integer)%Z
      && String.eqb (Number.to_string n) t
  | None => false
  end.

Definition reads_alike (t : string) : bool :=
  plain_integer t
  || starts_no_number t && negb (Number.starts_with_wide_space t).

(** Values of well-formed text that reads alike, and the search objects
    [encode] and [decode] are followed on in any script: distinct stable
    keys, and such values (entries, for an array). *)
Definition followed_text (v : value) : bool :=
  utf8_text v && reads_alike (to_string v).

Definition followed (o : SearchObject) : bool :=
  distinct (map fst o)
  && forallb (fun kv => stable_key (fst kv)) o
  && forallb (fun kv => match snd kv with
                        | VArr xs => forallb followed_text xs
                        | v => followed_text v
                        end) o.

(** The keys [decode] reads from a query string, and whether none of them is
    the name of an inherited property. *)
Definition keys_read (str : string) : list string :=
  map (fun tmp => hd EmptyString (JsString.split "=" tmp))
      (pieces_read (JsString.split "&" str)).

Definition own_keys (str : string) : bool :=
  forallb (fun k => negb (inherited_name k)) (keys_read str).

(** The values [decode] makes: booleans, numbers and strings, and arrays of
    two or more of them. *)
Definition scalar (v : value) : bool :=
  match v with
  | VBool _ | VNum _ | VStr _ => true
  | _ => false
  end.

Definition flat (v : value) : bool :=
  match v with
  | VArr elems => (2 <=? List.length elems)%nat && forallb scalar elems
  | _ => scalar v
  end.

(** Equality of values, entry by entry. *)
Fixpoint value_eqb (a b : value) {struct a} : bool :=
  match a, b with
  | VUndefined, VUndefined => true
  | VNull, VNull => true
  | VBool x, VBool y => Bool.eqb x y
  | VNum x, VNum y => Z.eqb x y
  | VStr x, VStr y => String.eqb x y
  | VArr xs, VArr ys =>
      (fix entries (xs ys : list value) {struct xs} : bool :=
         match xs, ys with
         | [], [] => true
         | x :: xs', y :: ys' => value_eqb x y && entries xs' ys'
         | _, _ => false
         end) xs ys
  | VObj xs, VObj ys =>
      (fix entries (xs ys : list (string * value)) {struct xs} : bool :=
         match xs, ys with
         | [], [] => true
         | (k, x) :: xs', (k', y) :: ys' =>
             String.eqb k k' && value_eqb x y && entries xs' ys'
         | _, _ => false
         end) xs ys
  | _, _ => false
  end.

(** The parser reads the text [s] as the value [v]. *)
Definition parses_to (parser : string -> result value) (s : string) (v : value)
  : bool :=
  match parser s with
  | Ok x => value_eqb x v
  | Throw _ => false
  end.

(** The parser leaves the string [s] alone: it throws on it, or returns it. *)
Definition parser_keeps (parser : string -> result value) (s : string) : bool :=
  match parser s with
  | Ok x => value_eqb x (VStr s)
  | Throw _ => true
  end.

(** The values that come back from [parseSearchWith(parser)] after
    [stringifySearchWith(stringify)]:
    - a boolean; an integer within the safe range, [0] when the parser reads
      ["0"] as [0]; [null] when the parser reads ["null"] as [null];
    - a stable string that the parser leaves alone;
    - an array or an object that [stringify] writes as a stable string which
      the parser reads as that array or object. *)
Definition entry_round_trips (parser : string -> result value)
    (stringify : value -> result string) (v : value) : bool :=
  match v with
  | VUndefined => false
  | VNull => parses_to parser "null" VNull
  | VBool _ => true
  | VNum n =>
      (Z.abs n <=? Number.max_safe_integer)%Z
      && (negb (n =? 0)%Z || parses_to parser "0" (VNum 0))
  | VStr s => stable_string s && parser_keeps parser s
  | VArr _ | VObj _ =>
      match stringify v with
      | Ok s => stable_string s && parses_to parser s v
      | Throw _ => false
      end
  end.

Definition round_trips (parser : string -> result value)
    (stringify : value -> result string) (o : SearchObject) : bool :=
  distinct (map fst o)
  && forallb (fun kv => stable_key (fst kv)
                        && entry_round_trips parser stringify (snd kv)) o.

(** Induction on values, with the hypothesis for every entry. *)
Section ValueInduction.

Variable P : value -> Prop.
Hypothesis Hundefined : P VUndefined.
Hypothesis Hnull : P VNull.
Hypothesis Hbool : forall b, P (VBool b).
Hypothesis Hnum : forall n, P (VNum n).
Hypothesis Hstr : forall s, P (VStr s).
Hypothesis Harr : forall xs, Forall P xs -> P (VArr xs).
Hypothesis Hobj : forall fs, Forall (fun kv => P (snd kv)) fs -> P (VObj fs).

Fixpoint value_induction (v : value) : P v :=
  match v with
  | VUndefined => Hundefined
  | VNull => Hnull
  | VBool b => Hbool b
  | VNum n => Hnum n
  | VStr s => Hstr s
  | VArr xs =>
      Harr xs
        ((fix all (l : list value) : Forall P l :=
            match l with
            | [] => Forall_nil P
            | x :: l' => Forall_cons x (value_induction x) (all l')
            end) xs)
  | VObj fs =>
      Hobj fs
        ((fix all (l : list (string * value)) : Forall (fun kv => P (snd kv)) l :=
            match l with
            | [] => Forall_nil _
            | x :: l' => Forall_cons x (value_induction (snd x)) (all l')
            end) fs)
  end.

End ValueInduction.

End Codec.

(** ** The structural merge (lines 343-370) *)

Module Merge.

Import Js.

(** What [Object.prototype.toString] and the [constructor] property say of an
    object that is not an array:
    - [Plain]: an object literal or [new Object()]; its constructor is
      [Object], whose prototype owns [isPrototypeOf];
    - [NoConstructor]: [Object.create(null)];
    - [Instance]: an instance of a class, whose prototype is an ordinary
      object without an own [isPrototypeOf];
    - [Exotic]: a [Date], [Map], ... whose tag is not ["[object Object]"]. *)
Inductive class :=
| Plain
| NoConstructor
| Instance (name : string)
| Exotic (tag : string).

(** Values.  An array or object carries its identity [id], which is what
    [===] compares; the merge never writes to an existing object, so an
    object is given with its contents.  The fields of an object are its own
    enumerable properties, in the order of [Object.keys]. *)
Inductive value :=
| VUndefined
| VNull
| VBool (b : bool)
| VNum (n : Z)
| VStr (s : string)
| VArray (id : nat) (elems : list value)
| VObject (id : nat) (cls : class) (fields : list (string * value)).

Fixpoint lookup (k : string) (fs : list (string * value)) : option value :=
  match fs with
  | [] => None
  | (k', v) :: fs' => if String.eqb k k' then Some v else lookup k fs'
  end.

(** [obj[k]] on the own properties; a property that is not there reads as
    [undefined].  The code's [e[u]] also finds the properties that [e]
    inherits from its prototype ([toString], [constructor], [__proto__] and
    the like, for a plain object): the two agree when [k] is an own property,
    and when [k] is an inherited method and what is merged with it is not
    [undefined], since then [d] returns [r] and [c[u] === e[u]] fails either
    way.  Otherwise only the outcome of [c[u] === e[u]] differs, and with
    it whether [e] or the new [c] is returned, never whether the merge
    returns.  The statements about [d] do not depend on that outcome, or stay
    within these cases: they ask that the key is an own property of
    [previous], as it is when [next] is structurally equal to [previous], or
    that [next] has no property whose value is [undefined], or they are about
    the tests before the loop. *)
Definition get (fs : list (string * value)) (k : string) : value :=
  match lookup k fs with
  | Some v => v
  | None => VUndefined
  end.

Definition has_key (k : string) (fs : list (string * value)) : bool :=
  match lookup k fs with
  | Some _ => true
  | None => false
  end.

(** [a === b]. *)
Definition same_ref (a b : value) : bool :=
  match a, b with
  | VUndefined, VUndefined => true
  | VNull, VNull => true
  | VBool x, VBool y => Bool.eqb x y
  | VNum x, VNum y => Z.eqb x y
  | VStr x, VStr y => String.eqb x y
  | VArray i _, VArray j _ => Nat.eqb i j
  | VObject i _ _, VObject j _ _ => Nat.eqb i j
  | _, _ => false
  end.

(** [Array.isArray(e)]. *)
Definition isArray (e : value) : bool :=
  match e with
  | VArray _ _ => true
  | _ => false
  end.

(** [T] (lines 368-370). *)
Definition T (e : value) : bool :=
  match e with
  | VObject _ (Exotic _) _ => false
  | VObject _ _ _ => true
  | _ => false
  end.

Definition fields_of (e : value) : list (string * value) :=
  match e with
  | VObject _ _ fs => fs
  | _ => []
  end.

(** [r.hasOwnProperty("isPrototypeOf")] for an [r] that passed [T].  The
    method is [Object.prototype]'s unless [r] has an own property of that
    name, which is then not a function, or [r] has no prototype: calling it
    throws in both cases. *)
Definition hasOwn_isPrototypeOf (r : value) : result bool :=
  match r with
  | VObject _ cls fs =>
      if has_key "hasOwnProperty" fs then Throw TypeError
      else match cls with
           | NoConstructor => Throw TypeError
           | _ => Ok (has_key "isPrototypeOf" fs)
           end
  | _ => Ok false
  end.

(** [R] (lines 361-367).  [e.constructor] is the own property when there is
    one, and the constructor of the class otherwise; reading [.prototype] of
    [null] throws. *)
Definition R (e : value) : result bool :=
  if negb (T e) then Ok false
  else
    match e with
    | VObject _ cls fs =>
        match lookup "constructor" fs with
        | Some VUndefined => Ok true
        | Some VNull => Throw TypeError
        | Some t =>
            let r := get (fields_of t) "prototype" in
            if negb (T r) then Ok false
            else match hasOwn_isPrototypeOf r with
                 | Throw err => Throw err
                 | Ok own => Ok (negb (negb own))
                 end
        | None =>
            match cls with
            | Plain => Ok true
            | NoConstructor => Ok true
            | Instance _ => Ok false
            | Exotic _ => Ok false
            end
        end
    | _ => Ok false
    end.

(** [R(e) && R(r)]: the second test is made only when the first holds. *)
Definition both_plain (e r : value) : result bool :=
  match R e with
  | Throw err => Throw err
  | Ok false => Ok false
  | Ok true => R r
  end.

Section Entries.

(** The recursive call [d(e[u], r[u])]; the number is the identity the next
    new container gets. *)
Variable rec : value -> value -> nat -> result (value * nat).

(** The loop of lines 353-356 over the indices of the array [r], from index
    [i]: the entries of [c], and the count [h]. *)
Fixpoint merge_indices (es ts : list value) (i n : nat)
  : result (list value * nat * nat) :=
  match ts with
  | [] => Ok ([], 0%nat, n)
  | tv :: ts' =>
      match rec (nth i es VUndefined) tv n with
      | Throw err => Throw err
      | Ok (cv, n1) =>
          match merge_indices es ts' (S i) n1 with
          | Throw err => Throw err
          | Ok (cs, h, n2) =>
              Ok (cv :: cs,
                  if same_ref cv (nth i es VUndefined) then S h else h,
                  n2)
          end
      end
  end.

(** The same loop over the keys of the object [r]: [c[u] = d(e[u], r[u])] as
    the write of an own property, and [c[u] === e[u]] as a read of it.  This
    is what the code does for every key but ["__proto__"], whose assignment
    sets the prototype of [c] and whose read returns that prototype; objects
    with an own property of that name (which [JSON.parse] can make) are
    outside the model, and [well_formed] below says so. *)
Fixpoint merge_keys (efs tfs : list (string * value)) (n : nat)
  : result (list (string * value) * nat * nat) :=
  match tfs with
  | [] => Ok ([], 0%nat, n)
  | (u, tv) :: tfs' =>
      match rec (get efs u) tv n with
      | Throw err => Throw err
      | Ok (cv, n1) =>
          match merge_keys efs tfs' n1 with
          | Throw err => Throw err
          | Ok (cs, h, n2) =>
              Ok ((u, cv) :: cs,
                  if same_ref cv (get efs u) then S h else h,
                  n2)
          end
      end
  end.

End Entries.

(** [d(e, t)] (lines 343-360).  [n] is the identity of the next container
    created; the result comes with the identity after the call. *)
Fixpoint d (e t : value) (n : nat) {struct t} : result (value * nat) :=
  if same_ref e t then Ok (e, n)
  else
    match t with
    | VArray _ ts =>
        match e with
        | VArray _ es =>
            match merge_indices (fun a b m => d a b m) es ts 0 (S n) with
            | Throw err => Throw err
            | Ok (c, h, n') =>
                if Nat.eqb (List.length es) (List.length ts)
                   && Nat.eqb h (List.length es)
                then Ok (e, n')
                else Ok (VArray n c, n')
            end
        | _ =>
            match both_plain e t with
            | Throw err => Throw err
            | Ok _ => Ok (t, n)
            end
        end
    | VObject _ _ tfs =>
        match both_plain e t with
        | Throw err => Throw err
        | Ok false => Ok (t, n)
        | Ok true =>
            let efs := fields_of e in
            match merge_keys (fun a b m => d a b m) efs tfs (S n) with
            | Throw err => Throw err
            | Ok (c, h, n') =>
                if Nat.eqb (List.length efs) (List.length tfs)
                   && Nat.eqb h (List.length efs)
                then Ok (e, n')
                else Ok (VObject n Plain c, n')
            end
        end
    | _ =>
        match both_plain e t with
        | Throw err => Throw err
        | Ok _ => Ok (t, n)
        end
    end.

Definition class_eqb (a b : class) : bool :=
  match a, b with
  | Plain, Plain => true
  | NoConstructor, NoConstructor => true
  | Instance x, Instance y => String.eqb x y
  | Exotic x, Exotic y => String.eqb x y
  | _, _ => false
  end.

(** Structural equality: the same scalar; arrays of the same length with
    structurally equal entries; objects of the same class with the same keys
    and structurally equal entries.  Identities are not compared. *)
Fixpoint deep_equal (e t : value) {struct t} : bool :=
  match t with
  | VUndefined => match e with VUndefined => true | _ => false end
  | VNull => match e with VNull => true | _ => false end
  | VBool y => match e with VBool x => Bool.eqb x y | _ => false end
  | VNum y => match e with VNum x => Z.eqb x y | _ => false end
  | VStr y => match e with VStr x => String.eqb x y | _ => false end
  | VArray _ ts =>
      match e with
      | VArray _ es =>
          (fix entries (es ts : list value) {struct ts} : bool :=
             match es, ts with
             | [], [] => true
             | ev :: es', tv :: ts' => deep_equal ev tv && entries es' ts'
             | _, _ => false
             end) es ts
      | _ => false
      end
  | VObject _ tcls tfs =>
      match e with
      | VObject _ ecls efs =>
          class_eqb ecls tcls
          && forallb (fun kv => match lookup (fst kv) efs with
                                | Some ev => deep_equal ev (snd kv)
                                | None => false
                                end) tfs
          && forallb (fun kv => has_key (fst kv) tfs) efs
      | _ => false
      end
  end.

Fixpoint distinct (ks : list string) : bool :=
  match ks with
  | [] => true
  | k :: ks' => negb (existsb (String.eqb k) ks') && distinct ks'
  end.

(** The objects the model stands for: at every depth, the keys of an object
    are distinct, and none is ["__proto__"], whose assignment is not a
    property write. *)
Fixpoint well_formed (v : value) : bool :=
  match v with
  | VArray _ es => forallb well_formed es
  | VObject _ _ fs =>
      distinct (map fst fs)
      && negb (existsb (String.eqb "__proto__") (map fst fs))
      && forallb (fun kv => well_formed (snd kv)) fs
  | _ => true
  end.

(** Plain data: scalars, arrays of plain data, and objects that pass [R]
    and hold plain data. *)
Fixpoint plain_data (v : value) : bool :=
  match v with
  | VArray _ es => forallb plain_data es
  | VObject _ _ fs =>
      match R v with
      | Ok true => forallb (fun kv => plain_data (snd kv)) fs
      | _ => false
      end
  | _ => true
  end.

(** Data as object literals, [JSON.parse] and [decode] make it: scalars,
    arrays of such data, and objects of class [Plain] without an own
    [constructor] property that hold such data. *)
Fixpoint literal (v : value) : bool :=
  match v with
  | VArray _ es => forallb literal es
  | VObject _ Plain fs =>
      negb (has_key "constructor" fs) && forallb (fun kv => literal (snd kv)) fs
  | VObject _ _ _ => false
  | _ => true
  end.

Definition is_undefined (v : value) : bool :=
  match v with
  | VUndefined => true
  | _ => false
  end.

(** No object in [v] has a property whose value is [undefined]. *)
Fixpoint defined_entries (v : value) : bool :=
  match v with
  | VArray _ es => forallb defined_entries es
  | VObject _ _ fs =>
      forallb (fun kv => negb (is_undefined (snd kv)) && defined_entries (snd kv)) fs
  | _ => true
  end.

(** The identities of the containers in [v] are all below [m], and all
    from [m] on. *)
Fixpoint ids_below (m : nat) (v : value) : bool :=
  match v with
  | VArray id es => (id <? m)%nat && forallb (ids_below m) es
  | VObject id _ fs =>
      (id <? m)%nat && forallb (fun kv => ids_below m (snd kv)) fs
  | _ => true
  end.

Fixpoint ids_from (m : nat) (v : value) : bool :=
  match v with
  | VArray id es => (m <=? id)%nat && forallb (ids_from m) es
  | VObject id _ fs =>
      (m <=? id)%nat && forallb (fun kv => ids_from m (snd kv)) fs
  | _ => true
  end.

(** The entries of two arrays are structurally equal, one by one: what
    [deep_equal] asks of two arrays. *)
Definition entries_equal (es ts : list value) : bool :=
  (fix entries (es ts : list value) {struct ts} : bool :=
     match es, ts with
     | [], [] => true
     | ev :: es', tv :: ts' => deep_equal ev tv && entries es' ts'
     | _, _ => false
     end) es ts.

(** The statement that the merge yields the content of [next], for one
    [next]: on literal data, with a [next] built after [previous] and without
    [undefined] properties, the merge returns a value structurally equal to
    [next], and that value is [previous] itself whenever [===] says so. *)
Definition merge_yields_next (t : value) : Prop :=
  forall e m n,
    literal e = true -> literal t = true ->
    well_formed e = true -> well_formed t = true ->
    defined_entries t = true ->
    ids_below m e = true -> ids_from m t = true -> (m <= n)%nat ->
    exists res n',
      d e t n = Ok (res, n') /\ deep_equal res t = true /\ (n <= n')%nat /\
      (same_ref res e = true -> res = e).

(** The statement that the merge returns, for one [next]. *)
Definition merge_returns (t : value) : Prop :=
  forall e n, plain_data e = true -> plain_data t = true ->
    exists res n', d e t n = Ok (res, n').

(** The statement of identity preservation for one [next]. *)
Definition merge_returns_previous (t : value) : Prop :=
  forall e n,
    well_formed e = true -> well_formed t = true ->
    plain_data e = true -> plain_data t = true ->
    deep_equal e t = true ->
    exists n', d e t n = Ok (e, n').

(** Induction on values, with the hypothesis for every entry. *)
Section ValueInduction.

Variable P : value -> Prop.
Hypothesis Hundefined : P VUndefined.
Hypothesis Hnull : P VNull.
Hypothesis Hbool : forall b, P (VBool b).
Hypothesis Hnum : forall n, P (VNum n).
Hypothesis Hstr : forall s, P (VStr s).
Hypothesis Harray : forall id es, Forall P es -> P (VArray id es).
Hypothesis Hobject :
  forall id cls fs, Forall (fun kv => P (snd kv)) fs -> P (VObject id cls fs).

Fixpoint value_induction (v : value) : P v :=
  match v with
  | VUndefined => Hundefined
  | VNull => Hnull
  | VBool b => Hbool b
  | VNum n => Hnum n
  | VStr s => Hstr s
  | VArray id es =>
      Harray id es
        ((fix all (l : list value) : Forall P l :=
            match l with
            | [] => Forall_nil P
            | x :: l' => Forall_cons x (value_induction x) (all l')
            end) es)
  | VObject id cls fs =>
      Hobject id cls fs
        ((fix all (l : list (string * value)) : Forall (fun kv => P (snd kv)) l :=
            match l with
            | [] => Forall_nil _
            | x :: l' => Forall_cons x (value_induction (snd x)) (all l')
            end) fs)
  end.

End ValueInduction.

End Merge.

(** ** Path trimming (lines 371-379) and the base path (lines 424-425) *)

Module Path.

Definition is_slash (c : ascii) : bool := Ascii.eqb c "/".

(** [e.replace(/^\/{1,}/, "")]: [e] without the slashes it starts with. *)
Fixpoint strip_leading (e : string) : string :=
  match e with
  | EmptyString => EmptyString
  | String c e' => if is_slash c then strip_leading e' else e
  end.

(** [e.replace(/\/{1,}$/, "")]: [e] without the slashes it ends with.  The
    match is the leftmost run of slashes that reaches the end of [e]. *)
Fixpoint strip_trailing (e : string) : string :=
  match e with
  | EmptyString => EmptyString
  | String c e' =>
      match strip_trailing e' with
      | EmptyString => if is_slash c then EmptyString else String c EmptyString
      | r => String c r
      end
  end.

(** [N] (lines 371-373). *)
Definition N (e : string) : string :=
  if String.eqb e "/" then e else strip_leading e.

(** [B] (lines 374-376). *)
Definition B (e : string) : string :=
  if String.eqb e "/" then e else strip_trailing e.

(** [w] (lines 377-379). *)
Definition w (e : string) : string := B (N e).

(** The base path that [update] computes from [options.basepath], which is
    [None] when the option is [undefined] or [null] (lines 424-425). *)
Definition basepath (r : option string) : string :=
  ("/" ++ w (match r with
             | Some e => e
             | None => ""
             end))%string.

Definition starts_with_slash (e : string) : bool :=
  match e with
  | EmptyString => false
  | String c _ => is_slash c
  end.

Fixpoint ends_with_slash (e : string) : bool :=
  match e with
  | EmptyString => false
  | String c EmptyString => is_slash c
  | String _ e' => ends_with_slash e'
  end.

End Path.

(** ** The router's [load] (lines 315-334, 427-436, 481-486) *)

Module Router.

Section WithSearch.

Variable TSearchObj : Type.

Record ParsedLocation := {
  href : string;
  pathname : string;
  search : TSearchObj;
  searchStr : string;
  state : TSearchObj;
  key : option string
}.

(** The store holds objects [{ latestLocation, currentLocation }]; [oid] is
    the identity of the object, which is what [===] compares.  A location is
    [None] for the [null] of [getInitialRouterState]. *)
Record RouterStore := {
  oid : nat;
  latestLocation : option ParsedLocation;
  currentLocation : option ParsedLocation
}.

Definition same_object (a b : RouterStore) : bool := Nat.eqb (oid a) (oid b).

(** [getInitialRouterState()] (lines 481-486), as the object of identity
    [id]. *)
Definition getInitialRouterState (id : nat) : RouterStore :=
  {| oid := id; latestLocation := None; currentLocation := None |}.

(** The options the constructor gives its store (lines 396-400): no
    [updateFn], and the hook [onUpdate: (n) => { this.state = n }]. *)
Definition store_options : Store.StoreOptions RouterStore :=
  {| Store.updateFn := None; Store.onUpdate := true |}.

(** The router: its store, its field [state] (which the hook assigns), and
    the identity the next object literal gets. *)
Record t := {
  __store : Store.t RouterStore;
  this_state : RouterStore;
  next_oid : nat
}.

(** The effect of the hook on [this.state] over a trace of the store. *)
Definition run_onUpdate (tr : list (Store.event RouterStore)) (s : RouterStore)
  : RouterStore :=
  fold_left (fun s e => match e with
                        | Store.OnUpdate next _ => next
                        | Store.Notify _ _ _ => s
                        end) tr s.

(** [load] (lines 427-436): [batch(() => { t?.next && setState(...) })],
    and after it, outside the batch, the second [setState].  [next] is
    [t?.next]. *)
Definition load (next : option ParsedLocation) (r : t)
  : t * list (Store.event RouterStore) :=
  let '(first, oid2) :=
    match next with
    | Some loc =>
        (Store.setState same_object
           (fun n => {| oid := next_oid r;
                        latestLocation := Some loc;
                        currentLocation := currentLocation n |}),
         S (next_oid r))
    | None => (Store.ret tt, next_oid r)
    end in
  let '(_, st1, tr1) := Store.batch first (__store r) in
  let this_state1 := run_onUpdate tr1 (this_state r) in
  let '(_, st2, tr2) :=
    Store.setState same_object
      (fun n => {| oid := oid2;
                   latestLocation := latestLocation n;
                   currentLocation := latestLocation this_state1 |}) st1 in
  ({| __store := st2;
      this_state := run_onUpdate tr2 this_state1;
      next_oid := S oid2 |},
   tr1 ++ tr2).

(** The calls [load({ next: n1 }); load({ next: n2 }); ...] that the
    history listener makes, one for every notification of the history. *)
Fixpoint loads (nexts : list (option ParsedLocation)) (r : t)
  : t * list (Store.event RouterStore) :=
  match nexts with
  | [] => (r, [])
  | next :: nexts' =>
      let '(r1, tr1) := load next r in
      let '(r2, tr2) := loads nexts' r1 in
      (r2, tr1 ++ tr2)
  end.

(** The location that the calls leave in [latestLocation]: the last [next]
    given, and what was there when none was. *)
Definition latest_after (nexts : list (option ParsedLocation))
    (latest : option ParsedLocation) : option ParsedLocation :=
  fold_left (fun acc next => match next with
                             | Some loc => Some loc
                             | None => acc
                             end) nexts latest.

(** How many of the calls were given a [next]. *)
Definition with_next (nexts : list (option ParsedLocation)) : nat :=
  List.length (filter (fun next => match next with
                                   | Some _ => true
                                   | None => false
                                   end) nexts).

(** A router between two calls: the store is the constructor's, idle, the
    field [state] is the store's state, and the identities in use are below
    [next_oid]. *)
Definition settled (r : t) : Prop :=
  Store.options (__store r) = Some store_options /\
  Store.batching (__store r) = false /\
  Store.queue (__store r) = [] /\
  this_state r = Store.state (__store r) /\
  (oid (Store.state (__store r)) < next_oid r)%nat.

End WithSearch.

Arguments href {TSearchObj} _.
Arguments pathname {TSearchObj} _.
Arguments search {TSearchObj} _.
Arguments searchStr {TSearchObj} _.
Arguments state {TSearchObj} _.
Arguments key {TSearchObj} _.
Arguments oid {TSearchObj} _.
Arguments latestLocation {TSearchObj} _.
Arguments currentLocation {TSearchObj} _.
Arguments __store {TSearchObj} _.
Arguments this_state {TSearchObj} _.
Arguments next_oid {TSearchObj} _.
Arguments load {TSearchObj} next r.
Arguments loads {TSearchObj} nexts r.
Arguments latest_after {TSearchObj} nexts latest.
Arguments with_next {TSearchObj} nexts.
Arguments settled {TSearchObj} r.
Arguments store_options {TSearchObj}.

End Router.

(** ** Concrete stores, histories and hosts used in examples *)

Module Examples.

(** A store of numbers with one listener, numbered [1]. *)
Definition counter_store : Store.t nat :=
  Store.subscribe 1 (Store.create 0 None).


(** The locations of [/items?page=1] and [/items?page=2]; the search object
    is the page number. *)
Definition page (n : nat) (str : string) : Router.ParsedLocation nat :=
  {| Router.href := "/items" ++ str; Router.pathname := "/items";
     Router.search := n; Router.searchStr := str; Router.state := 0;
     Router.key := None |}.

Definition page1 := page 1 "?page=1".
Definition page2 := page 2 "?page=2".

(** A router showing page 1, with one listener on its store. *)
Definition router_on_page1 : Router.t nat :=
  let s0 := {| Router.oid := 0;
               Router.latestLocation := Some page1;
               Router.currentLocation := Some page1 |} in
  {| Router.__store := Store.subscribe 1 (Store.create s0 (Some Router.store_options));
     Router.this_state := s0;
     Router.next_oid := 1 |}.

(** The same router with a second listener on its store. *)
Definition router_with_two_listeners : Router.t nat :=
  {| Router.__store := Store.subscribe 2 (Router.__store router_on_page1);
     Router.this_state := Router.this_state router_on_page1;
     Router.next_oid := Router.next_oid router_on_page1 |}.

(** An in-memory host: the entries of the session history, each a path with
    its state, and the index of the current one.  Like the browser's
    [pushState] and [replaceState], it refuses a URL of another origin (here:
    a path starting with two slashes) with a [SecurityError]. *)
Record memory := {
  entries : list (string * nat);
  index : nat
}.

Definition other_origin (path : string) : bool :=
  String.eqb (JsString.take 2 path) "//".

Definition memory_current (m : memory) : string * nat :=
  nth (index m) (entries m) ("/", 0).

Definition memory_push (path : string) (state : nat) : History.HostCall memory :=
  fun m =>
    if other_origin path then (m, Some (Js.Thrown "SecurityError"))
    else ({| entries := firstn (S (index m)) (entries m) ++ [(path, state)];
             index := S (index m) |}, None).

Definition memory_replace (path : string) (state : nat) : History.HostCall memory :=
  fun m =>
    if other_origin path then (m, Some (Js.Thrown "SecurityError"))
    else ({| entries := firstn (index m) (entries m) ++ [(path, state)]
                          ++ skipn (S (index m)) (entries m);
             index := index m |}, None).

Definition memory_go (n : Z) : History.HostCall memory :=
  fun m =>
    let target := (Z.of_nat (index m) + n)%Z in
    if ((0 <=? target) && (target <? Z.of_nat (List.length (entries m))))%Z
    then ({| entries := entries m; index := Z.to_nat target |}, None)
    else (m, None).

Definition memory_opts : History.Opts nat memory :=
  {| History.getLocation := fun m =>
       Location.parseLocation (fst (memory_current m)) (snd (memory_current m));
     History.listener := fun m => (m, fun m' => m');
     History.pushState := memory_push;
     History.replaceState := memory_replace;
     History.go := memory_go;
     History.back := memory_go (-1);
     History.forward := memory_go 1;
     History.createHref := fun path => path |}.

(** A history over that host, opened on [/items], with one listener. *)
Definition history_on_items : History.t nat memory :=
  History.listen memory_opts 1
    (History.createHistory memory_opts {| entries := [("/items", 0)]; index := 0 |}).

(** A host that is the number of [popstate] listeners attached to it. *)
Definition counting_opts : History.Opts nat nat :=
  {| History.getLocation := fun _ => Location.parseLocation "/items?page=1" 0;
     History.listener := fun n => (S n, Nat.pred);
     History.pushState := fun _ _ n => (n, None);
     History.replaceState := fun _ _ n => (n, None);
     History.go := fun _ n => (n, None);
     History.back := fun n => (n, None);
     History.forward := fun n => (n, None);
     History.createHref := fun path => path |}.

(** The object literals [{ a: 1, b: 2 }] and [{ a: 1, b: 3 }]. *)
Definition a1_b (id : nat) (b : Z) : Merge.value :=
  Merge.VObject id Merge.Plain [("a", Merge.VNum 1); ("b", Merge.VNum b)].

(** Two instances of a class [Point], built alike. *)
Definition point (id : nat) : Merge.value :=
  Merge.VObject id (Merge.Instance "Point")
    [("x", Merge.VNum 1); ("y", Merge.VNum 2)].

(** Two object literals [{ constructor: "x" }]. *)
Definition with_constructor_key (id : nat) : Merge.value :=
  Merge.VObject id Merge.Plain [("constructor", Merge.VStr "x")].

(** The search object [{ page: 1, tags: ["a", "b"], filter: { open: true } }],
    built with the identities [id], [id + 1] and [id + 2]. *)
Definition search_object (id : nat) : Merge.value :=
  Merge.VObject id Merge.Plain
    [("page", Merge.VNum 1);
     ("tags", Merge.VArray (id + 1) [Merge.VStr "a"; Merge.VStr "b"]);
     ("filter", Merge.VObject (id + 2) Merge.Plain [("open", Merge.VBool true)])].

(** The same search object on another page. *)
Definition search_object_on_page (id : nat) (page : Z) : Merge.value :=
  Merge.VObject id Merge.Plain
    [("page", Merge.VNum page);
     ("tags", Merge.VArray (id + 1) [Merge.VStr "a"; Merge.VStr "b"]);
     ("filter", Merge.VObject (id + 2) Merge.Plain [("open", Merge.VBool true)])].

(** A parser for the literals [true], [false], [null] and the integers,
    which throws on anything else: what [JSON.parse] does on such input. *)
Definition parse_literal (s : string) : Js.result Codec.value :=
  if String.eqb s "true" then Js.Ok (Codec.VBool true)
  else if String.eqb s "false" then Js.Ok (Codec.VBool false)
  else if String.eqb s "null" then Js.Ok Codec.VNull
  else match Number.digits s with
       | Some n => Js.Ok (Codec.VNum n)
       | None => Js.syntax_error
       end.

(** A [stringify] that writes a value as [String] does. *)
Definition stringify_plainly (v : Codec.value) : Js.result string :=
  Js.Ok (Codec.to_string v).


(** The double quote, and the JSON text of [{ open: true }]. *)
Definition quote : string := String (ascii_of_nat 34) "".

Definition json_open_true : string :=
  ("{" ++ quote ++ "open" ++ quote ++ ":true}")%string.

(** [JSON.stringify] and [JSON.parse] on the few values the examples use:
    the array [[1, 2]], the object [{ open: true }], and the literals. *)
Definition stringify_some (v : Codec.value) : Js.result string :=
  if Codec.value_eqb v (Codec.VArr [Codec.VNum 1; Codec.VNum 2])
  then Js.Ok "[1,2]"
  else if Codec.value_eqb v (Codec.VObj [("open", Codec.VBool true)])
  then Js.Ok json_open_true
  else Js.Throw Js.TypeError.

Definition parse_some (s : string) : Js.result Codec.value :=
  if String.eqb s "[1,2]" then Js.Ok (Codec.VArr [Codec.VNum 1; Codec.VNum 2])
  else if String.eqb s json_open_true
  then Js.Ok (Codec.VObj [("open", Codec.VBool true)])
  else parse_literal s.


(** The text [caf] followed by U+00E9 (an e with an acute accent), as the
    two bytes of its UTF-8 encoding, and a search object with that text for
    [q], the string ["12"] for [page] and an array of one entry for [tags]. *)
Definition cafe : string :=
  ("caf" ++ String (ascii_of_nat 195) (String (ascii_of_nat 169) ""))%string.

Definition cafe_search : Codec.SearchObject :=
  [("q", Codec.VStr cafe); ("page", Codec.VStr "12");
   ("tags", Codec.VArr [Codec.VStr "a"])].



(** The search object [{ q: ..., ids: [1, 2], filter: { open: true } }] with
    that text for [q]. *)
Definition accented_search_params : Codec.SearchObject :=
  [("q", Codec.VStr cafe);
   ("ids", Codec.VArr [Codec.VNum 1; Codec.VNum 2]);
   ("filter", Codec.VObj [("open", Codec.VBool true)])].

End Examples.

(** * Properties *)

(** A fact about every character, by running through the 256 of them. *)
Ltac each_char c :=
  destruct c as [[] [] [] [] [] [] [] []]; vm_compute; try reflexivity;
  try discriminate; auto.

(** ** Locations *)

Section LocationFacts.

Import JsString Location.

Lemma indexOf_from_absent (c : ascii) (s : string) (from : Z) :
  occurs c s = false -> indexOf_from c s from = (-1)%Z.
Proof.
  revert from; induction s as [|a s IH]; intros from H; simpl in *.
  - reflexivity.
  - apply orb_false_iff in H as [Ha Hs].
    rewrite Ha. now apply IH.
Qed.

Lemma indexOf_from_present (c : ascii) (s : string) (from : Z) :
  (0 <= from)%Z -> occurs c s = true -> (indexOf_from c s from > -1)%Z.
Proof.
  revert from; induction s as [|a s IH]; intros from Hf H; simpl in *.
  - discriminate.
  - destruct (Ascii.eqb a c); [lia|].
    simpl in H. apply IH; [lia | exact H].
Qed.

(** [indexOf] answers [-1] when, and only when, the character is not in the
    string. *)
Lemma indexOf_absent_iff (c : ascii) (s : string) :
  indexOf c s = (-1)%Z <-> occurs c s = false.
Proof.
  split.
  - intros H. destruct (occurs c s) eqn:E; [|reflexivity].
    pose proof (indexOf_from_present c s 0 (Z.le_refl 0) E). unfold indexOf in H. lia.
  - apply indexOf_from_absent.
Qed.

Lemma substring_0_neg (s : string) (i : Z) :
  (i <= 0)%Z -> substring s 0 i = "".
Proof.
  intros Hi. unfold substring, clamp.
  replace (Z.to_nat i) with 0%nat by lia.
  simpl. reflexivity.
Qed.

(** C10.  For an [href] without ["?"], [parseLocation] returns a location
    whose [pathname] and [search] are both the empty string, whose [href] is
    the input and whose [state] is the given state: the path itself is only
    in [href]. *)
Theorem parseLocation_without_query (HState : Type) (href : string) (st : HState) :
  occurs "?" href = false ->
  parseLocation href st =
    {| Location.href := href; pathname := ""; search := ""; state := st |}.
Proof.
  intros H. unfold parseLocation, indexOf.
  rewrite (indexOf_from_absent _ _ _ H).
  rewrite substring_0_neg by lia.
  reflexivity.
Qed.

Lemma parseLocation_without_query_witness :
  occurs "?" "/items/42" = false /\
  parseLocation "/items/42" tt =
    {| Location.href := "/items/42"; pathname := ""; search := ""; state := tt |}.
Proof.
  split; [reflexivity | apply (parseLocation_without_query unit "/items/42" tt); reflexivity].
Defined.

(** With a ["?"], the path is what stands before it: the empty [pathname] is
    particular to hrefs without a query. *)
Example parseLocation_with_query :
  parseLocation "/items?page=1" tt =
    {| Location.href := "/items?page=1"; pathname := "/items";
       search := "?page=1"; state := tt |}.
Proof. reflexivity. Qed.

Lemma indexOf_from_append (c : ascii) (p q : string) :
  occurs c p = false ->
  forall from : Z,
    indexOf_from c (p ++ String c q) from = (from + Z.of_nat (String.length p))%Z.
Proof.
  induction p as [|a p IH]; cbn [occurs append indexOf_from String.length]; intros H from.
  - rewrite Ascii.eqb_refl. lia.
  - apply orb_false_iff in H as [Ha Hp]. rewrite Ha, (IH Hp). lia.
Qed.

Lemma take_length_append (p r : string) : take (String.length p) (p ++ r) = p.
Proof. induction p as [|a p IH]; cbn; [now destruct r | now rewrite IH]. Qed.

Lemma drop_length_append (p r : string) : drop (String.length p) (p ++ r) = r.
Proof. induction p as [|a p IH]; cbn; [now destruct r | exact IH]. Qed.

Lemma clamp_length_append (p r : string) :
  clamp (p ++ r) (Z.of_nat (String.length p)) = String.length p.
Proof.
  unfold clamp. rewrite Nat2Z.id. apply Nat.min_l.
  induction p as [|a p IH]; cbn; lia.
Qed.

(** X1.  An [href] with a ["?"] is cut at the first one: [pathname] is what
    stands before it, [search] is the rest, the ["?"] included, so that
    [pathname] followed by [search] is the [href] again. *)
Theorem parseLocation_splits_at_first_question_mark
    (HState : Type) (p q : string) (st : HState) :
  occurs "?" p = false ->
  parseLocation (p ++ String "?" q) st =
    {| Location.href := p ++ String "?" q; pathname := p;
       search := String "?" q; state := st |}.
Proof.
  intros H. unfold parseLocation, indexOf.
  rewrite (indexOf_from_append _ _ _ H). cbn [Z.add].
  replace (Z.of_nat (String.length p) >? -1)%Z with true by (symmetry; apply Z.gtb_lt; lia).
  unfold substring, substring_from. rewrite clamp_length_append.
  unfold clamp. cbn [Z.to_nat Nat.min]. rewrite Nat.max_0_l, Nat.sub_0_r.
  cbn [drop]. now rewrite take_length_append, drop_length_append.
Qed.

End LocationFacts.

Lemma parseLocation_splits_at_first_question_mark_witness :
  JsString.occurs "?" "/items" = false /\
  Location.parseLocation "/items?q=a?b" tt =
    {| Location.href := "/items?q=a?b"; Location.pathname := "/items";
       Location.search := "?q=a?b"; Location.state := tt |}.
Proof.
  split; [reflexivity|].
  apply (parseLocation_splits_at_first_question_mark unit "/items" "q=a?b" tt).
  reflexivity.
Defined.

(** ** The reactive store *)

Section StoreFacts.

Import Store.

Variable TState : Type.
Variable same : TState -> TState -> bool.

Lemma final_state_cons (st : t TState) u us :
  final_state st (u :: us) = final_state (with_state (candidate st u) st) us.
Proof.
  unfold final_state. simpl.
  replace (with_state (state st) st) with st by now destruct st.
  reflexivity.
Qed.

(** What one [setState] does while [batching] is set: nothing is delivered,
    and at most one callback joins the queue. *)
Lemma setState_batching (u : TUpdater TState) (st : t TState) :
  batching st = true ->
  exists st1 tr1 q,
    setState same u st = (tt, st1, tr1) /\
    st1 = with_queue (queue st ++ q) (with_state (candidate st u) st) /\
    (List.length q <= 1)%nat /\
    forallb (fun e => negb (is_notify e)) tr1 = true.
Proof.
  intros Hb. unfold setState. cbn [state with_state].
  destruct (same (candidate st u) (state st)) eqn:Es.
  - exists (with_state (candidate st u) st), [], [].
    repeat split; auto. rewrite app_nil_r. now destruct st.
  - unfold flush. cbn. rewrite Hb.
    eexists _, _, [state st]. repeat split; auto.
    rewrite app_nil_r. destruct (has_onUpdate _); reflexivity.
Qed.

Lemma setStates_batching (us : list (TUpdater TState)) : forall st : t TState,
  batching st = true ->
  exists st1 tr1 q,
    setStates same us st = (tt, st1, tr1) /\
    st1 = with_queue (queue st ++ q) (with_state (final_state st us) st) /\
    (List.length q <= List.length us)%nat /\
    forallb (fun e => negb (is_notify e)) tr1 = true.
Proof.
  induction us as [|u us IH]; intros st Hb.
  - exists st, [], []. cbn. repeat split; auto.
    rewrite app_nil_r. now destruct st.
  - destruct (setState_batching u st Hb) as (st1 & tr1 & q1 & E1 & -> & L1 & N1).
    destruct (IH (with_queue (queue st ++ q1) (with_state (candidate st u) st)) Hb)
      as (st2 & tr2 & q2 & E2 & -> & L2 & N2).
    exists (with_queue (queue st ++ q1 ++ q2) (with_state (final_state st (u :: us)) st)),
      (tr1 ++ tr2), (q1 ++ q2).
    repeat split.
    + simpl setStates. unfold seq, bind. rewrite E1, E2.
      rewrite final_state_cons. unfold final_state, candidate. cbn.
      rewrite <- app_assoc. reflexivity.
    + rewrite length_app. cbn [List.length]. lia.
    + rewrite forallb_app, N1, N2. reflexivity.
Qed.



(** When a [batch] returns, the flag is off and the queue is empty, whatever
    the flag was when it was called. *)
Lemma batch_leaves_idle (cb : M TState unit) (st : t TState) :
  batching (snd (fst (batch cb st))) = false /\
  queue (snd (fst (batch cb st))) = [].
Proof.
  unfold batch. destruct (cb (with_batching true st)) as [[[] st1] tr1].
  unfold flush. cbn. auto.
Qed.

(** C6.  When the updater's result is the current state itself, [setState]
    does nothing an observer can see: no event at all (no listener is
    invoked, [onUpdate] does not run), and the queue, the flag and the
    listeners are as before. *)
Theorem setState_same_reference_noop (u : TUpdater TState) (st : t TState) :
  same (candidate st u) (state st) = true ->
  setState same u st = (tt, with_state (candidate st u) st, []) /\
  queue (with_state (candidate st u) st) = queue st /\
  batching (with_state (candidate st u) st) = batching st /\
  listeners (with_state (candidate st u) st) = listeners st.
Proof.
  intros H. unfold setState. cbn [state with_state].
  rewrite H. auto.
Qed.

(** C7.  [N] calls of [setState] inside one [batch]: while the callback runs
    at most [N] callbacks join the queue and no listener is invoked; every
    listener invocation comes after it, and its [next] is the state the whole
    batch computed. *)
Theorem batch_setStates_atomic (us : list (TUpdater TState)) (st : t TState) :
  let '(_, st1, tr1) := setStates same us (with_batching true st) in
  let '(_, st2, tr) := batch (setStates same us) st in
  (List.length (queue st1) <= List.length (queue st) + List.length us)%nat /\
  forallb (fun e => negb (is_notify e)) tr1 = true /\
  tr = tr1 ++ flat_map (fun prev => map (fun l => Notify l (final_state st us) prev)
                                      (listeners st)) (queue st1) /\
  state st2 = final_state st us /\
  queue st2 = [] /\ batching st2 = false.
Proof.
  destruct (setStates_batching us (with_batching true st) eq_refl)
    as (st1 & tr1 & q & E & Hst1 & Hlen & Hno).
  unfold batch. rewrite E. subst st1. cbn.
  repeat split; auto.
  rewrite length_app. lia.
Qed.


(** Outside a batch and with an empty queue, [setState] delivers a change
    before it returns. *)
Lemma setState_outside_batch (u : TUpdater TState) (st : t TState) :
  batching st = false -> queue st = [] ->
  setState same u st =
    (tt, with_state (candidate st u) st,
     if same (candidate st u) (state st) then []
     else delivery st (candidate st u) (state st)).
Proof.
  intros Hb Hq. unfold setState, delivery. cbn [state with_state].
  destruct (same (candidate st u) (state st)); [reflexivity|].
  unfold flush, run_callback, has_onUpdate, with_queue, with_state.
  cbn. rewrite Hb, Hq. cbn. now rewrite app_nil_r.
Qed.

(** X2.  Outside a batch, every call of [setState] that changes the state is
    delivered before the next call starts: the hook runs, then each listener
    is invoked once, in the order of the set, with the state that call made
    and the state before it.  Listeners thus see every intermediate state,
    the store ends in the state the updaters lead to, and nothing stays
    queued. *)
Theorem setStates_outside_batch_deliver_each_change
    (us : list (TUpdater TState)) : forall st : t TState,
  batching st = false -> queue st = [] ->
  setStates same us st =
    (tt, with_state (final_state st us) st, deliveries same st us).
Proof.
  induction us as [|u us IH]; intros st Hb Hq.
  - cbn. now destruct st.
  - simpl setStates. unfold seq, bind.
    rewrite (setState_outside_batch u st Hb Hq).
    rewrite (IH (with_state (candidate st u) st) Hb Hq).
    rewrite final_state_cons. reflexivity.
Qed.

End StoreFacts.

Lemma setState_same_reference_noop_witness :
  Nat.eqb (Store.candidate Examples.counter_store (fun n => n))
          (Store.state Examples.counter_store) = true /\
  Store.setState Nat.eqb (fun n => n) Examples.counter_store =
    (tt, Examples.counter_store, []).
Proof.
  split; [reflexivity|].
  apply (setState_same_reference_noop nat Nat.eqb (fun n => n) Examples.counter_store).
  reflexivity.
Defined.

(** Two changes in one batch on the counter store: both notifications come
    at the end, and both carry the final state [2]. *)
Example batch_of_two_changes :
  Store.batch (Store.setStates Nat.eqb [S; S]) Examples.counter_store =
    (tt,
     Store.with_state 2 Examples.counter_store,
     [Store.Notify 1 2 0; Store.Notify 1 2 1]).
Proof. reflexivity. Qed.


Lemma setStates_outside_batch_deliver_each_change_witness :
  Store.batching Examples.counter_store = false /\
  Store.queue Examples.counter_store = [] /\
  Store.setStates Nat.eqb [S; (fun n => n); S] Examples.counter_store =
    (tt, Store.with_state 2 Examples.counter_store,
     [Store.Notify 1 1 0; Store.Notify 1 2 1]).
Proof.
  split; [reflexivity|]. split; [reflexivity|].
  exact (setStates_outside_batch_deliver_each_change nat Nat.eqb
           [S; (fun n => n); S] Examples.counter_store eq_refl eq_refl).
Defined.

(** ** The router's [load] *)

Section RouterFacts.

Import Router.

Variable TSearchObj : Type.

Lemma fresh_object_differs (a b : nat) : (b < a)%nat -> Nat.eqb a b = false.
Proof. intros H. apply Nat.eqb_neq. lia. Qed.

(** Invoking listeners does not run the hook. *)
Lemma run_onUpdate_notifications (ls : list Store.listener)
    (a p s : RouterStore TSearchObj) :
  fold_left (fun s e => match e with
                        | Store.OnUpdate next _ => next
                        | Store.Notify _ _ _ => s
                        end)
    (map (fun l => Store.Notify l a p) ls) s = s.
Proof. revert s; induction ls as [|x ls IH]; intros; cbn; auto. Qed.

(** C1, as the code has it.  [load({ next })] on a settled router: only the
    update of [latestLocation] runs inside the batch.  The batch closes and
    delivers a first notification whose [next] still has the old
    [currentLocation]; then a second [setState], outside the batch, sets
    [currentLocation] to the new [latestLocation] and is delivered in turn.
    Afterwards both fields hold [next] and the router is settled again. *)
Theorem load_updates_in_two_notifications
    (r : Router.t TSearchObj) (loc : ParsedLocation TSearchObj) :
  settled r ->
  let s0 := Store.state (__store r) in
  let s1 := {| oid := next_oid r;
               latestLocation := Some loc;
               currentLocation := currentLocation s0 |} in
  let s2 := {| oid := S (next_oid r);
               latestLocation := Some loc;
               currentLocation := Some loc |} in
  let ls := Store.listeners (__store r) in
  exists r',
    load (Some loc) r =
      (r', [Store.OnUpdate s1 s0] ++ map (fun l => Store.Notify l s1 s0) ls ++
           [Store.OnUpdate s2 s1] ++ map (fun l => Store.Notify l s2 s1) ls) /\
    settled r' /\
    Store.state (__store r') = s2 /\
    Store.listeners (__store r') = ls.
Proof.
  intros (Hopt & Hb & Hq & Hthis & Hfresh).
  destruct r as [[ls s0 opts b q] this nxt]. cbn in *. subst opts b q this.
  unfold load, Store.batch, Store.setState, Store.flush, same_object.
  cbn -[Nat.eqb]. rewrite (fresh_object_differs _ _ Hfresh). cbn -[Nat.eqb].
  rewrite app_nil_r.
  rewrite (fresh_object_differs (S nxt) nxt) by lia. cbn.
  rewrite ?app_nil_r, !run_onUpdate_notifications. cbn.
  eexists. split; [|split; [|split]].
  - reflexivity.
  - unfold settled. cbn. repeat split; auto.
  - reflexivity.
  - reflexivity.
Qed.

(** Without [next], [load] is the second [setState] alone. *)
Lemma load_without_next (r : Router.t TSearchObj) :
  settled r ->
  let s0 := Store.state (__store r) in
  let s2 := {| oid := next_oid r;
               latestLocation := latestLocation s0;
               currentLocation := latestLocation s0 |} in
  let ls := Store.listeners (__store r) in
  exists r',
    load None r =
      (r', [Store.OnUpdate s2 s0] ++ map (fun l => Store.Notify l s2 s0) ls) /\
    settled r' /\
    Store.state (__store r') = s2.
Proof.
  intros (Hopt & Hb & Hq & Hthis & Hfresh).
  destruct r as [[ls s0 opts b q] this nxt]. cbn in *. subst opts b q this.
  unfold load, Store.batch, Store.setState, Store.flush, same_object.
  cbn -[Nat.eqb]. rewrite (fresh_object_differs _ _ Hfresh). cbn.
  rewrite ?app_nil_r, !run_onUpdate_notifications.
  eexists. split; [reflexivity|]. split; [|reflexivity].
  unfold settled. cbn. repeat split; auto.
Qed.

Lemma store_invocations_app (l : Store.listener)
    (tr1 tr2 : list (Store.event (RouterStore TSearchObj))) :
  Store.invocations l (tr1 ++ tr2)
  = (Store.invocations l tr1 + Store.invocations l tr2)%nat.
Proof. unfold Store.invocations. now rewrite filter_app, length_app. Qed.

(** In one round of notifications a listener is invoked as often as it
    stands in the list. *)
Lemma invocations_of_a_round (l : Store.listener) (ls : list Store.listener)
    (a p : RouterStore TSearchObj) :
  Store.invocations l (map (fun l' => Store.Notify l' a p) ls)
  = count_occ Nat.eq_dec ls l.
Proof.
  induction ls as [|x ls IH]; [reflexivity|].
  unfold Store.invocations in *. cbn [map filter count_occ].
  destruct (Nat.eq_dec x l) as [->|Hne].
  - rewrite Nat.eqb_refl. cbn [List.length]. now rewrite IH.
  - replace (Nat.eqb l x) with false
      by (symmetry; apply Nat.eqb_neq; congruence).
    exact IH.
Qed.

Lemma invocations_after_onUpdate (l : Store.listener)
    (a p : RouterStore TSearchObj)
    (tr : list (Store.event (RouterStore TSearchObj))) :
  Store.invocations l (Store.OnUpdate a p :: tr) = Store.invocations l tr.
Proof. reflexivity. Qed.

(** What every [load] leaves behind on a settled router. *)
Lemma load_settles (next : option (ParsedLocation TSearchObj))
    (r : Router.t TSearchObj) :
  settled r ->
  exists r' tr,
    load next r = (r', tr) /\
    settled r' /\
    latestLocation (Store.state (__store r')) =
      match next with
      | Some loc => Some loc
      | None => latestLocation (Store.state (__store r))
      end /\
    currentLocation (Store.state (__store r')) =
      latestLocation (Store.state (__store r')) /\
    Store.listeners (__store r') = Store.listeners (__store r) /\
    forall l,
      Store.invocations l tr =
        (match next with Some _ => 2 | None => 1 end
         * count_occ Nat.eq_dec (Store.listeners (__store r)) l)%nat.
Proof.
  intros (Hopt & Hb & Hq & Hthis & Hfresh).
  destruct r as [[ls s0 opts b q] this nxt]. cbn in *. subst opts b q this.
  destruct next as [loc|].
  - unfold load, Store.batch, Store.setState, Store.flush, same_object.
    cbn -[Nat.eqb]. rewrite (fresh_object_differs _ _ Hfresh). cbn -[Nat.eqb].
    rewrite app_nil_r.
    rewrite (fresh_object_differs (S nxt) nxt) by lia. cbn -[Store.invocations].
    rewrite ?app_nil_r, !run_onUpdate_notifications. cbn -[Store.invocations].
    eexists _, _. split; [reflexivity|]. cbn -[Store.invocations].
    split; [unfold settled; cbn; repeat split; auto|].
    repeat split.
    intros l. rewrite invocations_after_onUpdate, store_invocations_app.
    rewrite invocations_after_onUpdate, !invocations_of_a_round. lia.
  - unfold load, Store.batch, Store.setState, Store.flush, same_object.
    cbn -[Nat.eqb]. rewrite (fresh_object_differs _ _ Hfresh).
    cbn -[Store.invocations].
    rewrite ?app_nil_r, !run_onUpdate_notifications.
    eexists _, _. split; [reflexivity|]. cbn -[Store.invocations].
    split; [unfold settled; cbn; repeat split; auto|].
    repeat split.
    intros l. rewrite invocations_after_onUpdate, invocations_of_a_round. lia.
Qed.

(** What a sequence of calls leaves behind, with the invocations of a
    listener counted as often as it stands in the list. *)
Lemma loads_settle (nexts : list (option (ParsedLocation TSearchObj))) :
  forall r : Router.t TSearchObj,
    settled r -> nexts <> [] ->
    let '(r', tr) := loads nexts r in
    settled r' /\
    latestLocation (Store.state (__store r')) =
      latest_after nexts (latestLocation (Store.state (__store r))) /\
    currentLocation (Store.state (__store r')) =
      latestLocation (Store.state (__store r')) /\
    forall l,
      Store.invocations l tr =
        ((List.length nexts + with_next nexts)
         * count_occ Nat.eq_dec (Store.listeners (__store r)) l)%nat.
Proof.
  induction nexts as [|next nexts IH]; intros r Hs Hne; [congruence|].
  cbn [loads]. destruct (load_settles next r Hs)
    as (r1 & tr1 & -> & Hs1 & Hl1 & Hc1 & Hls1 & Hn1).
  destruct nexts as [|next' nexts'].
  - cbn [loads]. rewrite app_nil_r.
    split; [exact Hs1|]. split; [|split; [exact Hc1|]].
    + rewrite Hl1. now destruct next.
    + intros l. rewrite Hn1. unfold with_next. destruct next; cbn; lia.
  - specialize (IH r1 Hs1 ltac:(discriminate)).
    destruct (loads (next' :: nexts') r1) as [r2 tr2].
    destruct IH as (Hs2 & Hl2 & Hc2 & Hn2).
    split; [exact Hs2|]. split; [|split; [exact Hc2|]].
    + rewrite Hl2, Hl1. unfold latest_after. cbn [fold_left]. now destruct next.
    + intros l. rewrite store_invocations_app, Hn1, Hn2, Hls1.
      unfold with_next. destruct next; cbn [filter List.length]; lia.
Qed.

(** X17.  On a settled router whose store holds every listener once (the
    listeners are a set), after any number of calls of [load], one at least,
    with or without a [next], the router is settled again, [latestLocation]
    is the last [next] that was given (and as before when none was), and
    [currentLocation] is [latestLocation].  By then each listener of the
    store has been invoked once for every call, and once more for every call
    that came with a [next]; nothing else has been invoked as a listener. *)
Theorem loads_leave_currentLocation_at_latestLocation
    (nexts : list (option (ParsedLocation TSearchObj))) :
  forall r : Router.t TSearchObj,
    settled r -> NoDup (Store.listeners (__store r)) -> nexts <> [] ->
    let '(r', tr) := loads nexts r in
    settled r' /\
    latestLocation (Store.state (__store r')) =
      latest_after nexts (latestLocation (Store.state (__store r))) /\
    currentLocation (Store.state (__store r')) =
      latestLocation (Store.state (__store r')) /\
    (forall l, In l (Store.listeners (__store r)) ->
       Store.invocations l tr = (List.length nexts + with_next nexts)%nat) /\
    (forall l, ~ In l (Store.listeners (__store r)) ->
       Store.invocations l tr = 0%nat).
Proof.
  intros r Hs Hnd Hne. pose proof (loads_settle nexts r Hs Hne) as H.
  destruct (loads nexts r) as [r' tr].
  destruct H as (Hs' & Hl & Hc & Hn).
  split; [exact Hs'|]. split; [exact Hl|]. split; [exact Hc|]. split.
  - intros l Hin. rewrite Hn.
    rewrite (proj1 (NoDup_count_occ' Nat.eq_dec _) Hnd l Hin). lia.
  - intros l Hin. rewrite Hn.
    rewrite (proj1 (count_occ_not_In Nat.eq_dec _ l) Hin). lia.
Qed.

End RouterFacts.

Lemma loads_leave_currentLocation_at_latestLocation_witness :
  Router.settled Examples.router_with_two_listeners /\
  Store.listeners (Router.__store Examples.router_with_two_listeners) = [1; 2]%nat /\
  let '(r', tr) :=
    Router.loads [Some Examples.page2; None] Examples.router_with_two_listeners in
  Router.latestLocation (Store.state (Router.__store r')) = Some Examples.page2 /\
  Router.currentLocation (Store.state (Router.__store r')) = Some Examples.page2 /\
  Store.invocations 1 tr = 3%nat /\ Store.invocations 2 tr = 3%nat /\
  Store.invocations 3 tr = 0%nat.
Proof.
  assert (H : Router.settled Examples.router_with_two_listeners).
  { unfold Router.settled. cbn. repeat split; auto. }
  assert (Hnd : NoDup (Store.listeners
                         (Router.__store Examples.router_with_two_listeners))).
  { cbn. repeat constructor; cbn; intuition discriminate. }
  split; [exact H|]. split; [reflexivity|].
  pose proof (loads_leave_currentLocation_at_latestLocation nat
                [Some Examples.page2; None] Examples.router_with_two_listeners
                H Hnd ltac:(discriminate)) as Hloads.
  destruct (Router.loads [Some Examples.page2; None]
              Examples.router_with_two_listeners) as [r' tr].
  destruct Hloads as (_ & Hl & Hc & Hin & Hout).
  rewrite Hc, Hl. split; [reflexivity|]. split; [reflexivity|].
  split; [apply Hin; cbn; auto|]. split; [apply Hin; cbn; auto|].
  apply Hout. cbn. intuition discriminate.
Defined.

Lemma load_updates_in_two_notifications_witness :
  Router.settled Examples.router_on_page1 /\
  exists r',
    Router.load (Some Examples.page2) Examples.router_on_page1 =
      (r', [Store.OnUpdate
              {| Router.oid := 1; Router.latestLocation := Some Examples.page2;
                 Router.currentLocation := Some Examples.page1 |}
              {| Router.oid := 0; Router.latestLocation := Some Examples.page1;
                 Router.currentLocation := Some Examples.page1 |};
            Store.Notify 1
              {| Router.oid := 1; Router.latestLocation := Some Examples.page2;
                 Router.currentLocation := Some Examples.page1 |}
              {| Router.oid := 0; Router.latestLocation := Some Examples.page1;
                 Router.currentLocation := Some Examples.page1 |};
            Store.OnUpdate
              {| Router.oid := 2; Router.latestLocation := Some Examples.page2;
                 Router.currentLocation := Some Examples.page2 |}
              {| Router.oid := 1; Router.latestLocation := Some Examples.page2;
                 Router.currentLocation := Some Examples.page1 |};
            Store.Notify 1
              {| Router.oid := 2; Router.latestLocation := Some Examples.page2;
                 Router.currentLocation := Some Examples.page2 |}
              {| Router.oid := 1; Router.latestLocation := Some Examples.page2;
                 Router.currentLocation := Some Examples.page1 |}]) /\
    Router.settled r'.
Proof.
  assert (H : Router.settled Examples.router_on_page1).
  { unfold Router.settled. cbn. repeat split; auto. }
  split; [exact H|].
  destruct (load_updates_in_two_notifications nat Examples.router_on_page1
              Examples.page2 H) as (r' & E & Hs & _).
  exists r'. split; [exact E | exact Hs].
Defined.

(** C1, as stated, fails: during [load({ next: page2 })] on a router showing
    page 1, listener [1] is invoked with a state whose [latestLocation] is
    already page 2 (set earlier in that load) and whose [currentLocation] is
    still page 1. *)
Lemma load_listener_sees_currentLocation_lag :
  exists next prev,
    In (Store.Notify 1 next prev)
       (snd (Router.load (Some Examples.page2) Examples.router_on_page1)) /\
    Router.latestLocation next = Some Examples.page2 /\
    Router.currentLocation next = Some Examples.page1 /\
    Router.currentLocation next <> Router.latestLocation next.
Proof.
  eexists _, _. split; [cbn; right; left; reflexivity|].
  cbn. repeat split; auto. discriminate.
Qed.

(** ** The history queue *)

Section HistoryFacts.

Import History.

Variable HState Host : Type.
Variable opts : Opts HState Host.

(** A drain of a queue that holds one task. *)
Lemma queueTask_on_empty_queue (tk : task HState) (hist : History.t HState Host) :
  queue hist = [] ->
  queueTask opts tk hist =
    match run_task opts tk (host hist) with
    | (h', Some e) =>
        ({| currentLocation := currentLocation hist; unsub := unsub hist;
            listeners := listeners hist; queue := []; host := h' |},
         [Called tk], Some e)
    | (h', None) =>
        ({| currentLocation := getLocation _ _ opts h'; unsub := unsub hist;
            listeners := listeners hist; queue := []; host := h' |},
         Called tk :: map Listener (listeners hist), None)
    end.
Proof.
  intros Hq. unfold queueTask, tryFlush. cbn. rewrite Hq. cbn.
  destruct (run_task opts tk (host hist)) as [h' [e|]]; reflexivity.
Qed.

(** The queue is empty between calls: a task is pushed and drained by the
    same call, and it is off the queue before it runs. *)
Lemma reachable_queue_empty (hist : History.t HState Host) :
  reachable opts hist -> queue hist = [].
Proof.
  induction 1 as [h | tk hist hist' tr r _ IH E | cb hist _ IH | cb hist _ IH
                 | hist hist' tr r change _ IH E].
  - reflexivity.
  - rewrite (queueTask_on_empty_queue tk hist IH) in E.
    destruct (run_task opts tk (host hist)) as [h' [e|]];
      inversion E; reflexivity.
  - unfold listen.
    match goal with |- context [let '(_, _) := ?x in _] => destruct x end.
    exact IH.
  - exact IH.
  - unfold onUpdate in E. inversion E. cbn. exact IH.
Qed.

Lemma listen_keeps_NoDup (cb : nat) (ls : list nat) :
  NoDup ls ->
  NoDup (if existsb (Nat.eqb cb) ls then ls else ls ++ [cb]).
Proof.
  intros H. destruct (existsb (Nat.eqb cb) ls) eqn:E; [exact H|].
  apply NoDup_app; [exact H | repeat constructor; intros [] | ].
  intros x Hx [Hcb|[]]. subst x.
  assert (existsb (Nat.eqb cb) ls = true); [|congruence].
  apply existsb_exists. exists cb. split; [exact Hx | apply Nat.eqb_refl].
Qed.

(** The listeners are a set. *)
Lemma reachable_listeners_NoDup (hist : History.t HState Host) :
  reachable opts hist -> NoDup (listeners hist).
Proof.
  induction 1 as [h | tk hist hist' tr r Hr IH E | cb hist _ IH | cb hist _ IH
                 | hist hist' tr r change _ IH E].
  - constructor.
  - rewrite (queueTask_on_empty_queue tk hist (reachable_queue_empty _ Hr)) in E.
    destruct (run_task opts tk (host hist)) as [h' [e|]];
      inversion E; exact IH.
  - unfold listen.
    match goal with |- context [let '(_, _) := ?x in _] => destruct x end.
    cbn. apply listen_keeps_NoDup. exact IH.
  - cbn. apply NoDup_filter. exact IH.
  - unfold onUpdate in E. inversion E. cbn. exact IH.
Qed.

Lemma invocations_app (l : nat) (tr1 tr2 : list (event HState)) :
  invocations l (tr1 ++ tr2) = (invocations l tr1 + invocations l tr2)%nat.
Proof. unfold invocations. now rewrite filter_app, length_app. Qed.

Lemma invocations_once (l : nat) (ls : list nat) :
  NoDup ls -> In l ls -> invocations (HState:=HState) l (map Listener ls) = 1%nat.
Proof.
  induction 1 as [|x ls Hx Hnd IH]; intros Hin; [destruct Hin|].
  unfold invocations in *. cbn.
  destruct (Nat.eqb_spec l x) as [->|Hne].
  - cbn. f_equal.
    clear IH Hin Hnd. induction ls as [|y ls IH]; [reflexivity|]. cbn.
    destruct (Nat.eqb_spec x y) as [->|_].
    + exfalso. apply Hx. now left.
    + apply IH. intros H. apply Hx. now right.
  - destruct Hin as [->|Hin]; [congruence | now apply IH].
Qed.

(** C2, as the code has it.  [push(A)] then [replace(B)], neither throwing:
    the adapter sees [pushState(A)] and then [replaceState(B)], and the
    listeners are notified after each of the two, so every registered
    listener is invoked twice, the first time between the two adapter
    calls. *)
Theorem push_then_replace_notifies_twice
    (hist : History.t HState Host) (A B : string) (sA sB : HState) :
  reachable opts hist ->
  snd (pushState _ _ opts A sA (host hist)) = None ->
  snd (replaceState _ _ opts B sB (fst (pushState _ _ opts A sA (host hist)))) = None ->
  exists hist',
    and_then (push opts A sA) (replace opts B sB) hist =
      (hist',
       [Called (TPush A sA)] ++ map Listener (listeners hist) ++
       [Called (TReplace B sB)] ++ map Listener (listeners hist),
       None) /\
    (forall l, In l (listeners hist) ->
       invocations l ([Called (TPush A sA)] ++ map Listener (listeners hist) ++
                      [Called (TReplace B sB)] ++ map Listener (listeners hist)) = 2%nat) /\
    queue hist' = [] /\ listeners hist' = listeners hist.
Proof.
  intros Hr HA HB.
  pose proof (reachable_queue_empty hist Hr) as Hq.
  pose proof (reachable_listeners_NoDup hist Hr) as Hnd.
  unfold and_then, push, replace.
  rewrite (queueTask_on_empty_queue _ hist Hq). cbn [run_task].
  destruct (pushState _ _ opts A sA (host hist)) as [h1 r1]. cbn in HA, HB. subst r1.
  rewrite queueTask_on_empty_queue by reflexivity. cbn [run_task host listeners].
  destruct (replaceState _ _ opts B sB h1) as [h2 r2]. cbn in HB. subst r2.
  eexists. split; [reflexivity|]. split; [|split; reflexivity].
  intros l Hl. rewrite !invocations_app.
  rewrite (invocations_once l _ Hnd Hl). reflexivity.
Qed.

(** C9.  A mutating call on a reachable history whose task throws: the
    adapter is called once, the exception reaches the caller, no listener is
    notified and the cached location is not re-read; the queue is empty
    afterwards, so a later call runs its own task and no other. *)
Theorem throwing_task_leaves_queue_empty
    (hist : History.t HState Host) (tk : task HState) (e : Js.error) :
  reachable opts hist ->
  snd (run_task opts tk (host hist)) = Some e ->
  exists hist',
    queueTask opts tk hist = (hist', [Called tk], Some e) /\
    queue hist' = [] /\
    listeners hist' = listeners hist /\
    currentLocation hist' = currentLocation hist /\
    reachable opts hist' /\
    forall tk', exists hist'' r,
      queueTask opts tk' hist' =
        (hist'',
         Called tk' :: match r with
                       | Some _ => []
                       | None => map Listener (listeners hist)
                       end,
         r).
Proof.
  intros Hr He.
  pose proof (reachable_queue_empty hist Hr) as Hq.
  pose proof (queueTask_on_empty_queue tk hist Hq) as E.
  destruct (run_task opts tk (host hist)) as [h' r] eqn:Et. cbn in He. subst r.
  eexists. split; [exact E|]. repeat split.
  - eapply reach_task; [exact Hr | exact E].
  - intros tk'. rewrite queueTask_on_empty_queue by reflexivity. cbn [host listeners].
    destruct (run_task opts tk' h') as [h'' [e'|]].
    + eexists _, (Some e'). reflexivity.
    + eexists _, None. reflexivity.
Qed.

(** What the loop of [tryFlush] does on a longer queue, which no reachable
    history holds: the tasks behind the one that throws are not run, and
    they stay queued. *)
Lemma drain_stops_at_throw (q1 q2 : list (task HState)) (tk : task HState)
    (h : Host) :
  forall h1 e,
    fold_left (fun acc t => match acc with
                            | (x, None) => run_task opts t x
                            | (x, Some err) => (x, Some err)
                            end) q1 (h, None) = (h1, None) ->
    snd (run_task opts tk h1) = Some e ->
    drain opts (q1 ++ tk :: q2) h =
      (q2, fst (run_task opts tk h1), map Called q1 ++ [Called tk], Some e).
Proof.
  revert h. induction q1 as [|t q1 IH]; intros h h1 e Hrun He; cbn in *.
  - inversion Hrun; subst. destruct (run_task opts tk h1) as [h' r].
    cbn in He. subst r. reflexivity.
  - destruct (run_task opts t h) as [h' [err|]] eqn:Et.
    + exfalso. clear -Hrun. induction q1 as [|x q1 IH]; cbn in Hrun;
        [discriminate | auto].
    + rewrite (IH h' h1 e Hrun He). reflexivity.
Qed.

(** One call on a reachable history that the adapter accepts. *)
Lemma queueTask_accepted (tk : task HState) (hist : History.t HState Host)
    (h' : Host) :
  reachable opts hist ->
  run_task opts tk (host hist) = (h', None) ->
  let hist' := {| currentLocation := getLocation _ _ opts h'; unsub := unsub hist;
                  listeners := listeners hist; queue := []; host := h' |} in
  queueTask opts tk hist = (hist', Called tk :: map Listener (listeners hist), None) /\
  reachable opts hist'.
Proof.
  intros Hr E hist'.
  assert (Eq : queueTask opts tk hist =
               (hist', Called tk :: map Listener (listeners hist), None)).
  { rewrite (queueTask_on_empty_queue tk hist (reachable_queue_empty _ Hr)).
    now rewrite E. }
  split; [exact Eq|]. eapply reach_task; [exact Hr | exact Eq].
Qed.

Lemma calls_in_order (tks : list (task HState)) :
  forall hist : History.t HState Host,
    reachable opts hist ->
    snd (run_tasks opts tks (host hist)) = None ->
    exists hist',
      calls opts tks hist =
        (hist',
         flat_map (fun tk => Called tk :: map Listener (listeners hist)) tks,
         None) /\
      host hist' = fst (run_tasks opts tks (host hist)) /\
      currentLocation hist' =
        match tks with
        | [] => currentLocation hist
        | _ :: _ => getLocation _ _ opts (host hist')
        end /\
      listeners hist' = listeners hist /\
      reachable opts hist'.
Proof.
  induction tks as [|tk tks IH]; intros hist Hr Hok.
  - exists hist. cbn. auto.
  - cbn [calls run_tasks flat_map] in *. unfold and_then.
    destruct (run_task opts tk (host hist)) as [h1 [e|]] eqn:E; [discriminate|].
    destruct (queueTask_accepted tk hist h1 Hr E) as [Eq Hr1]. rewrite Eq.
    destruct (IH _ Hr1 Hok) as (hist' & Ec & Hh & Hc & Hl & Hr').
    cbn [host listeners currentLocation] in Ec, Hh, Hc, Hl.
    rewrite Ec. exists hist'. repeat split; auto.
    destruct tks; [|exact Hc].
    cbn in Hh. now rewrite Hc, Hh.
Qed.

Lemma invocations_per_call (l : nat) (ls : list nat) (tks : list (task HState)) :
  NoDup ls -> In l ls ->
  invocations l (flat_map (fun tk => Called tk :: map Listener ls) tks)
  = List.length tks.
Proof.
  intros Hnd Hin. induction tks as [|tk tks IH]; [reflexivity|].
  cbn [flat_map List.length].
  rewrite invocations_app, IH.
  change (Called tk :: map Listener ls) with ([Called tk] ++ map Listener ls).
  rewrite invocations_app, (invocations_once l ls Hnd Hin). reflexivity.
Qed.

(** X3.  On a history between two calls, mutating calls made one after the
    other ([push], [replace], [go], [back], [forward], in any mix) that the
    adapter accepts are applied in the order they were made: each reaches the
    adapter before the next, and is followed by one round of notifications,
    so a listener is invoked once for every call.  Afterwards the host is
    what the adapter calls made of it in turn, [location] is what the adapter
    reports for that host, and the listeners are as before. *)
Theorem calls_apply_in_submission_order
    (tks : list (task HState)) (hist : History.t HState Host) :
  reachable opts hist ->
  snd (run_tasks opts tks (host hist)) = None ->
  exists hist',
    calls opts tks hist =
      (hist',
       flat_map (fun tk => Called tk :: map Listener (listeners hist)) tks,
       None) /\
    (forall l, In l (listeners hist) ->
       invocations l (flat_map (fun tk => Called tk :: map Listener (listeners hist)) tks)
       = List.length tks) /\
    host hist' = fst (run_tasks opts tks (host hist)) /\
    (tks <> [] -> currentLocation hist' = getLocation _ _ opts (host hist')) /\
    queue hist' = [] /\ listeners hist' = listeners hist.
Proof.
  intros Hr Hok.
  destruct (calls_in_order tks hist Hr Hok) as (hist' & Ec & Hh & Hc & Hl & Hr').
  exists hist'. repeat split; auto.
  - intros l Hin. apply invocations_per_call; [|exact Hin].
    exact (reachable_listeners_NoDup _ Hr).
  - intros Hne. destruct tks; [congruence | exact Hc].
  - exact (reachable_queue_empty _ Hr').
Qed.

(** X4.  Whatever calls were made before, and whether or not they threw, a
    history between two calls has an empty task queue and holds every
    listener once. *)
Theorem reachable_history_is_idle (hist : History.t HState Host) :
  reachable opts hist -> queue hist = [] /\ NoDup (listeners hist).
Proof.
  intros Hr. split.
  - exact (reachable_queue_empty _ Hr).
  - exact (reachable_listeners_NoDup _ Hr).
Qed.

(** X5.  The loop of [tryFlush] calls the adapter for the queued tasks in
    queue order and stops at the first call that throws: the tasks called are
    a prefix of the queue, the tasks behind the one that threw are not called
    and stay queued, and when no call throws the queue is left empty.  The
    host and the exception are those of the calls made in turn. *)
Theorem drain_calls_a_prefix_of_the_queue (q : list (task HState)) :
  forall h : Host,
    let '(rest, h', tr, r) := drain opts q h in
    (h', r) = run_tasks opts q h /\
    exists called,
      q = called ++ rest /\ tr = map Called called /\
      match r with
      | None => rest = []
      | Some e =>
          exists before tk h0,
            called = before ++ [tk] /\
            run_tasks opts before h = (h0, None) /\
            run_task opts tk h0 = (h', Some e)
      end.
Proof.
  induction q as [|tk q IH]; intros h; cbn [drain run_tasks].
  - split; [reflexivity|]. exists []. auto.
  - destruct (run_task opts tk h) as [h1 [e|]] eqn:E.
    + split; [reflexivity|]. exists [tk]. repeat split.
      exists [], tk, h. auto.
    + specialize (IH h1). destruct (drain opts q h1) as [[[rest h2] tr] r].
      destruct IH as [Erun (called & -> & -> & Hr)].
      split; [exact Erun|]. exists (tk :: called). repeat split.
      destruct r as [e|]; [|exact Hr].
      destruct Hr as (before & tk' & h0 & -> & Hb & Ht).
      exists (tk :: before), tk', h0. repeat split; [|exact Ht].
      cbn [run_tasks]. now rewrite E.
Qed.

(** X6.  The host-level listener follows the listener set.  Starting with
    no listener, the first [listen] attaches it; a further [listen], of the
    same callback or of another, does not attach again, and a callback
    is held once however often it is added; removing one of two listeners
    leaves the host-level listener attached; removing the last detaches it
    with the function the attachment returned. *)
Theorem listen_attaches_once_and_last_unlisten_detaches
    (hist : History.t HState Host) (cb1 cb2 : nat) :
  listeners hist = [] -> cb1 <> cb2 ->
  let attached := fst (listener _ _ opts (host hist)) in
  let detach := snd (listener _ _ opts (host hist)) in
  let h1 := listen opts cb1 hist in
  let h2 := listen opts cb2 h1 in
  (host h1 = attached /\ listeners h1 = [cb1]) /\
  listen opts cb1 h1 = h1 /\
  (host h2 = attached /\ listeners h2 = [cb1; cb2]) /\
  (host (unlisten cb1 h2) = attached /\ listeners (unlisten cb1 h2) = [cb2]) /\
  (host (unlisten cb2 (unlisten cb1 h2)) = detach attached /\
   listeners (unlisten cb2 (unlisten cb1 h2)) = []).
Proof.
  intros Hl Hne. unfold listen, unlisten. rewrite Hl.
  destruct (listener _ _ opts (host hist)) as [h' u]. cbn.
  rewrite !Nat.eqb_refl. cbn.
  assert (E12 : Nat.eqb cb1 cb2 = false) by now apply Nat.eqb_neq.
  assert (E21 : Nat.eqb cb2 cb1 = false) by (apply Nat.eqb_neq; congruence).
  rewrite E21. cbn. rewrite ?E12, ?E21, ?Nat.eqb_refl. cbn.
  rewrite ?E12, ?E21, ?Nat.eqb_refl. cbn. repeat split.
Qed.

End HistoryFacts.

Lemma push_then_replace_notifies_twice_witness :
  History.reachable Examples.memory_opts Examples.history_on_items /\
  exists hist',
    History.and_then (History.push Examples.memory_opts "/items?page=2" 7)
                     (History.replace Examples.memory_opts "/items?page=3" 8)
                     Examples.history_on_items =
      (hist',
       [History.Called (History.TPush "/items?page=2" 7); History.Listener 1;
        History.Called (History.TReplace "/items?page=3" 8); History.Listener 1],
       None).
Proof.
  assert (H : History.reachable Examples.memory_opts Examples.history_on_items).
  { apply History.reach_listen, History.reach_create. }
  split; [exact H|].
  destruct (push_then_replace_notifies_twice nat Examples.memory Examples.memory_opts
              Examples.history_on_items "/items?page=2" "/items?page=3" 7 8 H
              eq_refl eq_refl) as (hist' & E & _).
  exists hist'. exact E.
Defined.

(** C2, as stated, fails: after [push] and [replace], back to back, listener
    [1] has been invoked twice, and the first time before
    [replaceState] was called. *)
Lemma push_then_replace_two_notifications :
  let tr := snd (fst (History.and_then
                        (History.push Examples.memory_opts "/items?page=2" 7)
                        (History.replace Examples.memory_opts "/items?page=3" 8)
                        Examples.history_on_items)) in
  tr = [History.Called (History.TPush "/items?page=2" 7); History.Listener 1;
        History.Called (History.TReplace "/items?page=3" 8); History.Listener 1] /\
  History.invocations 1 tr = 2%nat /\
  History.invocations 1 tr <> 1%nat.
Proof. vm_compute. repeat split; auto. discriminate. Qed.

Lemma throwing_task_leaves_queue_empty_witness :
  History.reachable Examples.memory_opts Examples.history_on_items /\
  exists hist',
    History.push Examples.memory_opts "//elsewhere.example/x" 7
                 Examples.history_on_items =
      (hist', [History.Called (History.TPush "//elsewhere.example/x" 7)],
       Some (Js.Thrown "SecurityError")) /\
    History.queue hist' = [].
Proof.
  assert (H : History.reachable Examples.memory_opts Examples.history_on_items).
  { apply History.reach_listen, History.reach_create. }
  split; [exact H|].
  destruct (throwing_task_leaves_queue_empty nat Examples.memory Examples.memory_opts
              Examples.history_on_items (History.TPush "//elsewhere.example/x" 7)
              (Js.Thrown "SecurityError") H eq_refl) as (hist' & E & Hq & _).
  exists hist'. split; [exact E | exact Hq].
Defined.

Lemma calls_apply_in_submission_order_witness :
  History.reachable Examples.memory_opts Examples.history_on_items /\
  exists hist',
    History.calls Examples.memory_opts
      [History.TPush "/items?page=2" 7; History.TReplace "/items?page=3" 8;
       History.TBack; History.TGo 1]
      Examples.history_on_items =
      (hist',
       [History.Called (History.TPush "/items?page=2" 7); History.Listener 1;
        History.Called (History.TReplace "/items?page=3" 8); History.Listener 1;
        History.Called History.TBack; History.Listener 1;
        History.Called (History.TGo 1); History.Listener 1],
       None) /\
    Location.href (History.currentLocation hist') = "/items?page=3".
Proof.
  assert (H : History.reachable Examples.memory_opts Examples.history_on_items).
  { apply History.reach_listen, History.reach_create. }
  split; [exact H|].
  destruct (calls_apply_in_submission_order nat Examples.memory Examples.memory_opts
              [History.TPush "/items?page=2" 7; History.TReplace "/items?page=3" 8;
               History.TBack; History.TGo 1]
              Examples.history_on_items H eq_refl)
    as (hist' & E & _ & Hh & Hc & _).
  exists hist'. split; [exact E|].
  rewrite Hc by discriminate. rewrite Hh. reflexivity.
Defined.

Lemma reachable_history_is_idle_witness :
  let after_throw :=
    fst (fst (History.push Examples.memory_opts "//elsewhere.example/x" 7
                Examples.history_on_items)) in
  History.reachable Examples.memory_opts after_throw /\
  History.queue after_throw = [] /\ NoDup (History.listeners after_throw).
Proof.
  cbv zeta.
  destruct (History.push Examples.memory_opts "//elsewhere.example/x" 7
              Examples.history_on_items) as [[h tr] r] eqn:E.
  cbn [fst].
  assert (H : History.reachable Examples.memory_opts h).
  { eapply History.reach_task; [|exact E].
    apply History.reach_listen, History.reach_create. }
  split; [exact H|].
  exact (reachable_history_is_idle nat Examples.memory Examples.memory_opts h H).
Defined.

Lemma listen_attaches_once_and_last_unlisten_detaches_witness :
  let hist := History.createHistory Examples.counting_opts 0 in
  let h2 := History.listen Examples.counting_opts 2
              (History.listen Examples.counting_opts 1 hist) in
  History.listeners hist = [] /\
  History.host h2 = 1 /\
  History.host (History.unlisten 1 h2) = 1 /\
  History.host (History.unlisten 2 (History.unlisten 1 h2)) = 0.
Proof.
  split; [reflexivity|].
  destruct (listen_attaches_once_and_last_unlisten_detaches nat nat
              Examples.counting_opts (History.createHistory Examples.counting_opts 0)
              1 2 eq_refl ltac:(discriminate))
    as (_ & _ & [H2 _] & [H3 _] & [H4 _]).
  split; [exact H2|]. split; [exact H3 | exact H4].
Defined.

(** ** The structural merge *)

Section MergeFacts.

Import Js Merge.

Lemma same_ref_refl (v : value) : same_ref v v = true.
Proof.
  destruct v; cbn; auto using Bool.eqb_reflx, Z.eqb_refl, String.eqb_refl, Nat.eqb_refl.
Qed.

Lemma lookup_In (k : string) (fs : list (string * value)) (v : value) :
  lookup k fs = Some v -> In (k, v) fs.
Proof.
  induction fs as [|[k' v'] fs IH]; cbn; [discriminate|].
  destruct (String.eqb_spec k k') as [->|_].
  - intros [= ->]. now left.
  - intros H. right. now apply IH.
Qed.

Lemma has_key_In (k : string) (fs : list (string * value)) :
  has_key k fs = true -> In k (map fst fs).
Proof.
  unfold has_key. destruct (lookup k fs) as [v|] eqn:E; [|discriminate].
  intros _. apply lookup_In in E. now apply (in_map fst) in E.
Qed.

Lemma distinct_NoDup (ks : list string) : distinct ks = true -> NoDup ks.
Proof.
  induction ks as [|k ks IH]; cbn; [constructor|].
  intros H. apply andb_true_iff in H as [Hk Hd].
  constructor; [|now apply IH].
  intros Hin. apply negb_true_iff in Hk.
  assert (existsb (String.eqb k) ks = true); [|congruence].
  apply existsb_exists. exists k. split; [exact Hin | apply String.eqb_refl].
Qed.

(** Structurally equal objects with distinct keys have as many keys. *)
Lemma same_keys_same_length (efs tfs : list (string * value)) :
  distinct (map fst efs) = true ->
  distinct (map fst tfs) = true ->
  forallb (fun kv => match lookup (fst kv) efs with
                     | Some ev => deep_equal ev (snd kv)
                     | None => false
                     end) tfs = true ->
  forallb (fun kv => has_key (fst kv) tfs) efs = true ->
  List.length efs = List.length tfs.
Proof.
  intros He Ht Hte Het.
  apply distinct_NoDup in He, Ht.
  rewrite <- (length_map fst efs), <- (length_map fst tfs).
  apply Nat.le_antisymm; apply NoDup_incl_length; auto; intros k Hk;
    apply in_map_iff in Hk as ([k' v] & <- & Hin); cbn.
  - rewrite forallb_forall in Het. apply has_key_In. exact (Het _ Hin).
  - rewrite forallb_forall in Hte. specialize (Hte _ Hin). cbn in Hte.
    destruct (lookup k' efs) as [ev|] eqn:E; [|discriminate].
    apply lookup_In in E. now apply (in_map fst) in E.
Qed.

(** A scalar that is structurally equal to [e] is [e]. *)
Lemma deep_equal_scalar (e t : value) :
  match t with VArray _ _ | VObject _ _ _ => False | _ => True end ->
  deep_equal e t = true -> same_ref e t = true.
Proof.
  destruct t; cbn; try contradiction; intros _; destruct e; cbn; auto; discriminate.
Qed.

Lemma plain_data_R (id : nat) (cls : class) (fs : list (string * value)) :
  plain_data (VObject id cls fs) = true ->
  R (VObject id cls fs) = Ok true /\
  forallb (fun kv => plain_data (snd kv)) fs = true.
Proof.
  cbn [plain_data]. destruct (R (VObject id cls fs)) as [[|]|]; auto; discriminate.
Qed.

(** The loop over the indices returns the entries of [previous], and counts
    every one of them. *)
Lemma merge_indices_equal (ts : list value) :
  Forall merge_returns_previous ts ->
  forall pre es n,
    forallb well_formed es = true -> forallb well_formed ts = true ->
    forallb plain_data es = true -> forallb plain_data ts = true ->
    (fix entries (es ts : list value) {struct ts} : bool :=
       match es, ts with
       | [], [] => true
       | ev :: es', tv :: ts' => deep_equal ev tv && entries es' ts'
       | _, _ => false
       end) es ts = true ->
    exists n',
      merge_indices (fun a b m => d a b m) (pre ++ es) ts (List.length pre) n
        = Ok (es, List.length ts, n').
Proof.
  induction 1 as [|tv ts Htv _ IH]; intros pre es n Hwe Hwt Hpe Hpt Heq.
  - destruct es; [|discriminate]. exists n. reflexivity.
  - destruct es as [|ev es]; [discriminate|].
    cbn in Hwe, Hwt, Hpe, Hpt.
    apply andb_true_iff in Hwe as [Hwe1 Hwe2], Hwt as [Hwt1 Hwt2],
      Hpe as [Hpe1 Hpe2], Hpt as [Hpt1 Hpt2], Heq as [Heq1 Heq2].
    cbn [merge_indices].
    assert (Hnth : nth (List.length pre) (pre ++ ev :: es) VUndefined = ev).
    { rewrite app_nth2 by lia. now rewrite Nat.sub_diag. }
    rewrite Hnth.
    destruct (Htv ev n Hwe1 Hwt1 Hpe1 Hpt1 Heq1) as (n1 & ->).
    destruct (IH (pre ++ [ev]) es n1 Hwe2 Hwt2 Hpe2 Hpt2 Heq2) as (n2 & E).
    rewrite <- app_assoc, length_app in E. cbn in E.
    rewrite Nat.add_1_r in E. rewrite E.
    rewrite same_ref_refl. exists n2. reflexivity.
Qed.

Lemma entries_same_length (es ts : list value) :
  (fix entries (es ts : list value) {struct ts} : bool :=
     match es, ts with
     | [], [] => true
     | ev :: es', tv :: ts' => deep_equal ev tv && entries es' ts'
     | _, _ => false
     end) es ts = true ->
  List.length es = List.length ts.
Proof.
  revert es; induction ts as [|tv ts IH]; intros [|ev es] H;
    try discriminate; [reflexivity|].
  apply andb_true_iff in H as [_ H]. cbn. f_equal. now apply IH.
Qed.

(** The loop over the keys returns, for every key of [next], the entry of
    [previous], and counts every one of them. *)
Lemma merge_keys_equal (efs : list (string * value)) (tfs : list (string * value)) :
  Forall (fun kv => merge_returns_previous (snd kv)) tfs ->
  forall n,
    forallb (fun kv => well_formed (snd kv)) efs = true ->
    forallb (fun kv => well_formed (snd kv)) tfs = true ->
    forallb (fun kv => plain_data (snd kv)) efs = true ->
    forallb (fun kv => plain_data (snd kv)) tfs = true ->
    forallb (fun kv => match lookup (fst kv) efs with
                       | Some ev => deep_equal ev (snd kv)
                       | None => false
                       end) tfs = true ->
    exists c n',
      merge_keys (fun a b m => d a b m) efs tfs n = Ok (c, List.length tfs, n').
Proof.
  induction 1 as [|[u tv] tfs Htv _ IH]; intros n Hwe Hwt Hpe Hpt Heq.
  - exists [], n. reflexivity.
  - cbn in Hwt, Hpt, Heq, Htv.
    apply andb_true_iff in Hwt as [Hwt1 Hwt2], Hpt as [Hpt1 Hpt2], Heq as [Heq1 Heq2].
    cbn [merge_keys]. unfold get.
    destruct (lookup u efs) as [ev|] eqn:El; [|discriminate].
    pose proof (lookup_In _ _ _ El) as Hin.
    rewrite forallb_forall in Hwe, Hpe.
    destruct (Htv ev n (Hwe _ Hin) Hwt1 (Hpe _ Hin) Hpt1 Heq1) as (n1 & ->).
    assert (Hwe' : forallb (fun kv => well_formed (snd kv)) efs = true)
      by now apply forallb_forall.
    assert (Hpe' : forallb (fun kv => plain_data (snd kv)) efs = true)
      by now apply forallb_forall.
    destruct (IH n1 Hwe' Hwt2 Hpe' Hpt2 Heq2) as (c & n2 & ->).
    rewrite same_ref_refl. eexists _, n2. reflexivity.
Qed.

Lemma merge_returns_previous_all (t : value) : merge_returns_previous t.
Proof.
  induction t as [| | b | z | s | tid ts IH | tid tcls tfs IH] using value_induction;
    intros e n Hwe Hwt Hpe Hpt Heq.
  1-5: exists n; cbn [d];
    match type of Heq with
    | deep_equal ?x ?t = true => rewrite (deep_equal_scalar x t I Heq)
    end; reflexivity.
  - destruct e as [| | | | | eid es | ]; try discriminate.
    cbn [d]. destruct (same_ref (VArray eid es) (VArray tid ts)); [now exists n|].
    cbn in Hwe, Hwt, Hpe, Hpt, Heq.
    destruct (merge_indices_equal ts IH [] es (S n) Hwe Hwt Hpe Hpt Heq) as (n' & E).
    cbn in E. rewrite E.
    rewrite (entries_same_length es ts Heq), !Nat.eqb_refl. cbn.
    now exists n'.
  - destruct e as [| | | | | | eid ecls efs]; try discriminate.
    cbn [d]. destruct (same_ref (VObject eid ecls efs) (VObject tid tcls tfs));
      [now exists n|].
    destruct (plain_data_R _ _ _ Hpe) as [Re Hpe'].
    destruct (plain_data_R _ _ _ Hpt) as [Rt Hpt'].
    unfold both_plain. rewrite Re, Rt. cbn [fields_of].
    cbn in Hwe, Hwt, Heq.
    apply andb_true_iff in Hwe as [Hwe0 Hwe'], Hwt as [Hwt0 Hwt'].
    apply andb_true_iff in Hwe0 as [Hde _], Hwt0 as [Hdt _].
    apply andb_true_iff in Heq as [Heq Hkeys].
    apply andb_true_iff in Heq as [_ Heq].
    destruct (merge_keys_equal efs tfs IH (S n) Hwe' Hwt' Hpe' Hpt' Heq)
      as (c & n' & ->).
    rewrite (same_keys_same_length efs tfs Hde Hdt Heq Hkeys), !Nat.eqb_refl. cbn.
    now exists n'.
Qed.

(** C5, as the code has it.  For plain data (scalars, arrays, and objects
    that pass the plain-object test [R]) in which no object has an own
    property ["__proto__"], when [next] is structurally equal to [previous],
    the merge returns [previous] itself.  Merging any value with itself
    returns it.  When [previous] and [next] are not the same reference and
    not both arrays, the test [R(e) && R(r)] decides: when it fails, the
    merge returns [next], structurally equal or not; when it throws, the
    merge throws. *)
Theorem merge_preserves_identity_of_plain_data (previous next : value) (n : nat) :
  (well_formed previous = true -> well_formed next = true ->
   plain_data previous = true -> plain_data next = true ->
   deep_equal previous next = true ->
   exists n', d previous next n = Ok (previous, n')) /\
  d previous previous n = Ok (previous, n) /\
  (same_ref previous next = false ->
   isArray previous && isArray next = false ->
   (both_plain previous next = Ok false -> d previous next n = Ok (next, n)) /\
   (forall err, both_plain previous next = Throw err ->
                d previous next n = Throw err)).
Proof.
  split; [|split].
  - intros Hwe Hwt Hpe Hpt Heq. now apply merge_returns_previous_all.
  - destruct previous; cbn [d]; rewrite same_ref_refl; reflexivity.
  - intros Hs Ha. split.
    + intros Hb. destruct next; cbn [d]; rewrite Hs; try (now rewrite Hb).
      destruct previous; try (now rewrite Hb). discriminate Ha.
    + intros err Hb. destruct next; cbn [d]; rewrite Hs; try (now rewrite Hb).
      destruct previous; try (now rewrite Hb). discriminate Ha.
Qed.

Lemma same_ref_sym (a b : value) : same_ref a b = same_ref b a.
Proof.
  destruct a, b; cbn; auto using Z.eqb_sym, String.eqb_sym, Nat.eqb_sym.
  now destruct b, b0.
Qed.

(** Scalars that are the same reference are equal. *)
Lemma same_ref_scalar (e t : value) :
  match t with VArray _ _ | VObject _ _ _ => False | _ => True end ->
  same_ref e t = true -> e = t.
Proof.
  destruct t; try contradiction; intros _; destruct e; cbn; try discriminate;
    try reflexivity.
  - intros H. apply Bool.eqb_prop in H. now subst.
  - intros H. apply Z.eqb_eq in H. now subst.
  - intros H. apply String.eqb_eq in H. now subst.
Qed.

(** A container built after [e] is not a container of [e]. *)
Lemma same_ref_apart (m : nat) (e t : value) :
  ids_below m e = true -> ids_from m t = true ->
  match t with VArray _ _ | VObject _ _ _ => True | _ => False end ->
  same_ref e t = false.
Proof.
  destruct t; try contradiction; intros He Ht _; destruct e; try reflexivity;
    cbn in *; apply andb_true_iff in He as [He _], Ht as [Ht _];
    apply Nat.ltb_lt in He; apply Nat.leb_le in Ht; apply Nat.eqb_neq; lia.
Qed.

Lemma has_key_false_lookup (k : string) (fs : list (string * value)) :
  has_key k fs = false -> lookup k fs = None.
Proof. unfold has_key. now destruct (lookup k fs). Qed.

(** On literal data, [R] does not throw, and tells the objects. *)
Lemma literal_R (e : value) :
  literal e = true ->
  R e = Ok (match e with VObject _ _ _ => true | _ => false end).
Proof.
  destruct e as [| | | | | |id cls fs]; try reflexivity.
  cbn [literal]. destruct cls; try discriminate.
  intros H. apply andb_true_iff in H as [H _]. apply negb_true_iff in H.
  unfold R. cbn [T negb]. now rewrite (has_key_false_lookup _ _ H).
Qed.

Lemma lookup_distinct_In (k : string) (v : value) (fs : list (string * value)) :
  distinct (map fst fs) = true -> In (k, v) fs -> lookup k fs = Some v.
Proof.
  induction fs as [|[k' v'] fs IH]; cbn [map fst distinct lookup]; [intros _ []|].
  intros Hd [[= -> ->]|Hin].
  - now rewrite String.eqb_refl.
  - apply andb_true_iff in Hd as [Hk Hd]. apply negb_true_iff in Hk.
    destruct (String.eqb_spec k k') as [->|_]; [|now apply IH].
    assert (existsb (String.eqb k') (map fst fs) = true); [|congruence].
    apply existsb_exists. exists k'. split; [|apply String.eqb_refl].
    now apply (in_map fst) in Hin.
Qed.

Lemma In_has_key (k : string) (fs : list (string * value)) :
  In k (map fst fs) -> has_key k fs = true.
Proof.
  unfold has_key. induction fs as [|[k' v'] fs IH]; cbn; [intros []|].
  destruct (String.eqb_spec k k') as [->|Hne]; [reflexivity|].
  intros [H|H]; [congruence | now apply IH].
Qed.

Lemma class_eqb_refl (c : class) : class_eqb c c = true.
Proof. destruct c; cbn; auto using String.eqb_refl. Qed.

Lemma entries_equal_Forall2 (es ts : list value) :
  Forall2 (fun e t => deep_equal e t = true) es ts -> entries_equal es ts = true.
Proof.
  induction 1 as [|e t es ts H _ IH]; [reflexivity|].
  cbn. rewrite H. exact IH.
Qed.

(** A well-formed value is structurally equal to itself. *)
Lemma deep_equal_refl (t : value) : well_formed t = true -> deep_equal t t = true.
Proof.
  induction t as [| | b | z | s | tid ts IH | tid tcls tfs IH] using value_induction;
    cbn [well_formed deep_equal]; intros Hw;
    auto using Bool.eqb_reflx, Z.eqb_refl, String.eqb_refl.
  - apply (entries_equal_Forall2 ts ts).
    induction IH as [|x xs Hx _ IHxs]; constructor.
    + cbn in Hw. apply andb_true_iff in Hw as [Hw _]. auto.
    + cbn in Hw. apply andb_true_iff in Hw as [_ Hw]. auto.
  - apply andb_true_iff in Hw as [Hw Hall]. apply andb_true_iff in Hw as [Hd _].
    rewrite class_eqb_refl. cbn [andb].
    apply andb_true_iff. split.
    + apply forallb_forall. intros [k v] Hin. cbn [fst snd].
      rewrite (lookup_distinct_In k v tfs Hd Hin).
      rewrite Forall_forall in IH. rewrite forallb_forall in Hall.
      exact (IH _ Hin (Hall _ Hin)).
    + apply forallb_forall. intros [k v] Hin. cbn [fst].
      apply In_has_key. now apply (in_map fst) in Hin.
Qed.

Lemma deep_equal_undefined (t : value) :
  deep_equal VUndefined t = true -> t = VUndefined.
Proof. destruct t; cbn; try discriminate; reflexivity. Qed.


Lemma forallb_nth (p : value -> bool) (es : list value) (i : nat) :
  forallb p es = true -> p VUndefined = true -> p (nth i es VUndefined) = true.
Proof.
  intros H Hd. destruct (nth_in_or_default i es VUndefined) as [Hin| ->]; [|exact Hd].
  rewrite forallb_forall in H. auto.
Qed.

Lemma forallb_get (p : value -> bool) (efs : list (string * value)) (u : string) :
  forallb (fun kv => p (snd kv)) efs = true -> p VUndefined = true ->
  p (get efs u) = true.
Proof.
  intros H Hd. unfold get. destruct (lookup u efs) as [v|] eqn:E; [|exact Hd].
  rewrite forallb_forall in H. exact (H _ (lookup_In _ _ _ E)).
Qed.

Lemma map_nth_seq (pre es : list value) :
  map (fun j => nth j (pre ++ es) VUndefined) (seq (List.length pre) (List.length es)) = es.
Proof.
  revert pre. induction es as [|x es IH]; intros pre; [reflexivity|].
  cbn [List.length seq map]. rewrite app_nth2 by lia. rewrite Nat.sub_diag. cbn [nth].
  f_equal. specialize (IH (pre ++ [x])).
  rewrite <- app_assoc, length_app in IH. cbn in IH.
  now rewrite Nat.add_1_r in IH.
Qed.

(** The merge of a scalar [next]: [previous] when the two are the same,
    [next] otherwise. *)
Lemma d_scalar (e t : value) (n : nat) :
  match t with VArray _ _ | VObject _ _ _ => False | _ => True end ->
  literal e = true ->
  d e t n = Ok (if same_ref e t then e else t, n).
Proof.
  intros Ht He.
  destruct t; try contradiction; cbn [d]; destruct (same_ref e _); try reflexivity;
    unfold both_plain; rewrite (literal_R e He); now destruct e.
Qed.

(** The merge of a container [next] that was built after [previous] goes
    past the test [e === t]. *)
Lemma d_equation_apart (m : nat) (e t : value) (n : nat) :
  ids_below m e = true -> ids_from m t = true ->
  match t with VArray _ _ | VObject _ _ _ => True | _ => False end ->
  d e t n =
    match t with
    | VArray _ ts =>
        match e with
        | VArray _ es =>
            match merge_indices (fun a b k => d a b k) es ts 0 (S n) with
            | Throw err => Throw err
            | Ok (c, h, n') =>
                if Nat.eqb (List.length es) (List.length ts)
                   && Nat.eqb h (List.length es)
                then Ok (e, n')
                else Ok (VArray n c, n')
            end
        | _ =>
            match both_plain e t with
            | Throw err => Throw err
            | Ok _ => Ok (t, n)
            end
        end
    | VObject _ _ tfs =>
        match both_plain e t with
        | Throw err => Throw err
        | Ok false => Ok (t, n)
        | Ok true =>
            match merge_keys (fun a b k => d a b k) (fields_of e) tfs (S n) with
            | Throw err => Throw err
            | Ok (c, h, n') =>
                if Nat.eqb (List.length (fields_of e)) (List.length tfs)
                   && Nat.eqb h (List.length (fields_of e))
                then Ok (e, n')
                else Ok (VObject n Plain c, n')
            end
        end
    | _ => Ok (t, n)
    end.
Proof.
  intros He Ht Hc. pose proof (same_ref_apart m e t He Ht Hc) as Hs.
  destruct t; try contradiction; cbn [d]; rewrite Hs; reflexivity.
Qed.

Lemma merge_yields_next_scalar (t : value) :
  match t with VArray _ _ | VObject _ _ _ => False | _ => True end ->
  merge_yields_next t.
Proof.
  intros Ht e m n He _ _ Hwt _ _ _ _.
  rewrite (d_scalar e t n Ht He).
  destruct (same_ref e t) eqn:Es.
  - exists e, n. repeat split; auto.
    rewrite (same_ref_scalar e t Ht Es). now apply deep_equal_refl.
  - exists t, n. repeat split; auto.
    + now apply deep_equal_refl.
    + rewrite same_ref_sym. congruence.
Qed.

(** The loop over the indices, for a [next] whose entries the merge is
    right on. *)
Lemma merge_indices_yields_next (ts : list value) :
  Forall merge_yields_next ts ->
  forall es i m n,
    forallb literal es = true -> forallb literal ts = true ->
    forallb well_formed es = true -> forallb well_formed ts = true ->
    forallb defined_entries ts = true ->
    forallb (ids_below m) es = true -> forallb (ids_from m) ts = true ->
    (m <= n)%nat ->
    exists c h n',
      merge_indices (fun a b k => d a b k) es ts i n = Ok (c, h, n') /\
      (n <= n')%nat /\
      Forall2 (fun cv tv => deep_equal cv tv = true) c ts /\
      (h <= List.length ts)%nat /\
      (h = List.length ts ->
       c = map (fun j => nth j es VUndefined) (seq i (List.length ts))).
Proof.
  induction 1 as [|tv ts Htv _ IH]; intros es i m n Hle Hlt Hwe Hwt Hdt Hbe Hft Hmn.
  - exists [], 0%nat, n. cbn. repeat split; auto.
  - cbn [forallb] in Hlt, Hwt, Hdt, Hft.
    apply andb_true_iff in Hlt as [Hlt1 Hlt2], Hwt as [Hwt1 Hwt2],
      Hdt as [Hdt1 Hdt2], Hft as [Hft1 Hft2].
    cbn [merge_indices].
    destruct (Htv (nth i es VUndefined) m n
                (forallb_nth literal es i Hle eq_refl) Hlt1
                (forallb_nth well_formed es i Hwe eq_refl) Hwt1 Hdt1
                (forallb_nth (ids_below m) es i Hbe eq_refl) Hft1 Hmn)
      as (cv & n1 & -> & Hcv & Hn1 & Href).
    destruct (IH es (S i) m n1 Hle Hlt2 Hwe Hwt2 Hdt2 Hbe Hft2 ltac:(lia))
      as (cs & h & n2 & -> & Hn2 & Hcs & Hh & Hall).
    eexists _, _, n2. split; [reflexivity|].
    split; [lia|]. split; [now constructor|].
    cbn [List.length seq map].
    destruct (same_ref cv (nth i es VUndefined)) eqn:Es.
    + split; [lia|]. intros Hfull. rewrite (Href eq_refl), Hall by lia. reflexivity.
    + split; [lia|]. intros Hfull. lia.
Qed.

(** The same loop over the keys. *)
Lemma merge_keys_yields_next (tfs : list (string * value)) :
  Forall (fun kv => merge_yields_next (snd kv)) tfs ->
  forall efs m n,
    forallb (fun kv => literal (snd kv)) efs = true ->
    forallb (fun kv => literal (snd kv)) tfs = true ->
    forallb (fun kv => well_formed (snd kv)) efs = true ->
    forallb (fun kv => well_formed (snd kv)) tfs = true ->
    forallb (fun kv => defined_entries (snd kv)) tfs = true ->
    forallb (fun kv => ids_below m (snd kv)) efs = true ->
    forallb (fun kv => ids_from m (snd kv)) tfs = true ->
    (m <= n)%nat ->
    exists c h n',
      merge_keys (fun a b k => d a b k) efs tfs n = Ok (c, h, n') /\
      (n <= n')%nat /\
      Forall2 (fun ckv tkv => fst ckv = fst tkv /\
                              deep_equal (snd ckv) (snd tkv) = true) c tfs /\
      (h <= List.length tfs)%nat /\
      (h = List.length tfs ->
       Forall2 (fun ckv tkv => snd ckv = get efs (fst tkv)) c tfs).
Proof.
  induction 1 as [|[u tv] tfs Htv _ IH]; intros efs m n Hle Hlt Hwe Hwt Hdt Hbe Hft Hmn.
  - exists [], 0%nat, n. cbn. repeat split; auto.
  - cbn [forallb snd] in Hlt, Hwt, Hdt, Hft, Htv.
    apply andb_true_iff in Hlt as [Hlt1 Hlt2], Hwt as [Hwt1 Hwt2],
      Hdt as [Hdt1 Hdt2], Hft as [Hft1 Hft2].
    cbn [merge_keys].
    destruct (Htv (get efs u) m n
                (forallb_get literal efs u Hle eq_refl) Hlt1
                (forallb_get well_formed efs u Hwe eq_refl) Hwt1 Hdt1
                (forallb_get (ids_below m) efs u Hbe eq_refl) Hft1 Hmn)
      as (cv & n1 & -> & Hcv & Hn1 & Href).
    destruct (IH efs m n1 Hle Hlt2 Hwe Hwt2 Hdt2 Hbe Hft2 ltac:(lia))
      as (cs & h & n2 & -> & Hn2 & Hcs & Hh & Hall).
    eexists _, _, n2. split; [reflexivity|].
    split; [lia|]. split; [constructor; [now split | exact Hcs]|].
    cbn [List.length].
    destruct (same_ref cv (get efs u)) eqn:Es.
    + split; [lia|]. intros Hfull. constructor; [exact (Href eq_refl) | apply Hall; lia].
    + split; [lia|]. intros Hfull. lia.
Qed.


(** The keys of the merged object are those of [next], with structurally
    equal entries. *)
Lemma merged_entries_equal (c tfs : list (string * value)) :
  distinct (map fst tfs) = true ->
  Forall2 (fun ckv tkv => fst ckv = fst tkv /\
                          deep_equal (snd ckv) (snd tkv) = true) c tfs ->
  forallb (fun kv => match lookup (fst kv) c with
                     | Some ev => deep_equal ev (snd kv)
                     | None => false
                     end) tfs = true /\
  forallb (fun kv => has_key (fst kv) tfs) c = true.
Proof.
  intros Hd H.
  assert (Hkeys : map fst c = map fst tfs).
  { induction H as [|ckv tkv c tfs [Hk _] _ IH]; [reflexivity|].
    cbn in *. apply andb_true_iff in Hd as [_ Hd]. now rewrite Hk, IH. }
  split.
  - apply forallb_forall. intros [u tv] Hin. cbn [fst snd].
    assert (Hc : exists cv, In (u, cv) c /\ deep_equal cv tv = true).
    { clear Hd Hkeys. induction H as [|[u' cv] tkv c tfs [Hk He] _ IH]; [destruct Hin|].
      destruct Hin as [->|Hin].
      - cbn in Hk, He. subst u'. exists cv. split; [now left | exact He].
      - destruct (IH Hin) as (x & Hx & Hxe). exists x. split; [now right | exact Hxe]. }
    destruct Hc as (cv & Hcv & He).
    rewrite <- Hkeys in Hd. now rewrite (lookup_distinct_In u cv c Hd Hcv).
  - apply forallb_forall. intros [u cv] Hin. cbn [fst].
    apply In_has_key. rewrite <- Hkeys. now apply (in_map fst) in Hin.
Qed.

(** When every merged entry is the entry of [previous], and [previous] has
    as many keys as [next], [previous] is structurally equal to [next]. *)
Lemma previous_entries_equal (c efs tfs : list (string * value)) :
  distinct (map fst efs) = true -> distinct (map fst tfs) = true ->
  forallb (fun kv => negb (is_undefined (snd kv))) tfs = true ->
  List.length efs = List.length tfs ->
  Forall2 (fun ckv tkv => fst ckv = fst tkv /\
                          deep_equal (snd ckv) (snd tkv) = true) c tfs ->
  Forall2 (fun ckv tkv => snd ckv = get efs (fst tkv)) c tfs ->
  forallb (fun kv => match lookup (fst kv) efs with
                     | Some ev => deep_equal ev (snd kv)
                     | None => false
                     end) tfs = true /\
  forallb (fun kv => has_key (fst kv) tfs) efs = true.
Proof.
  intros Hde Hdt Hundef Hlen Heq Hsame.
  assert (Hall : forallb (fun kv => match lookup (fst kv) efs with
                                    | Some ev => deep_equal ev (snd kv)
                                    | None => false
                                    end) tfs = true).
  { clear Hde Hdt Hlen. induction Heq as [|[u' cv] [u tv] c tfs [Hk He] _ IH];
      [reflexivity|].
    inversion Hsame as [|? ? ? ? Hs Hsame']; subst.
    cbn [forallb fst snd] in *. apply andb_true_iff in Hundef as [Hu Hundef].
    rewrite (IH Hundef Hsame'), andb_true_r.
    rewrite Hs in He. unfold get in He.
    destruct (lookup u efs) as [ev|]; [exact He|].
    apply deep_equal_undefined in He. subst tv. discriminate. }
  split; [exact Hall|].
  apply forallb_forall. intros [k v] Hin. cbn [fst].
  apply In_has_key.
  assert (Hincl : incl (map fst tfs) (map fst efs)).
  { intros u Hu. apply in_map_iff in Hu as ([u' tv] & <- & Hu). cbn [fst].
    rewrite forallb_forall in Hall. specialize (Hall _ Hu). cbn [fst snd] in Hall.
    destruct (lookup u' efs) as [ev|] eqn:El; [|discriminate].
    apply lookup_In in El. now apply (in_map fst) in El. }
  refine (NoDup_length_incl (distinct_NoDup _ Hdt) _ Hincl k _).
  - rewrite !length_map. lia.
  - now apply (in_map fst) in Hin.
Qed.

(** On literal data, the merge yields the content of [next]. *)
Lemma merge_yields_next_all (t : value) : merge_yields_next t.
Proof.
  induction t as [| | b | z | s | tid ts IH | tid tcls tfs IH] using value_induction;
    try (apply merge_yields_next_scalar; exact I).
  - (* arrays *)
    intros e m n Hle Hlt Hwe Hwt Hdt Hbe Hft Hmn.
    rewrite (d_equation_apart m e (VArray tid ts) n Hbe Hft I).
    cbn [literal well_formed defined_entries ids_from] in Hlt, Hwt, Hdt, Hft.
    apply andb_true_iff in Hft as [_ Hft].
    destruct e as [| | | | |eid es|eid ecls efs].
    6: {
      cbn [literal well_formed ids_below] in Hle, Hwe, Hbe.
      apply andb_true_iff in Hbe as [Heid Hbe]. apply Nat.ltb_lt in Heid.
      destruct (merge_indices_yields_next ts IH es 0 m (S n)
                  Hle Hlt Hwe Hwt Hdt Hbe Hft ltac:(lia))
        as (c & h & n' & -> & Hn' & Hc & Hh & Hall).
      destruct (Nat.eqb (List.length es) (List.length ts) && Nat.eqb h (List.length es))
        eqn:Esame.
      - apply andb_true_iff in Esame as [E1 E2].
        apply Nat.eqb_eq in E1, E2.
        exists (VArray eid es), n'. repeat split; auto; [|lia].
        cbn [deep_equal]. apply (entries_equal_Forall2 es ts).
        rewrite Hall in Hc by lia. rewrite <- E1 in Hc.
        pose proof (map_nth_seq [] es) as Hes. cbn [app List.length] in Hes.
        now rewrite Hes in Hc.
      - exists (VArray n c), n'. repeat split; auto; [|lia|].
        + cbn [deep_equal]. now apply (entries_equal_Forall2 c ts).
        + cbn [same_ref]. intros H. apply Nat.eqb_eq in H. lia. }
    all: unfold both_plain; rewrite (literal_R _ Hle);
      exists (VArray tid ts), n; repeat split; auto;
      try (apply deep_equal_refl; exact Hwt); try discriminate.
    all: try (destruct ecls; discriminate).
  - (* objects *)
    intros e m n Hle Hlt Hwe Hwt Hdt Hbe Hft Hmn.
    rewrite (d_equation_apart m e (VObject tid tcls tfs) n Hbe Hft I).
    unfold both_plain. rewrite (literal_R _ Hle), (literal_R _ Hlt).
    destruct e as [| | | | |eid es|eid ecls efs];
      try (exists (VObject tid tcls tfs), n; repeat split; auto;
           [apply deep_equal_refl; exact Hwt | discriminate]).
    cbn [fields_of].
    cbn [literal] in Hle, Hlt. destruct ecls; try discriminate.
    destruct tcls; try discriminate.
    apply andb_true_iff in Hle as [_ Hle], Hlt as [_ Hlt].
    cbn [well_formed defined_entries ids_below ids_from] in Hwe, Hwt, Hdt, Hbe, Hft.
    apply andb_true_iff in Hwe as [Hwe0 Hwe], Hwt as [Hwt0 Hwt].
    apply andb_true_iff in Hwe0 as [Hde _], Hwt0 as [Hdtk _].
    apply andb_true_iff in Hbe as [Heid Hbe], Hft as [_ Hft].
    apply Nat.ltb_lt in Heid.
    assert (Hundef : forallb (fun kv => negb (is_undefined (snd kv))) tfs = true).
    { apply forallb_forall. intros kv Hin. rewrite forallb_forall in Hdt.
      specialize (Hdt _ Hin). now apply andb_true_iff in Hdt as [Hdt _]. }
    assert (Hdt' : forallb (fun kv => defined_entries (snd kv)) tfs = true).
    { apply forallb_forall. intros kv Hin. rewrite forallb_forall in Hdt.
      specialize (Hdt _ Hin). now apply andb_true_iff in Hdt as [_ Hdt]. }
    destruct (merge_keys_yields_next tfs IH efs m (S n)
                Hle Hlt Hwe Hwt Hdt' Hbe Hft ltac:(lia))
      as (c & h & n' & -> & Hn' & Hc & Hh & Hall).
    destruct (Nat.eqb (List.length efs) (List.length tfs) && Nat.eqb h (List.length efs))
      eqn:Esame.
    + apply andb_true_iff in Esame as [E1 E2].
      apply Nat.eqb_eq in E1, E2.
      exists (VObject eid Plain efs), n'. repeat split; auto; [|lia].
      cbn [deep_equal class_eqb andb].
      destruct (previous_entries_equal c efs tfs Hde Hdtk Hundef E1 Hc
                  (Hall ltac:(lia))) as [-> ->].
      reflexivity.
    + exists (VObject n Plain c), n'. repeat split; auto; [|lia|].
      * cbn [deep_equal class_eqb andb].
        destruct (merged_entries_equal c tfs Hdtk Hc) as [-> ->]. reflexivity.
      * cbn [same_ref]. intros H. apply Nat.eqb_eq in H. lia.
Qed.

(** X12.  The merge yields the content of [next].  For literal data (scalars,
    arrays, and plain objects without an own [constructor] property) in which
    no object has an own property ["__proto__"], with a [next] that was built
    after [previous] (its arrays and objects are newer than those of
    [previous], and older than those the call creates) and in which no
    property of an object has the value [undefined], [d(previous, next)] does
    not throw and returns a value that is structurally equal to [next]. *)
Theorem merge_yields_the_content_of_next (previous next : value) (m n : nat) :
  literal previous = true -> literal next = true ->
  well_formed previous = true -> well_formed next = true ->
  defined_entries next = true ->
  ids_below m previous = true -> ids_from m next = true -> (m <= n)%nat ->
  exists res n',
    d previous next n = Ok (res, n') /\ deep_equal res next = true.
Proof.
  intros Hle Hlt Hwe Hwt Hdt Hbe Hft Hmn.
  destruct (merge_yields_next_all next previous m n Hle Hlt Hwe Hwt Hdt Hbe Hft Hmn)
    as (res & n' & E & Heq & _).
  now exists res, n'.
Qed.

(** On plain data, the test [R(e) && R(r)] does not throw. *)
Lemma plain_data_both_plain (e t : value) :
  plain_data e = true -> plain_data t = true ->
  exists b, both_plain e t = Ok b.
Proof.
  assert (HR : forall v, plain_data v = true -> exists b, R v = Ok b).
  { intros v Hv. destruct v as [| | | | | |id cls fs]; try (now exists false).
    destruct (plain_data_R _ _ _ Hv) as [-> _]. now exists true. }
  intros He Ht. unfold both_plain.
  destruct (HR e He) as [[|] ->]; [apply (HR t Ht) | now exists false].
Qed.

Lemma merge_indices_returns (ts : list value) :
  Forall merge_returns ts ->
  forall es i n,
    forallb plain_data es = true -> forallb plain_data ts = true ->
    exists c h n', merge_indices (fun a b k => d a b k) es ts i n = Ok (c, h, n').
Proof.
  induction 1 as [|tv ts Htv _ IH]; intros es i n Hpe Hpt.
  - now exists [], 0%nat, n.
  - cbn [forallb] in Hpt. apply andb_true_iff in Hpt as [Hpt1 Hpt2].
    cbn [merge_indices].
    destruct (Htv (nth i es VUndefined) n (forallb_nth plain_data es i Hpe eq_refl) Hpt1)
      as (cv & n1 & ->).
    destruct (IH es (S i) n1 Hpe Hpt2) as (cs & h & n2 & ->). eauto.
Qed.

Lemma merge_keys_returns (tfs : list (string * value)) :
  Forall (fun kv => merge_returns (snd kv)) tfs ->
  forall efs n,
    forallb (fun kv => plain_data (snd kv)) efs = true ->
    forallb (fun kv => plain_data (snd kv)) tfs = true ->
    exists c h n', merge_keys (fun a b k => d a b k) efs tfs n = Ok (c, h, n').
Proof.
  induction 1 as [|[u tv] tfs Htv _ IH]; intros efs n Hpe Hpt.
  - now exists [], 0%nat, n.
  - cbn [forallb snd] in Hpt, Htv. apply andb_true_iff in Hpt as [Hpt1 Hpt2].
    cbn [merge_keys].
    destruct (Htv (get efs u) n (forallb_get plain_data efs u Hpe eq_refl) Hpt1)
      as (cv & n1 & ->).
    destruct (IH efs n1 Hpe Hpt2) as (cs & h & n2 & ->). eauto.
Qed.

Lemma plain_data_fields (e : value) :
  plain_data e = true ->
  forallb (fun kv => plain_data (snd kv)) (fields_of e) = true.
Proof.
  destruct e; try reflexivity. intros H. now destruct (plain_data_R _ _ _ H).
Qed.

(** On plain data, the merge returns. *)
Lemma merge_returns_all (t : value) : merge_returns t.
Proof.
  induction t as [| | b | z | s | tid ts IH | tid tcls tfs IH] using value_induction;
    intros e n He Ht; cbn [d]; destruct (same_ref e _); eauto;
    destruct (plain_data_both_plain e _ He Ht) as [b' Hb].
  1-5: rewrite Hb; eauto.
  - destruct e as [| | | | |eid es|]; try (rewrite Hb; eauto).
    cbn [plain_data] in He, Ht.
    destruct (merge_indices_returns ts IH es 0 (S n) He Ht) as (c & h & n' & ->).
    destruct (_ && _); eauto.
  - rewrite Hb. destruct b'; eauto.
    destruct (plain_data_R _ _ _ Ht) as [_ Ht'].
    destruct (merge_keys_returns tfs IH (fields_of e) (S n)
                (plain_data_fields e He) Ht') as (c & h & n' & ->).
    destruct (_ && _); eauto.
Qed.

(** X13.  On well-formed plain data the merge does not throw, and what it
    returns is [previous] itself, [next] itself, or a container it created:
    neither argument is written to. *)
Theorem merge_never_throws_on_plain_data (previous next : value) (n : nat) :
  well_formed previous = true -> well_formed next = true ->
  plain_data previous = true -> plain_data next = true ->
  exists res n',
    d previous next n = Ok (res, n') /\
    (res = previous \/ res = next \/
     (exists c, res = VArray n c) \/ (exists c, res = VObject n Plain c)).
Proof.
  intros _ _ He Ht.
  destruct (merge_returns_all next previous n He Ht) as (res & n' & E).
  exists res, n'. split; [exact E|].
  revert E. destruct next; cbn [d]; destruct (same_ref previous _);
    try (intros [= <- <-]; now left).
  1-5: destruct (both_plain previous _) as [?|]; [|discriminate];
       intros [= <- <-]; right; now left.
  - destruct previous;
      try (destruct (both_plain _ _) as [?|]; [|discriminate];
           intros [= <- <-]; right; now left).
    destruct (merge_indices _ _ _ _ _) as [[[c h] k]|]; [|discriminate].
    destruct (_ && _); intros [= <- <-]; [now left|].
    right. right. left. now exists c.
  - destruct (both_plain previous _) as [[|]|]; try discriminate;
      [|intros [= <- <-]; right; now left].
    destruct (merge_keys _ _ _ _) as [[[c h] k]|]; [|discriminate].
    destruct (_ && _); intros [= <- <-]; [now left|].
    right. right. right. now exists c.
Qed.

(** Every entry of the merged object is the merge of the two entries. *)
Lemma merge_keys_entry (tfs : list (string * value)) :
  forall efs n c h n',
    merge_keys (fun a b k => d a b k) efs tfs n = Ok (c, h, n') ->
    forall u tv,
      lookup u tfs = Some tv ->
      exists k k' cv, d (get efs u) tv k = Ok (cv, k') /\ lookup u c = Some cv.
Proof.
  induction tfs as [|[u0 tv0] tfs IH]; intros efs n c h n' E u tv Hu; [discriminate|].
  cbn [merge_keys] in E.
  destruct (d (get efs u0) tv0 n) as [[cv0 n1]|] eqn:E0; [|discriminate].
  destruct (merge_keys _ efs tfs n1) as [[[cs h1] n2]|] eqn:E1; [|discriminate].
  injection E as <- _ _. cbn [lookup] in *.
  destruct (String.eqb_spec u u0) as [->|_].
  - injection Hu as <-. eauto.
  - exact (IH efs n1 cs h1 n2 E1 u tv Hu).
Qed.

(** X14.  An entry that did not change is shared.  When two objects of
    plain data (they pass the plain-object test [R], and so do the objects in
    them) without an own property ["__proto__"] at any depth are merged, and
    both have an own property under a key whose values are structurally
    equal, the result holds the entry of [previous] under that key, whether
    the result is [previous] or a new object. *)
Theorem merge_shares_unchanged_entries
    (eid tid : nat) (ecls tcls : class) (efs tfs : list (string * value))
    (n : nat) (u : string) (ev tv : value) :
  well_formed (VObject eid ecls efs) = true ->
  well_formed (VObject tid tcls tfs) = true ->
  plain_data (VObject eid ecls efs) = true ->
  plain_data (VObject tid tcls tfs) = true ->
  lookup u efs = Some ev -> lookup u tfs = Some tv ->
  deep_equal ev tv = true ->
  exists res n',
    d (VObject eid ecls efs) (VObject tid tcls tfs) n = Ok (res, n') /\
    lookup u (fields_of res) = Some ev.
Proof.
  intros Hwe Hwt Hpe Hpt Hue Hut Heq.
  destruct (merge_returns_all _ _ n Hpe Hpt) as (res & n' & E).
  exists res, n'. split; [exact E|].
  revert E. cbn [d]. destruct (same_ref _ _); [now intros [= <- <-]|].
  destruct (plain_data_R _ _ _ Hpe) as [Re Hpe'].
  destruct (plain_data_R _ _ _ Hpt) as [Rt Hpt'].
  unfold both_plain. rewrite Re, Rt. cbn [fields_of].
  destruct (merge_keys _ efs tfs (S n)) as [[[c h] k]|] eqn:Ek; [|discriminate].
  destruct (_ && _); intros [= <- <-]; [exact Hue|].
  cbn [fields_of].
  destruct (merge_keys_entry tfs efs (S n) c h k Ek u tv Hut) as (k1 & k2 & cv & Ed & ->).
  unfold get in Ed. rewrite Hue in Ed.
  cbn [well_formed] in Hwe, Hwt.
  apply andb_true_iff in Hwe as [_ Hwe], Hwt as [_ Hwt].
  rewrite forallb_forall in Hwe, Hwt, Hpe', Hpt'.
  pose proof (lookup_In _ _ _ Hue) as Hine. pose proof (lookup_In _ _ _ Hut) as Hint.
  destruct (merge_returns_previous_all tv ev k1 (Hwe _ Hine) (Hwt _ Hint)
              (Hpe' _ Hine) (Hpt' _ Hint) Heq) as (k3 & Ed').
  congruence.
Qed.

(** The plain-object test throws on an ordinary object whose own
    [constructor] property is [null]. *)
Lemma R_null_constructor (id : nat) (cls : class) (fs : list (string * value)) :
  T (VObject id cls fs) = true ->
  lookup "constructor" fs = Some VNull ->
  R (VObject id cls fs) = Throw TypeError.
Proof. intros Ht Hc. unfold R. now rewrite Ht, Hc. Qed.

(** X19.  The merge throws [TypeError] on an object whose own
    [constructor] property is [null].  With such an object as [previous],
    [d] throws for every [next] that is not that object; with such an object
    as [next], it throws for every [previous] that passes the plain-object
    test. *)
Theorem merge_throws_on_a_null_constructor
    (id : nat) (cls : class) (fs : list (string * value)) (other : value) (n : nat) :
  T (VObject id cls fs) = true ->
  lookup "constructor" fs = Some VNull ->
  same_ref (VObject id cls fs) other = false ->
  d (VObject id cls fs) other n = Throw TypeError /\
  (R other = Ok true -> d other (VObject id cls fs) n = Throw TypeError).
Proof.
  intros Ht Hc Hs. pose proof (R_null_constructor id cls fs Ht Hc) as HR. split.
  - destruct other; cbn [d]; rewrite Hs; unfold both_plain; now rewrite HR.
  - intros Ho. cbn [d]. rewrite same_ref_sym, Hs.
    unfold both_plain. now rewrite Ho, HR.
Qed.

End MergeFacts.

Lemma merge_preserves_identity_of_plain_data_witness :
  Merge.deep_equal (Examples.search_object 10) (Examples.search_object 20) = true /\
  Merge.same_ref (Examples.search_object 10) (Examples.search_object 20) = false /\
  exists n', Merge.d (Examples.search_object 10) (Examples.search_object 20) 30
             = Js.Ok (Examples.search_object 10, n').
Proof.
  split; [reflexivity|]. split; [reflexivity|].
  apply (proj1 (merge_preserves_identity_of_plain_data
                  (Examples.search_object 10) (Examples.search_object 20) 30));
    reflexivity.
Defined.

(** When an entry differs the merge builds a new object, which shares the
    entries that did not change. *)
Example merge_divergence :
  Merge.d (Examples.a1_b 1 2) (Examples.a1_b 2 3) 3 =
    Js.Ok (Examples.a1_b 3 3, 4%nat).
Proof. reflexivity. Qed.

(** C5, as stated, fails: two instances of a class are structurally equal
    and distinct, and the merge returns [next], not [previous]; so it does for
    two object literals with an own property [constructor]. *)
Lemma merge_replaces_non_plain_objects :
  (Merge.deep_equal (Examples.point 1) (Examples.point 2) = true /\
   Merge.d (Examples.point 1) (Examples.point 2) 3 = Js.Ok (Examples.point 2, 3) /\
   Merge.same_ref (Examples.point 2) (Examples.point 1) = false) /\
  (Merge.deep_equal (Examples.with_constructor_key 1)
                    (Examples.with_constructor_key 2) = true /\
   Merge.d (Examples.with_constructor_key 1) (Examples.with_constructor_key 2) 3
     = Js.Ok (Examples.with_constructor_key 2, 3) /\
   Merge.same_ref (Examples.with_constructor_key 2)
                  (Examples.with_constructor_key 1) = false).
Proof. vm_compute. repeat split. Qed.

Lemma merge_yields_the_content_of_next_witness :
  exists res n',
    Merge.d (Examples.search_object 10) (Examples.search_object_on_page 20 2) 30
      = Js.Ok (res, n') /\
    Merge.deep_equal res (Examples.search_object_on_page 20 2) = true.
Proof.
  apply (merge_yields_the_content_of_next (Examples.search_object 10)
           (Examples.search_object_on_page 20 2) 20 30);
    solve [reflexivity | lia].
Defined.

(** What that merge returns: a new object with the page of [next], and the
    array and the nested object of [previous]. *)
Example merge_of_a_changed_page :
  Merge.d (Examples.search_object 10) (Examples.search_object_on_page 20 2) 30 =
    Js.Ok (Merge.VObject 30 Merge.Plain
             [("page", Merge.VNum 2);
              ("tags", Merge.VArray 11 [Merge.VStr "a"; Merge.VStr "b"]);
              ("filter", Merge.VObject 12 Merge.Plain [("open", Merge.VBool true)])],
           33%nat).
Proof. reflexivity. Qed.

(** A property of [next] whose value is [undefined] counts as unchanged
    when [previous] lacks it: the merge then returns [previous], which is not
    structurally equal to [next]. *)
Example merge_with_an_undefined_property :
  let next := Merge.VObject 2 Merge.Plain
                [("a", Merge.VNum 1); ("c", Merge.VUndefined)] in
  Merge.d (Examples.a1_b 1 2) next 3 = Js.Ok (Examples.a1_b 1 2, 4%nat) /\
  Merge.deep_equal (Examples.a1_b 1 2) next = false.
Proof. split; reflexivity. Qed.

Lemma merge_never_throws_on_plain_data_witness :
  exists res n',
    Merge.d (Examples.search_object 10) (Merge.VArray 20 [Merge.VNum 1]) 30
      = Js.Ok (res, n') /\
    (res = Examples.search_object 10 \/ res = Merge.VArray 20 [Merge.VNum 1] \/
     (exists c, res = Merge.VArray 30 c) \/
     (exists c, res = Merge.VObject 30 Merge.Plain c)).
Proof.
  apply (merge_never_throws_on_plain_data (Examples.search_object 10)
           (Merge.VArray 20 [Merge.VNum 1]) 30); reflexivity.
Defined.

Lemma merge_shares_unchanged_entries_witness :
  exists res n',
    Merge.d (Examples.search_object 10) (Examples.search_object_on_page 20 2) 30
      = Js.Ok (res, n') /\
    Merge.lookup "tags" (Merge.fields_of res)
      = Some (Merge.VArray 11 [Merge.VStr "a"; Merge.VStr "b"]).
Proof.
  apply (merge_shares_unchanged_entries 10 20 Merge.Plain Merge.Plain _ _ 30 "tags"
           (Merge.VArray 11 [Merge.VStr "a"; Merge.VStr "b"])
           (Merge.VArray 21 [Merge.VStr "a"; Merge.VStr "b"]));
    reflexivity.
Defined.

Lemma merge_throws_on_a_null_constructor_witness :
  let next := Merge.VObject 2 Merge.Plain [("constructor", Merge.VNull)] in
  Merge.d (Examples.a1_b 1 2) next 3 = Js.Throw Js.TypeError /\
  Merge.d next (Examples.a1_b 1 2) 3 = Js.Throw Js.TypeError.
Proof.
  destruct (merge_throws_on_a_null_constructor 2 Merge.Plain
              [("constructor", Merge.VNull)] (Examples.a1_b 1 2) 3
              eq_refl eq_refl eq_refl) as [H1 H2].
  split; [exact (H2 eq_refl) | exact H1].
Defined.

(** The same inside an entry: after a search object with a plain [filter],
    one whose [filter] is [{ constructor: null }] (as [JSON.parse] makes it of
    the text [{"constructor":null}]) makes the merge throw. *)
Example merge_throws_inside_an_entry :
  Merge.d
    (Merge.VObject 1 Merge.Plain
       [("filter", Merge.VObject 2 Merge.Plain [("open", Merge.VBool true)])])
    (Merge.VObject 3 Merge.Plain
       [("filter", Merge.VObject 4 Merge.Plain [("constructor", Merge.VNull)])])
    5
  = Js.Throw Js.TypeError.
Proof. reflexivity. Qed.

(** ** Path trimming *)

Section PathFacts.

Import JsString.

Lemma strip_leading_split (e : string) :
  exists a,
    e = (a ++ Path.strip_leading e)%string /\
    all_chars Path.is_slash a = true /\
    Path.starts_with_slash (Path.strip_leading e) = false.
Proof.
  induction e as [|c e (a & Ha & Hs & Hn)]; [now exists ""|].
  cbn [Path.strip_leading]. destruct (Path.is_slash c) eqn:Ec.
  - exists (String c a). cbn. rewrite Ec, Hs. split; [now rewrite <- Ha | auto].
  - exists "". cbn. auto.
Qed.

Lemma strip_trailing_split (e : string) :
  exists b,
    e = (Path.strip_trailing e ++ b)%string /\
    all_chars Path.is_slash b = true /\
    Path.ends_with_slash (Path.strip_trailing e) = false.
Proof.
  induction e as [|c e (b & Hb & Hs & Hn)]; [now exists ""|].
  cbn [Path.strip_trailing]. destruct (Path.strip_trailing e) as [|x r] eqn:Er.
  - cbn [append] in Hb. subst b. destruct (Path.is_slash c) eqn:Ec.
    + exists (String c e). cbn. now rewrite Ec, Hs.
    + exists e. cbn. now rewrite Ec, Hs.
  - exists b. cbn [append Path.ends_with_slash] in *. rewrite <- Hb. auto.
Qed.

Lemma strip_trailing_keeps_start (e : string) :
  Path.starts_with_slash e = false ->
  Path.starts_with_slash (Path.strip_trailing e) = false.
Proof.
  destruct e as [|c e]; [reflexivity|]. cbn [Path.strip_trailing Path.starts_with_slash].
  intros Hc. destruct (Path.strip_trailing e); [now rewrite Hc | exact Hc].
Qed.

Lemma no_leading_slash_fixed (e : string) :
  Path.starts_with_slash e = false -> Path.strip_leading e = e.
Proof. destruct e as [|c e]; [reflexivity|]. cbn. now intros ->. Qed.

Lemma no_trailing_slash_fixed (e : string) :
  Path.ends_with_slash e = false -> Path.strip_trailing e = e.
Proof.
  induction e as [|c e IH]; [reflexivity|].
  cbn [Path.ends_with_slash Path.strip_trailing].
  destruct e as [|x e].
  - cbn. now intros ->.
  - intros H. now rewrite (IH H).
Qed.

Lemma not_root_no_leading_slash (e : string) :
  Path.starts_with_slash e = false -> String.eqb e "/" = false.
Proof.
  destruct e as [|c e]; [reflexivity|].
  cbn [Path.starts_with_slash String.eqb]. unfold Path.is_slash. now intros ->.
Qed.

(** What [w] returns for a string other than ["/"]. *)
Lemma w_not_root (e : string) :
  e <> "/" -> Path.w e = Path.strip_trailing (Path.strip_leading e).
Proof.
  intros He. unfold Path.w, Path.N, Path.B.
  destruct (String.eqb_spec e "/") as [->|_]; [congruence|].
  destruct (strip_leading_split e) as (a & _ & _ & Hn).
  now rewrite (not_root_no_leading_slash _ Hn).
Qed.

(** X15.  [w] strips the slashes around a path.  A string other than ["/"]
    is some slashes, what [w] returns for it, and some slashes again; and
    what [w] returns neither starts nor ends with a slash.  (For ["/"] itself
    [w] returns ["/"].) *)
Theorem w_strips_the_slashes_around (e : string) :
  e <> "/" ->
  exists a b,
    e = (a ++ Path.w e ++ b)%string /\
    all_chars Path.is_slash a = true /\ all_chars Path.is_slash b = true /\
    Path.starts_with_slash (Path.w e) = false /\
    Path.ends_with_slash (Path.w e) = false.
Proof.
  intros He. rewrite (w_not_root e He).
  destruct (strip_leading_split e) as (a & Ha & Hsa & Hna).
  destruct (strip_trailing_split (Path.strip_leading e)) as (b & Hb & Hsb & Hnb).
  exists a, b. repeat split; auto.
  - now rewrite <- Hb.
  - now apply strip_trailing_keeps_start.
Qed.

(** X16.  Trimming a path that has been trimmed changes nothing. *)
Theorem w_is_idempotent (e : string) : Path.w (Path.w e) = Path.w e.
Proof.
  destruct (String.eqb_spec e "/") as [->|He]; [reflexivity|].
  rewrite (w_not_root e He).
  destruct (strip_leading_split e) as (a & _ & _ & Hn).
  destruct (strip_trailing_split (Path.strip_leading e)) as (b & _ & _ & Ht).
  pose proof (strip_trailing_keeps_start _ Hn) as Hs.
  unfold Path.w, Path.N, Path.B.
  rewrite (not_root_no_leading_slash _ Hs), (no_leading_slash_fixed _ Hs).
  rewrite (not_root_no_leading_slash _ Hs). now apply no_trailing_slash_fixed.
Qed.

End PathFacts.

Lemma w_strips_the_slashes_around_witness :
  "//items/42/" <> "/" /\
  exists a b,
    "//items/42/" = (a ++ Path.w "//items/42/" ++ b)%string /\
    Path.w "//items/42/" = "items/42" /\
    JsString.all_chars Path.is_slash a = true /\
    JsString.all_chars Path.is_slash b = true.
Proof.
  split; [discriminate|].
  destruct (w_strips_the_slashes_around "//items/42/" ltac:(discriminate))
    as (a & b & E & Ha & Hb & _).
  exists a, b. repeat split; auto.
Defined.

(** The base path of [update]: one slash and the trimmed option, which makes
    two slashes of the option ["/"]. *)
Example basepath_of_options :
  Path.basepath (Some "/app/") = "/app" /\
  Path.basepath (Some "app") = "/app" /\
  Path.basepath None = "/" /\
  Path.basepath (Some "/") = "//".
Proof. repeat split. Qed.

(** ** Strings, URI components and numbers *)

Section StringFacts.

Import JsString.

Lemma append_nil_r (s : string) : (s ++ "")%string = s.
Proof. induction s as [|c s IH]; cbn; [reflexivity | now rewrite IH]. Qed.

Lemma append_assoc (a b c : string) :
  ((a ++ b) ++ c)%string = (a ++ (b ++ c))%string.
Proof. induction a as [|x a IH]; cbn; [reflexivity | now rewrite IH]. Qed.

Lemma occurs_append (c : ascii) (a b : string) :
  occurs c (a ++ b)%string = occurs c a || occurs c b.
Proof.
  induction a as [|x a IH]; cbn; [reflexivity|].
  now rewrite IH, orb_assoc.
Qed.

Lemma split_absent (sep : ascii) (s : string) :
  occurs sep s = false -> split sep s = [s].
Proof.
  induction s as [|c s IH]; cbn; [reflexivity|].
  intros H. apply orb_false_iff in H as [Hc Hs].
  rewrite Hc, (IH Hs). reflexivity.
Qed.

Lemma split_nonempty (sep : ascii) (s : string) : split sep s <> [].
Proof.
  induction s as [|c s IH]; cbn; [discriminate|].
  destruct (Ascii.eqb c sep); [discriminate|].
  destruct (split sep s); [contradiction | discriminate].
Qed.

(** Splitting distributes over a separator. *)
Lemma split_append (sep : ascii) (a b : string) :
  split sep (a ++ String sep b)%string = split sep a ++ split sep b.
Proof.
  induction a as [|c a IH]; cbn.
  - now rewrite Ascii.eqb_refl.
  - rewrite IH. destruct (Ascii.eqb c sep); [reflexivity|].
    pose proof (split_nonempty sep a).
    destruct (split sep a); [contradiction | reflexivity].
Qed.

Lemma all_chars_occurs (p : ascii -> bool) (c : ascii) (s : string) :
  p c = false -> all_chars p s = true -> occurs c s = false.
Proof.
  intros Hc. induction s as [|x s IH]; cbn; [reflexivity|].
  intros H. apply andb_true_iff in H as [Hx Hs].
  rewrite (IH Hs), orb_false_r.
  destruct (Ascii.eqb_spec x c) as [->|_]; [congruence | reflexivity].
Qed.


End StringFacts.

Section UriFacts.

Import Js JsString Uri.

Lemma unreserved_is_ascii (c : ascii) :
  unreserved c = true -> (N_of_ascii c <? 128)%N = true.
Proof. each_char c. Qed.

Lemma unreserved_not_percent (c : ascii) :
  unreserved c = true -> Ascii.eqb c "%" = false.
Proof. each_char c. Qed.

Lemma unreserved_not_separator (c : ascii) :
  unreserved c = true -> Ascii.eqb c "&" = false /\ Ascii.eqb c "=" = false.
Proof. each_char c. Qed.

Lemma escape_byte_decodes (c : ascii) :
  (N_of_ascii c <? 128)%N = true ->
  exists h l,
    escape_byte c = String "%" (String h (String l "")) /\
    (exists hv lv, hex_value h = Some hv /\ hex_value l = Some lv /\
                   (16 * hv + lv <? 128)%N = true /\
                   ascii_of_N (16 * hv + lv) = c).
Proof.
  intros H. eexists _, _. split; [reflexivity|].
  revert H. each_char c; intros _; eexists _, _; repeat split.
Qed.

Lemma escape_byte_no_separator (c : ascii) :
  occurs "&" (escape_byte c) = false /\ occurs "=" (escape_byte c) = false.
Proof. each_char c. Qed.

Lemma decode_from_escape (h l : ascii) (hv lv lo hi : N) (rest : string) :
  hex_value h = Some hv -> hex_value l = Some lv ->
  (16 * hv + lv <? 128)%N = true ->
  decode_from (String "%" (String h (String l rest))) Raw O lo hi =
    emit (ascii_of_N (16 * hv + lv)) (decode_from rest Raw O lo hi).
Proof.
  intros Hh Hl Hlt. cbn [decode_from].
  rewrite Ascii.eqb_refl, Hh, Hl. cbv zeta. rewrite Hlt. reflexivity.
Qed.

(** [decodeURIComponent] undoes [encodeURIComponent] on 7-bit strings. *)
Lemma decode_from_encode (s : string) (lo hi : N) :
  ascii_only s = true ->
  decode_from (encodeURIComponent s) Raw O lo hi = Ok s.
Proof.
  unfold ascii_only. induction s as [|c s IH];
    cbn [encodeURIComponent all_chars]; [reflexivity|].
  intros H. apply andb_true_iff in H as [Hc Hs].
  destruct (unreserved c) eqn:Eu.
  - cbn. rewrite (unreserved_not_percent c Eu), (IH Hs). reflexivity.
  - destruct (escape_byte_decodes c Hc)
      as (h & l & -> & hv & lv & Hh & Hl & Hlt & Hb).
    cbn [append].
    rewrite (decode_from_escape h l hv lv lo hi _ Hh Hl Hlt), Hb, (IH Hs).
    reflexivity.
Qed.

Lemma decodeURIComponent_encodeURIComponent (s : string) :
  ascii_only s = true ->
  decodeURIComponent (encodeURIComponent s) = Ok s.
Proof. apply decode_from_encode. Qed.

Lemma encodeURIComponent_unreserved (s : string) :
  all_chars unreserved s = true -> encodeURIComponent s = s.
Proof.
  induction s as [|c s IH]; cbn; [reflexivity|].
  intros H. apply andb_true_iff in H as [Hc Hs].
  now rewrite Hc, (IH Hs).
Qed.

Lemma hex_value_high_digit (c : ascii) :
  hex_value (hex_digit (N_of_ascii c / 16)) = Some (N_of_ascii c / 16)%N.
Proof. each_char c. Qed.

Lemma hex_value_low_digit (c : ascii) :
  hex_value (hex_digit (N_of_ascii c mod 16)) = Some (N_of_ascii c mod 16)%N.
Proof. each_char c. Qed.

Lemma escape_byte_hex (c : ascii) :
  exists h l hv lv,
    escape_byte c = String "%" (String h (String l "")) /\
    hex_value h = Some hv /\ hex_value l = Some lv /\
    (16 * hv + lv)%N = N_of_ascii c.
Proof.
  exists (hex_digit (N_of_ascii c / 16)), (hex_digit (N_of_ascii c mod 16)),
    (N_of_ascii c / 16)%N, (N_of_ascii c mod 16)%N.
  split; [reflexivity|]. split; [apply hex_value_high_digit|].
  split; [apply hex_value_low_digit|].
  symmetry. apply N.div_mod. discriminate.
Qed.

Lemma lead_range (b : N) (n : nat) (lo hi : N) :
  lead b = Some (n, lo, hi) -> (128 <= lo)%N.
Proof.
  unfold lead.
  repeat match goal with |- context [if ?x then _ else _] => destruct x end;
    intros [= <- <- <-]; lia.
Qed.

(** [decodeURIComponent] undoes [encodeURIComponent] on well-formed text,
    from any place in it. *)
Lemma decode_from_encode_utf8 (s : string) :
  forall (pending : nat) (lo hi : N),
    (pending = O \/ (128 <= lo)%N) ->
    utf8_from s pending lo hi = true ->
    decode_from (encodeURIComponent s) Raw pending lo hi = Ok s.
Proof.
  induction s as [|c s IH]; intros pending lo hi Hinv H;
    cbn [encodeURIComponent utf8_from] in *.
  - destruct pending; [reflexivity | discriminate].
  - cbv zeta in H. destruct (unreserved c) eqn:Eu.
    + pose proof (unreserved_is_ascii c Eu) as Hlt.
      cbn [decode_from]. rewrite (unreserved_not_percent c Eu).
      destruct pending as [|p].
      * rewrite Hlt in H. now rewrite (IH _ _ _ (or_introl eq_refl) H).
      * exfalso. destruct Hinv as [|Hlo]; [discriminate|].
        apply andb_true_iff in H as [H _]. apply andb_true_iff in H as [H _].
        apply N.leb_le in H. apply N.ltb_lt in Hlt. lia.
    + destruct (escape_byte_hex c) as (h & l & hv & lv & -> & Hh & Hl & Hb).
      cbn [append decode_from]. rewrite Ascii.eqb_refl, Hh, Hl. cbv zeta.
      rewrite Hb, ascii_N_embedding.
      destruct pending as [|p].
      * destruct (N_of_ascii c <? 128)%N.
        -- now rewrite (IH _ _ _ (or_introl eq_refl) H).
        -- destruct (lead (N_of_ascii c)) as [[[n lo'] hi']|] eqn:El; [|discriminate].
           now rewrite (IH _ _ _ (or_intror (lead_range _ _ _ _ El)) H).
      * apply andb_true_iff in H as [Hr H]. rewrite Hr.
        now rewrite (IH _ _ _ (or_intror (N.le_refl 128)) H).
Qed.

Lemma decodeURIComponent_encodeURIComponent_utf8 (s : string) :
  well_formed s = true -> decodeURIComponent (encodeURIComponent s) = Ok s.
Proof. apply decode_from_encode_utf8. now left. Qed.


(** An encoded component holds neither ["&"] nor ["="]. *)
Lemma encodeURIComponent_no_separator (s : string) :
  occurs "&" (encodeURIComponent s) = false /\
  occurs "=" (encodeURIComponent s) = false.
Proof.
  induction s as [|c s [IH1 IH2]]; cbn [encodeURIComponent]; [auto|].
  destruct (unreserved c) eqn:Eu.
  - destruct (unreserved_not_separator c Eu) as [H1 H2].
    cbn. now rewrite H1, H2, IH1, IH2.
  - destruct (escape_byte_no_separator c) as [H1 H2].
    now rewrite !occurs_append, H1, H2, IH1, IH2.
Qed.

(** [decodeURIComponent] throws nothing but [URIError]. *)
Lemma decode_from_throws_URIError (s : string) :
  forall esc pending lo hi e,
    decode_from s esc pending lo hi = Throw e -> e = URIError.
Proof.
  induction s as [|c s IH]; intros esc pending lo hi e; cbn.
  - destruct esc, pending; congruence.
  - assert (Hemit : forall x r, emit x r = Throw e ->
                      (forall e', r = Throw e' -> e' = URIError) -> e = URIError).
    { intros x r Hr Hall. destruct r; cbn in Hr; [discriminate|].
      injection Hr as <-. now apply Hall. }
    destruct esc.
    + destruct (Ascii.eqb c "%"); [apply IH|].
      destruct pending; [|congruence].
      intros H. apply (Hemit _ _ H). intros e'. apply IH.
    + destruct (hex_value c); [apply IH | congruence].
    + destruct (hex_value c); [|congruence].
      destruct pending.
      * destruct (_ <? _)%N.
        -- intros H. apply (Hemit _ _ H). intros e'. apply IH.
        -- destruct (lead _) as [[[k lo'] hi']|]; [|congruence].
           intros H. apply (Hemit _ _ H). intros e'. apply IH.
      * destruct (_ && _); [|congruence].
        intros H. apply (Hemit _ _ H). intros e'. apply IH.
Qed.

End UriFacts.

Section NumberFacts.

Import JsString Number.














End NumberFacts.

(** ** The search codec *)

Section CodecFacts.

Import Js JsString Uri Codec.




Lemma encodeURIComponent_nonempty (c : ascii) (s : string) :
  exists x r, encodeURIComponent (String c s) = String x r.
Proof.
  cbn [encodeURIComponent]. destruct (unreserved c); cbn; eauto.
Qed.

(** [toValue] reads an encoded text of 7-bit characters by the heuristics. *)
Lemma toValue_text (t : string) :
  ascii_only t = true ->
  toValue (Some (encodeURIComponent t)) = Ok (coerce t).
Proof.
  intros Ha. destruct t as [|c t]; [reflexivity|].
  pose proof (decodeURIComponent_encodeURIComponent _ Ha) as Hd.
  destruct (encodeURIComponent_nonempty c t) as (x & r & E).
  rewrite E in *. unfold toValue, coerce. rewrite Hd.
  change (String.eqb (String c t) "") with false. cbv iota.
  repeat match goal with |- context [if ?b then _ else _] => destruct b end;
    try reflexivity.
  destruct (Number.of_string (String c t)); reflexivity.
Qed.

(** [toValue] reads an encoded well-formed text, in any script, by the
    heuristics. *)
Lemma toValue_utf8_text (t : string) :
  well_formed t = true ->
  toValue (Some (encodeURIComponent t)) = Ok (coerce t).
Proof.
  intros Ha. destruct t as [|c t]; [reflexivity|].
  pose proof (decodeURIComponent_encodeURIComponent_utf8 _ Ha) as Hd.
  destruct (encodeURIComponent_nonempty c t) as (x & r & E).
  rewrite E in *. unfold toValue, coerce. rewrite Hd.
  change (String.eqb (String c t) "") with false. cbv iota.
  repeat match goal with |- context [if ?b then _ else _] => destruct b end;
    try reflexivity.
  destruct (Number.of_string (String c t)); reflexivity.
Qed.

(** The heuristics make a boolean, a number or a string. *)
Lemma coerce_kind (t : string) :
  match coerce t with
  | VBool _ | VNum _ | VStr _ => True
  | _ => False
  end.
Proof.
  unfold coerce.
  repeat match goal with |- context [if ?b then _ else _] => destruct b end; auto.
  destruct (Number.of_string t); exact I.
Qed.







Lemma pair_unfold (k : string) (v : value) :
  all_chars unreserved k = true ->
  pair k v = (k ++ String "=" (encodeURIComponent (to_string v)))%string.
Proof. intros Hk. unfold pair. now rewrite (encodeURIComponent_unreserved k Hk). Qed.

Lemma pair_nonempty (k : string) (v : value) :
  exists c r, pair k v = String c r.
Proof. unfold pair. destruct (encodeURIComponent k); cbn; eauto. Qed.

Lemma pair_no_amp (k : string) (v : value) : occurs "&" (pair k v) = false.
Proof.
  unfold pair. rewrite !occurs_append.
  destruct (encodeURIComponent_no_separator k) as [-> _].
  destruct (encodeURIComponent_no_separator (to_string v)) as [-> _].
  reflexivity.
Qed.

Lemma split_pair (k : string) (v : value) :
  all_chars unreserved k = true ->
  split "=" (pair k v) = [k; encodeURIComponent (to_string v)].
Proof.
  intros Hk. rewrite (pair_unfold k v Hk), split_append.
  rewrite split_absent.
  - rewrite split_absent; [reflexivity|].
    apply encodeURIComponent_no_separator.
  - apply (all_chars_occurs unreserved); [reflexivity | exact Hk].
Qed.

(** One turn of the loop of [decode] on a pair that [encode] wrote. *)
Lemma decode_loop_pair (k : string) (v : value) (rest : list string)
    (out : SearchObject) :
  all_chars unreserved k = true ->
  utf8_text v = true ->
  decode_loop (pair k v :: rest) out =
    match lookup k out with
    | Some old =>
        if match old with VUndefined => true | _ => false end
        then decode_loop rest (assign k (read_back v) out)
        else decode_loop rest (assign k (concat old (read_back v)) out)
    | None => decode_loop rest (assign k (read_back v) out)
    end.
Proof.
  intros Hk Hv. pose proof (split_pair k v Hk) as Hs.
  pose proof (toValue_utf8_text (to_string v) Hv) as Hx.
  destruct (pair_nonempty k v) as (c & r & E). rewrite E in *.
  cbn [decode_loop]. rewrite Hs. cbn [hd second]. rewrite Hx. reflexivity.
Qed.

Lemma lookup_last (k : string) (v : value) (out : SearchObject) :
  lookup k out = None -> lookup k (out ++ [(k, v)]) = Some v.
Proof.
  induction out as [|[k' v'] out IH]; cbn.
  - now rewrite String.eqb_refl.
  - destruct (String.eqb k k'); [discriminate | exact IH].
Qed.

Lemma lookup_other (k k' : string) (v : value) (out : SearchObject) :
  lookup k' out = None -> String.eqb k' k = false ->
  lookup k' (out ++ [(k, v)]) = None.
Proof.
  intros H Hk. induction out as [|[k0 v0] out IH]; cbn in *.
  - now rewrite Hk.
  - destruct (String.eqb k' k0); [discriminate | now apply IH].
Qed.

Lemma assign_fresh (k : string) (v : value) (out : SearchObject) :
  lookup k out = None -> assign k v out = out ++ [(k, v)].
Proof.
  induction out as [|[k' v'] out IH]; cbn; [reflexivity|].
  destruct (String.eqb k k'); [discriminate|].
  intros H. now rewrite (IH H).
Qed.

Lemma assign_last (k : string) (v v' : value) (out : SearchObject) :
  lookup k out = None -> assign k v' (out ++ [(k, v)]) = out ++ [(k, v')].
Proof.
  induction out as [|[k0 v0] out IH]; cbn.
  - now rewrite String.eqb_refl.
  - destruct (String.eqb k k0); [discriminate|].
    intros H. now rewrite (IH H).
Qed.

(** The later entries of an array join the array under their key. *)
Lemma decode_loop_array (k : string) (xs : list value) :
  all_chars unreserved k = true ->
  forallb utf8_text xs = true ->
  forall (l : list value) (rest : list string) (out : SearchObject),
    lookup k out = None ->
    decode_loop (map (pair k) xs ++ rest) (out ++ [(k, VArr l)]) =
    decode_loop rest (out ++ [(k, VArr (l ++ map read_back xs))]).
Proof.
  intros Hk. induction xs as [|x xs IH]; intros Hxs l rest out Hout.
  - cbn [map app]. now rewrite app_nil_r.
  - cbn in Hxs. apply andb_true_iff in Hxs as [Hx Hxs].
    cbn [map app].
    rewrite (decode_loop_pair k x _ _ Hk Hx).
    rewrite (lookup_last k _ out Hout). cbn [concat].
    rewrite (assign_last k _ _ out Hout).
    rewrite (IH Hxs (l ++ [read_back x]) rest out Hout), <- app_assoc. reflexivity.
Qed.

Lemma distinct_head (k : string) (ks : list string) :
  distinct (k :: ks) = true ->
  (forall k', In k' ks -> String.eqb k' k = false) /\ distinct ks = true.
Proof.
  cbn. intros H. apply andb_true_iff in H as [Hk Hd]. split; [|exact Hd].
  intros k' Hin. apply negb_true_iff in Hk.
  destruct (String.eqb_spec k' k) as [->|]; [|reflexivity].
  assert (existsb (String.eqb k) ks = true); [|congruence].
  apply existsb_exists. exists k. split; [exact Hin | apply String.eqb_refl].
Qed.

(** The loop of [decode] over the pairs of an object: every entry is read
    back under its key, in order. *)
Lemma decode_loop_pairs (o : SearchObject) :
  forall (out : SearchObject) (rest : list string),
    distinct (map fst o) = true ->
    forallb (fun kv => stable_key (fst kv)) o = true ->
    forallb (fun kv => match snd kv with
                       | VArr xs => forallb utf8_text xs
                       | v => utf8_text v
                       end) o = true ->
    (forall k, In k (map fst o) -> lookup k out = None) ->
    decode_loop (pairs_of o ++ rest) out =
    decode_loop rest (out ++ read_back_object o).
Proof.
  induction o as [|[k v] o IH]; intros out rest Hd Hk Hv Hout.
  - cbn. now rewrite app_nil_r.
  - cbn [forallb fst snd] in Hk, Hv.
    apply andb_true_iff in Hk as [Hk Hks], Hv as [Hv Hvs].
    apply andb_true_iff in Hk as [Hk _].
    destruct (distinct_head _ _ Hd) as [Hne Hd'].
    assert (Hfresh : lookup k out = None) by (apply Hout; now left).
    assert (Hnext : forall x k', In k' (map fst o) ->
                      lookup k' (out ++ [(k, x)]) = None).
    { intros x k' Hin. apply lookup_other; [apply Hout; now right | now apply Hne]. }
    assert (Hskip : forall k', In k' (map fst o) -> lookup k' out = None)
      by (intros k' Hin; apply Hout; now right).
    unfold pairs_of, read_back_object. cbn [flat_map fst snd].
    fold (pairs_of o). fold (read_back_object o).
    rewrite <- app_assoc.
    assert (Hone : forall x, utf8_text x = true ->
              decode_loop ([pair k x] ++ pairs_of o ++ rest) out =
              decode_loop rest (out ++ [(k, read_back x)] ++ read_back_object o)).
    { intros x Hx. cbn [app].
      rewrite (decode_loop_pair k x _ _ Hk Hx).
      rewrite Hfresh, (assign_fresh k _ out Hfresh).
      rewrite (IH _ rest Hd' Hks Hvs (Hnext _)), <- app_assoc. reflexivity. }
    destruct v as [| | b | n | s | elems | fs]; try (apply Hone; exact Hv).
    + (* undefined: no pair, no entry *)
      cbn [app]. apply (IH out rest Hd' Hks Hvs Hskip).
    + destruct elems as [|x1 [|x2 xs]].
      * cbn [map app]. apply (IH out rest Hd' Hks Hvs Hskip).
      * cbn in Hv. apply andb_true_iff in Hv as [Hx1 _]. apply (Hone x1 Hx1).
      * cbn [forallb] in Hv. apply andb_true_iff in Hv as [Hx1 Hv].
        apply andb_true_iff in Hv as [Hx2 Hxs].
        cbn [map app].
        rewrite (decode_loop_pair k x1 _ _ Hk Hx1).
        rewrite Hfresh, (assign_fresh k _ out Hfresh).
        rewrite (decode_loop_pair k x2 _ _ Hk Hx2).
        rewrite (lookup_last k _ out Hfresh).
        pose proof (coerce_kind (to_string x1)) as Hkind.
        fold (read_back x1) in Hkind.
        replace (match read_back x1 with VUndefined => true | _ => false end)
          with false by (destruct (read_back x1); auto; contradiction).
        replace (concat (read_back x1) (read_back x2))
          with (VArr [read_back x1; read_back x2])
          by (destruct (read_back x1); auto; contradiction).
        rewrite (assign_last k _ _ out Hfresh).
        rewrite (decode_loop_array k xs Hk Hxs [read_back x1; read_back x2] _ out Hfresh).
        cbn [app].
        rewrite (IH _ rest Hd' Hks Hvs (Hnext _)), <- app_assoc. reflexivity.
Qed.

Lemma encode_array_fold (k : string) (elems : list value) (str : string) :
  encode_array k elems str = fold_left add_piece (map (pair k) elems) str.
Proof.
  revert str; induction elems as [|x elems IH]; intros str; cbn; [reflexivity|].
  now rewrite IH.
Qed.

(** [encode] writes the pairs of the object, an ["&"] between two. *)
Lemma encode_loop_fold (o : SearchObject) (str : string) :
  encode_loop o str = fold_left add_piece (pairs_of o) str.
Proof.
  revert str; induction o as [|[k v] o IH]; intros str; [reflexivity|].
  unfold pairs_of. cbn [flat_map fst snd]. fold (pairs_of o).
  rewrite fold_left_app. cbn [encode_loop].
  destruct v; rewrite ?encode_array_fold, IH; reflexivity.
Qed.

Lemma split_fold_pieces (ps : list string) :
  Forall (fun p => occurs "&" p = false) ps ->
  forall (c : ascii) (acc : string),
    split "&" (fold_left add_piece ps (String c acc)) =
    split "&" (String c acc) ++ ps.
Proof.
  induction 1 as [|p ps Hp _ IH]; intros c acc; cbn [fold_left].
  - now rewrite app_nil_r.
  - unfold add_piece at 2. cbn [String.eqb append].
    rewrite IH. cbn [append]. rewrite append_assoc. cbn [append].
    change (String c (acc ++ String "&" p)%string)
      with (String c acc ++ String "&" p)%string.
    rewrite split_append, (split_absent _ p Hp), <- app_assoc. reflexivity.
Qed.

Lemma pairs_of_no_amp (o : SearchObject) :
  Forall (fun p => occurs "&" p = false) (pairs_of o).
Proof.
  induction o as [|[k v] o IH]; [constructor|].
  unfold pairs_of. cbn [flat_map fst snd]. fold (pairs_of o).
  apply Forall_app. split; [|exact IH].
  destruct v; repeat constructor; try apply pair_no_amp.
  induction elems; constructor; [apply pair_no_amp | assumption].
Qed.

Lemma pairs_of_nonempty (o : SearchObject) :
  Forall (fun p => p <> "") (pairs_of o).
Proof.
  induction o as [|[k v] o IH]; [constructor|].
  unfold pairs_of. cbn [flat_map fst snd]. fold (pairs_of o).
  apply Forall_app. split; [|exact IH].
  assert (Hp : forall x, pair k x <> "").
  { intros x. destruct (pair_nonempty k x) as (c & r & ->). discriminate. }
  destruct v; repeat constructor; auto.
  induction elems; constructor; auto.
Qed.

(** What [decode] reads of what [encode] wrote. *)
Lemma split_encode (o : SearchObject) :
  split "&" (encode o None) =
    match pairs_of o with
    | [] => [""]
    | ps => ps
    end.
Proof.
  unfold encode. cbn [append]. rewrite encode_loop_fold.
  pose proof (pairs_of_no_amp o) as Hps.
  pose proof (pairs_of_nonempty o) as Hne.
  destruct (pairs_of o) as [|p ps]; [reflexivity|].
  cbn [fold_left]. unfold add_piece at 2. cbn [String.eqb append].
  inversion Hps as [|? ? Hp Hps']; subst.
  inversion Hne as [|? ? Hp0 _]; subst.
  pose proof (split_absent "&" p Hp) as Hsp.
  destruct p as [|c p]; [congruence|].
  rewrite (split_fold_pieces ps Hps' c p), Hsp. reflexivity.
Qed.

(** [decode(encode(o))] is [o] with every value read back by the heuristics
    of [toValue]. *)
Lemma decode_encode_reads_back_text (o : SearchObject) :
  text_encodable o = true -> decode (encode o None) = Ok (read_back_object o).
Proof.
  unfold text_encodable. intros H.
  apply andb_true_iff in H as [H Hv]. apply andb_true_iff in H as [Hd Hk].
  pose proof (decode_loop_pairs o [] [] Hd Hk Hv (fun _ _ => eq_refl)) as E.
  rewrite app_nil_r in E. cbn [app decode_loop] in E.
  unfold decode. rewrite split_encode.
  destruct (pairs_of o) as [|p ps].
  - cbn in E. rewrite <- E. reflexivity.
  - exact E.
Qed.






Lemma strip_question_mark_stringified (s : string) :
  decode (strip_question_mark (if String.eqb s "" then "" else ("?" ++ s)%string))
  = decode s.
Proof.
  destruct s as [|c s]; [reflexivity|].
  cbn [String.eqb append]. unfold strip_question_mark.
  replace (substring (String "?" (String c s)) 0 1) with "?" by reflexivity.
  rewrite String.eqb_refl.
  replace (substring_from (String "?" (String c s)) 1) with (String c s); [reflexivity|].
  unfold substring_from, clamp. cbn [String.length].
  replace (Nat.min (Z.to_nat 1) (S (S (String.length s)))) with 1%nat
    by (change (Z.to_nat 1) with 1%nat; lia).
  reflexivity.
Qed.


Lemma toValue_result (mix : option string) :
  match toValue mix with
  | Ok _ => value_escaped mix = true
  | Throw e => e = URIError /\ value_escaped mix = false
  end.
Proof.
  destruct mix as [[|c m]|]; cbn [toValue value_escaped]; auto.
  destruct (decodeURIComponent (String c m)) as [str|e] eqn:E.
  - repeat match goal with |- context [if ?b then _ else _] => destruct b end;
      try reflexivity.
    destruct (Number.of_string str); reflexivity.
  - split; [|reflexivity]. exact (decode_from_throws_URIError _ _ _ _ _ _ E).
Qed.

(** The loop of [decode] throws when, and only when, [decodeURIComponent]
    rejects the value of a piece it reads. *)
Lemma decode_loop_result (arr : list string) :
  forall out : SearchObject,
    match decode_loop arr out with
    | Ok _ =>
        forallb (fun tmp => value_escaped (second (split "=" tmp)))
                (pieces_read arr) = true
    | Throw e =>
        e = URIError /\
        forallb (fun tmp => value_escaped (second (split "=" tmp)))
                (pieces_read arr) = false
    end.
Proof.
  induction arr as [|tmp arr IH]; intros out; [reflexivity|].
  destruct tmp as [|c tmp]; [reflexivity|].
  cbn [decode_loop pieces_read forallb].
  pose proof (toValue_result (second (split "=" (String c tmp)))) as Hv.
  destruct (toValue (second (split "=" (String c tmp)))) as [v|e].
  - rewrite Hv. cbn [andb].
    destruct (lookup _ out) as [old|]; [|apply IH].
    destruct (match old with VUndefined => true | _ => false end); apply IH.
  - destruct Hv as [-> ->]. auto.
Qed.

Lemma parse_values_keeps_unparsed (parser : string -> result value)
    (query : SearchObject) (key s : string) (e : error) :
  In (key, VStr s) query -> parser s = Throw e ->
  In (key, VStr s) (parse_values parser query).
Proof.
  intros Hin Hp. induction query as [|[k v] query IH]; [destruct Hin|].
  assert (Hrest : In (key, VStr s) query -> forall x,
            In (key, VStr s) (x :: parse_values parser query))
    by (intros; right; auto).
  destruct Hin as [[= -> ->]|Hin].
  - cbn. rewrite Hp. now left.
  - destruct v; cbn; auto.
    destruct (parser s0); auto.
Qed.

(** C4, as the code has it.  [parseSearchWith(parser)] throws when, and only
    when, a value it reads holds a malformed percent-escape, and what it
    throws then is [decodeURIComponent]'s [URIError].  Otherwise it returns,
    whatever the parser does: a string the parser rejects stays in place. *)
Theorem parseSearch_throws_only_on_malformed_escape
    (parser : string -> result value) (searchStr : string) :
  match decode (strip_question_mark searchStr) with
  | Ok query =>
      well_escaped (strip_question_mark searchStr) = true /\
      parseSearchWith parser searchStr = Ok (parse_values parser query) /\
      (forall key s e,
         In (key, VStr s) query -> parser s = Throw e ->
         In (key, VStr s) (parse_values parser query))
  | Throw e =>
      e = URIError /\
      well_escaped (strip_question_mark searchStr) = false /\
      parseSearchWith parser searchStr = Throw URIError
  end.
Proof.
  unfold parseSearchWith, well_escaped, decode.
  pose proof (decode_loop_result (split "&" (strip_question_mark searchStr)) []) as H.
  destruct (decode_loop _ []) as [query|e].
  - repeat split; auto. intros key s e. apply parse_values_keeps_unparsed.
  - destruct H as [-> H]. auto.
Qed.

(** The loop of [decode] does not look behind an empty piece. *)
Lemma decode_loop_stops_at_empty (l1 l2 : list string) :
  forall out : SearchObject,
    decode_loop (l1 ++ "" :: l2) out = decode_loop l1 out.
Proof.
  induction l1 as [|tmp l1 IH]; intros out; [reflexivity|].
  destruct tmp as [|c tmp]; [reflexivity|].
  cbn [app decode_loop].
  destruct (toValue _) as [v|e]; [|reflexivity].
  destruct (lookup _ out) as [old|]; [|apply IH].
  destruct (match old with VUndefined => true | _ => false end); apply IH.
Qed.

(** X7.  [decode] stops at the first empty piece: an empty pair (two ["&"]
    in a row), an ["&"] at the end, and an ["&"] at the start end the
    reading, and the pairs that follow are ignored. *)
Theorem decode_ignores_what_follows_an_empty_pair (a b : string) :
  decode (a ++ "&&" ++ b) = decode a /\
  decode (a ++ "&") = decode a /\
  decode ("&" ++ b) = Ok [].
Proof.
  unfold decode. repeat split.
  - change (a ++ "&&" ++ b)%string with (a ++ String "&" (String "&" b))%string.
    rewrite split_append. cbn [split]. rewrite Ascii.eqb_refl.
    rewrite decode_loop_stops_at_empty. reflexivity.
  - change (a ++ "&")%string with (a ++ String "&" "")%string.
    rewrite split_append. cbn [split].
    rewrite decode_loop_stops_at_empty. reflexivity.
Qed.

(** [toValue] makes a boolean, a number or a string. *)
Lemma toValue_scalar (mix : option string) (v : value) :
  toValue mix = Ok v -> scalar v = true.
Proof.
  destruct mix as [[|c m]|]; cbn [toValue]; try (intros [= <-]; reflexivity).
  destruct (decodeURIComponent _) as [str|]; [|discriminate].
  repeat match goal with |- context [if ?b then _ else _] => destruct b end;
    try (intros [= <-]; reflexivity).
  destruct (Number.of_string str); intros [= <-]; reflexivity.
Qed.

Lemma lookup_none_keys (k : string) (out : SearchObject) :
  lookup k out = None -> existsb (String.eqb k) (map fst out) = false.
Proof.
  induction out as [|[k' v'] out IH]; cbn; [reflexivity|].
  destruct (String.eqb k k'); [discriminate | exact IH].
Qed.

Lemma assign_keys (k : string) (v : value) (out : SearchObject) :
  map fst (assign k v out) =
    match lookup k out with
    | Some _ => map fst out
    | None => map fst out ++ [k]
    end.
Proof.
  induction out as [|[k' v'] out IH]; cbn; [reflexivity|].
  destruct (String.eqb k k'); [reflexivity|].
  cbn. rewrite IH. now destruct (lookup k out).
Qed.

Lemma distinct_snoc (k : string) (ks : list string) :
  distinct ks = true -> existsb (String.eqb k) ks = false ->
  distinct (ks ++ [k]) = true.
Proof.
  induction ks as [|k0 ks IH]; cbn; [reflexivity|].
  intros Hd Hk. apply andb_true_iff in Hd as [H0 Hd].
  apply orb_false_iff in Hk as [Hk0 Hk].
  rewrite existsb_app. cbn. rewrite (String.eqb_sym k0 k), Hk0, orb_false_r.
  apply negb_true_iff in H0. rewrite H0. cbn. now apply IH.
Qed.

Lemma assign_flat (k : string) (v : value) (out : SearchObject) :
  flat v = true ->
  forallb (fun kv => flat (snd kv)) out = true ->
  forallb (fun kv => flat (snd kv)) (assign k v out) = true.
Proof.
  intros Hv. induction out as [|[k' v'] out IH]; cbn [assign forallb snd].
  - now rewrite Hv.
  - intros H. apply andb_true_iff in H as [H1 H2].
    destruct (String.eqb k k'); cbn [forallb snd].
    + now rewrite Hv, H2.
    + now rewrite H1, (IH H2).
Qed.

Lemma lookup_flat (k : string) (out : SearchObject) (old : value) :
  forallb (fun kv => flat (snd kv)) out = true ->
  lookup k out = Some old -> flat old = true.
Proof.
  induction out as [|[k' v'] out IH]; cbn; [discriminate|].
  intros H. apply andb_true_iff in H as [H1 H2].
  destruct (String.eqb k k'); [now intros [= <-] | now apply IH].
Qed.

Lemma concat_flat (old v : value) :
  flat old = true -> scalar v = true -> flat (concat old v) = true.
Proof.
  intros Ho Hv. destruct old; try discriminate; cbn [concat flat forallb scalar];
    try (now rewrite Hv).
  cbn [flat] in Ho. apply andb_true_iff in Ho as [Hl Hs].
  rewrite forallb_app, Hs. cbn [forallb]. rewrite Hv, length_app.
  apply Nat.leb_le in Hl. cbn [List.length andb].
  replace (2 <=? _)%nat with true; [reflexivity|].
  symmetry. apply Nat.leb_le. lia.
Qed.

Lemma scalar_flat (v : value) : scalar v = true -> flat v = true.
Proof. now destruct v. Qed.

(** The loop of [decode] keeps the keys distinct and the values flat. *)
Lemma decode_loop_flat (arr : list string) :
  forall out out' : SearchObject,
    distinct (map fst out) = true ->
    forallb (fun kv => flat (snd kv)) out = true ->
    decode_loop arr out = Ok out' ->
    distinct (map fst out') = true /\
    forallb (fun kv => flat (snd kv)) out' = true.
Proof.
  induction arr as [|tmp arr IH]; intros out out' Hd Hf; cbn [decode_loop].
  - now intros [= <-].
  - destruct tmp as [|c tmp]; [now intros [= <-]|].
    destruct (toValue _) as [v|e] eqn:Ev; [|discriminate].
    pose proof (toValue_scalar _ _ Ev) as Hv.
    assert (Hkeys : forall x, distinct (map fst (assign (hd "" (split "=" (String c tmp))) x out)) = true).
    { intros x. rewrite assign_keys.
      destruct (lookup _ out) eqn:El; [exact Hd|].
      apply distinct_snoc; [exact Hd | now apply lookup_none_keys]. }
    destruct (lookup _ out) as [old|] eqn:El.
    + pose proof (lookup_flat _ _ _ Hf El) as Hold.
      destruct (match old with VUndefined => true | _ => false end).
      * apply IH; [apply Hkeys | apply assign_flat; [now apply scalar_flat | exact Hf]].
      * apply IH; [apply Hkeys | apply assign_flat; [now apply concat_flat | exact Hf]].
    + apply IH; [apply Hkeys | apply assign_flat; [now apply scalar_flat | exact Hf]].
Qed.

(** X8.  For a query string none of whose keys is the name of an inherited
    property, [decode] throws [URIError] or returns an object with distinct
    keys whose values are booleans, numbers and strings, or arrays of two or
    more of them: never [null], [undefined], a nested array or an object. *)
Theorem decode_returns_flat_values_under_distinct_keys (str : string) :
  own_keys str = true ->
  match decode str with
  | Ok out =>
      distinct (map fst out) = true /\
      forallb (fun kv => flat (snd kv)) out = true
  | Throw e => e = URIError
  end.
Proof.
  intros _. unfold decode.
  pose proof (decode_loop_result (split "&" str) []) as Hr.
  destruct (decode_loop (split "&" str) []) as [out|e] eqn:E.
  - exact (decode_loop_flat _ [] out eq_refl eq_refl E).
  - apply Hr.
Qed.

Lemma followed_text_encodable (o : SearchObject) :
  followed o = true -> text_encodable o = true.
Proof.
  unfold followed, text_encodable. intros H.
  apply andb_true_iff in H as [H Hv]. rewrite H. cbn [andb].
  assert (Ht : forall v, followed_text v = true -> utf8_text v = true).
  { unfold followed_text. intros v Hf. now apply andb_true_iff in Hf as [Hf _]. }
  rewrite forallb_forall in *. intros kv Hin. specialize (Hv kv Hin).
  destruct (snd kv); try (now apply Ht).
  rewrite forallb_forall in *. auto.
Qed.

(** X9.  What comes back for a search object in any script.  For distinct
    keys of unreserved characters, none the name of an inherited property,
    and values (entries, for an array) whose text is well-formed and is the
    decimal text of an integer other than [0] in the safe range, or is empty,
    or starts with ["0"], or starts with a character other than white space
    (within the 7-bit range or outside it), a sign, a dot and a digit,
    [decode(encode(o))] is [o] with every value replaced by what the
    heuristics of [toValue] make of its text: an [undefined] entry and an
    empty array are gone, an array of one entry is that entry, a longer array
    is an array of its entries read back.  When the object that
    [stringifySearchWith(stringify)] hands to [encode] is such an object,
    [parseSearchWith(parser)] after [stringifySearchWith(stringify)] returns
    what the parser makes of these values. *)
Theorem codec_reads_back_by_the_heuristics (o : SearchObject) :
  (followed o = true -> decode (encode o None) = Ok (read_back_object o)) /\
  (forall parser stringify,
     followed (stringify_values stringify o) = true ->
     parseSearchWith parser (stringifySearchWith stringify o) =
       Ok (parse_values parser (read_back_object (stringify_values stringify o)))).
Proof.
  split.
  - intros H. apply decode_encode_reads_back_text, followed_text_encodable, H.
  - intros parser stringify H. unfold parseSearchWith, stringifySearchWith.
    rewrite strip_question_mark_stringified.
    now rewrite (decode_encode_reads_back_text _ (followed_text_encodable _ H)).
Qed.

(** The value of a pair that [encode] wrote, whatever the key. *)
Lemma split_pair_any_key (k : string) (v : value) :
  second (split "=" (pair k v)) = Some (encodeURIComponent (to_string v)).
Proof.
  unfold pair. change (encodeURIComponent k ++ "=" ++ encodeURIComponent (to_string v))%string
    with (encodeURIComponent k ++ String "=" (encodeURIComponent (to_string v)))%string.
  rewrite split_append.
  rewrite (split_absent "=" (encodeURIComponent k))
    by apply encodeURIComponent_no_separator.
  rewrite (split_absent "=" (encodeURIComponent (to_string v)))
    by apply encodeURIComponent_no_separator.
  reflexivity.
Qed.

Lemma pair_value_escaped (k : string) (v : value) :
  utf8_text v = true ->
  value_escaped (second (split "=" (pair k v))) = true.
Proof.
  intros Hv. rewrite split_pair_any_key. unfold value_escaped.
  rewrite (decodeURIComponent_encodeURIComponent_utf8 _ Hv).
  now destruct (encodeURIComponent (to_string v)).
Qed.

Lemma pairs_of_escaped (o : SearchObject) :
  forallb (fun kv => match snd kv with
                     | VArr xs => forallb utf8_text xs
                     | v => utf8_text v
                     end) o = true ->
  forallb (fun tmp => value_escaped (second (split "=" tmp))) (pairs_of o) = true.
Proof.
  induction o as [|[k v] o IH]; [reflexivity|].
  cbn [forallb snd]. intros H. apply andb_true_iff in H as [Hv Ho].
  unfold pairs_of. cbn [flat_map fst snd]. fold (pairs_of o).
  rewrite forallb_app, (IH Ho), andb_true_r.
  destruct v; cbn [forallb]; rewrite ?andb_true_r; try (now apply pair_value_escaped).
  - reflexivity.
  - induction elems as [|x xs IHx]; [reflexivity|].
    cbn [forallb map] in *. apply andb_true_iff in Hv as [Hx Hxs].
    now rewrite (pair_value_escaped k x Hx), (IHx Hxs).
Qed.

Lemma pieces_read_nonempty (ps : list string) :
  Forall (fun p => p <> "") ps -> pieces_read ps = ps.
Proof.
  induction 1 as [|p ps Hp _ IH]; [reflexivity|].
  destruct p; [congruence|]. cbn. now rewrite IH.
Qed.

Lemma decode_encode_returns (o : SearchObject) :
  forallb (fun kv => match snd kv with
                     | VArr xs => forallb utf8_text xs
                     | v => utf8_text v
                     end) o = true ->
  exists query, decode (encode o None) = Ok query.
Proof.
  intros H. unfold decode. rewrite split_encode.
  pose proof (pairs_of_escaped o H) as He.
  pose proof (pieces_read_nonempty _ (pairs_of_nonempty o)) as Hp.
  destruct (pairs_of o) as [|p ps] eqn:E; [now exists []|].
  pose proof (decode_loop_result (p :: ps) []) as Hr.
  destruct (decode_loop (p :: ps) []) as [query|e]; [now exists query|].
  destruct Hr as [_ Hr]. rewrite Hp in Hr. congruence.
Qed.

(** X10.  [parseSearchWith(parser)] does not throw on what
    [stringifySearchWith(stringify)] wrote, whatever the keys, the parser and
    [stringify] do, as long as the values written are well-formed text. *)
Theorem parse_of_stringified_never_throws
    (parser : string -> result value) (stringify : value -> result string)
    (o : SearchObject) :
  forallb (fun kv => match snd kv with
                     | VArr xs => forallb utf8_text xs
                     | v => utf8_text v
                     end) (stringify_values stringify o) = true ->
  exists query,
    parseSearchWith parser (stringifySearchWith stringify o) = Ok query.
Proof.
  intros H. unfold parseSearchWith, stringifySearchWith.
  rewrite strip_question_mark_stringified.
  destruct (decode_encode_returns _ H) as [query ->]. eauto.
Qed.








End CodecFacts.


(** The same for the search object with the accented text. *)
Example accented_search_round_trips :
  Codec.stringifySearchWith Examples.stringify_some Examples.accented_search_params
  = ("?q=caf%C3%A9&ids=%5B1%2C2%5D&filter=%7B%22open%22%3Atrue%7D")%string /\
  Codec.parseSearchWith Examples.parse_some
    (Codec.stringifySearchWith Examples.stringify_some
       Examples.accented_search_params)
  = Js.Ok Examples.accented_search_params.
Proof. split; reflexivity. Qed.

(** Strings in any script are stable, and so is the search object with the
    accented text; a text that starts with a no-break space (U+00A0), which
    [+str] strips, is not taken for stable. *)
Example stable_strings_in_any_script :
  Codec.stable_string Examples.cafe = true /\
  Codec.stable_object [("q", Codec.VStr Examples.cafe)] = true /\
  Codec.round_trips Examples.parse_some Examples.stringify_some
    Examples.accented_search_params = true /\
  Codec.stable_string
    (String (ascii_of_nat 227) (String (ascii_of_nat 129)
       (String (ascii_of_nat 130) ""))) = true /\
  Codec.stable_string
    (String (ascii_of_nat 194) (String (ascii_of_nat 160) "12")) = false.
Proof. repeat split. Qed.


(** C4, as stated, fails: a value with a malformed percent-escape makes
    [parseSearchWith] throw [URIError], whether the escape is cut short, is
    not hexadecimal, or is not UTF-8. *)
Lemma parseSearch_throws_on_malformed_escape :
  Codec.parseSearchWith Examples.parse_literal "?q=%" = Js.Throw Js.URIError /\
  Codec.parseSearchWith Examples.parse_literal "?q=100%zz" = Js.Throw Js.URIError /\
  Codec.parseSearchWith Examples.parse_literal "?page=1&q=%C0%80" = Js.Throw Js.URIError.
Proof. vm_compute. repeat split. Qed.

(** A value that is not the literal the parser wants stays a string. *)
Example parseSearch_keeps_unparsed_string :
  Codec.parseSearchWith Examples.parse_literal "?filter=%7Bopen&page=2"
    = Js.Ok [("filter", Codec.VStr "{open"); ("page", Codec.VNum 2)].
Proof. reflexivity. Qed.


Lemma decode_returns_flat_values_under_distinct_keys_witness :
  Codec.own_keys "tags=a&page=2&tags=true&tags=%C3%A9" = true /\
  Codec.decode "tags=a&page=2&tags=true&tags=%C3%A9" =
    Js.Ok [("tags", Codec.VArr [Codec.VStr "a"; Codec.VBool true;
                                Codec.VStr (String (ascii_of_nat 195)
                                              (String (ascii_of_nat 169) ""))]);
           ("page", Codec.VNum 2)] /\
  match Codec.decode "tags=a&page=2&tags=true&tags=%C3%A9" with
  | Js.Ok out =>
      Codec.distinct (map fst out) = true /\
      forallb (fun kv => Codec.flat (snd kv)) out = true
  | Js.Throw e => e = Js.URIError
  end.
Proof.
  split; [reflexivity|]. split; [reflexivity|].
  apply (decode_returns_flat_values_under_distinct_keys
           "tags=a&page=2&tags=true&tags=%C3%A9").
  reflexivity.
Defined.

Lemma codec_reads_back_by_the_heuristics_witness :
  Codec.followed Examples.cafe_search = true /\
  Codec.encode Examples.cafe_search None = "q=caf%C3%A9&page=12&tags=a" /\
  Codec.decode (Codec.encode Examples.cafe_search None) =
    Js.Ok [("q", Codec.VStr Examples.cafe); ("page", Codec.VNum 12);
           ("tags", Codec.VStr "a")].
Proof.
  split; [reflexivity|]. split; [reflexivity|].
  apply (proj1 (codec_reads_back_by_the_heuristics Examples.cafe_search)).
  reflexivity.
Defined.

Lemma parse_of_stringified_never_throws_witness :
  exists query,
    Codec.parseSearchWith Examples.parse_literal
      (Codec.stringifySearchWith Examples.stringify_plainly
         [("a=b", Codec.VStr Examples.cafe); ("toString", Codec.VNull);
          ("x&y", Codec.VArr [Codec.VNum 1; Codec.VNum 2])])
    = Js.Ok query.
Proof.
  apply (parse_of_stringified_never_throws Examples.parse_literal
           Examples.stringify_plainly).
  reflexivity.
Defined.

(** ** Locations and the search codec together *)

Section LocationAndCodec.
Import Js JsString Location Codec.

(** The search string of a path followed by a query string that is empty or
    starts with ["?"]. *)
Lemma search_of_written_href (HState : Type) (p q : string) (st : HState) :
  occurs "?" p = false ->
  q = "" \/ (exists r, q = String "?" r) ->
  Location.search (parseLocation (p ++ q) st) = q.
Proof.
  intros Hp [->|[r ->]]; unfold parseLocation, indexOf; cbn [Location.search].
  - rewrite append_nil_r, (indexOf_from_absent _ _ _ Hp). reflexivity.
  - rewrite (indexOf_from_append _ _ _ Hp). cbn [Z.add].
    replace (Z.of_nat (String.length p) >? -1)%Z with true
      by (symmetry; apply Z.gtb_lt; lia).
    unfold substring_from. now rewrite clamp_length_append, drop_length_append.
Qed.

(** X18.  What [stringifySearchWith] wrote behind a path comes back through
    [parseLocation] and [parseSearchWith].  For a path without ["?"], the
    [search] of the location parsed from the path followed by the query
    string that [stringifySearchWith(stringify)] wrote for a search object is
    that query string, also when the object is empty and no query string is
    written; so [parseSearchWith(parser)] makes of it what it makes of the
    query string, and a search object that round-trips, which is to say that
    [parseSearchWith(parser)] reads what was written for it as the object,
    comes back from the location. *)
Theorem written_search_reads_back
    (HState : Type) (parser : string -> result value)
    (stringify : value -> result string) (o : SearchObject)
    (pathname : string) (st : HState) :
  occurs "?" pathname = false ->
  Location.search
    (parseLocation (pathname ++ stringifySearchWith stringify o) st)
  = stringifySearchWith stringify o /\
  parseSearchWith parser
    (Location.search
       (parseLocation (pathname ++ stringifySearchWith stringify o) st))
  = parseSearchWith parser (stringifySearchWith stringify o) /\
  (parseSearchWith parser (stringifySearchWith stringify o) = Ok o ->
   parseSearchWith parser
     (Location.search
        (parseLocation (pathname ++ stringifySearchWith stringify o) st))
   = Ok o).
Proof.
  intros Hp.
  assert (Hs : Location.search
                 (parseLocation (pathname ++ stringifySearchWith stringify o) st)
               = stringifySearchWith stringify o).
  { apply search_of_written_href; [exact Hp|]. unfold stringifySearchWith.
    destruct (String.eqb _ ""); [now left | right; eexists; reflexivity]. }
  rewrite Hs. auto.
Qed.

End LocationAndCodec.

Lemma written_search_reads_back_witness :
  JsString.occurs "?" "/items" = false /\
  Codec.parseSearchWith Examples.parse_some
    (Codec.stringifySearchWith Examples.stringify_some
       Examples.accented_search_params)
  = Js.Ok Examples.accented_search_params /\
  Codec.parseSearchWith Examples.parse_some
    (Location.search
       (Location.parseLocation
          ("/items" ++ Codec.stringifySearchWith Examples.stringify_some
                         Examples.accented_search_params) tt))
  = Js.Ok Examples.accented_search_params.
Proof.
  split; [reflexivity|]. split; [reflexivity|].
  apply (written_search_reads_back unit Examples.parse_some Examples.stringify_some
           Examples.accented_search_params "/items" tt); reflexivity.
Defined.

(** The same for an empty search object: nothing is written, and the
    [search] of the location is empty. *)
Example written_search_of_an_empty_object :
  Codec.stringifySearchWith Examples.stringify_some [] = "" /\
  Location.search
    (Location.parseLocation
       ("/items" ++ Codec.stringifySearchWith Examples.stringify_some []) tt)
  = "" /\
  Codec.parseSearchWith Examples.parse_some "" = Js.Ok [].
Proof. repeat split. Qed.
